(** * MeshToBodyBatch: the mesh-to-body batch script over an abstract CAD host

    The script [MeshToBodyBatch005.py] sequences calls into a CAD host
    (document store, mesh kernel, shape kernel).  Its six functions are
    embedded here as computations in a state-and-exception monad.  The host
    is a record of functions: what the kernel computes is left open, and an
    oracle [raises] decides which host call raises.  The document store
    (objects by name, added and removed) is concrete. *)

From Stdlib Require Import String List Bool Arith ZArith QArith Lia.
From Stdlib Require Import Permutation.
Import ListNotations.
Close Scope Q_scope.

Set Implicit Arguments.

(** ** A state-and-exception monad

    A Python statement either completes, with a value and a new state, or
    raises; in both cases the state it has reached is kept, since mutations
    made before the [raise] are not undone. *)

Inductive result (S E A : Type) : Type :=
| Ok (a : A) (s : S)
| Raise (e : E) (s : S).

Arguments Ok {S E A} a s.
Arguments Raise {S E A} e s.

(** The state a statement has reached, however it ended. *)
Definition reached {S E A : Type} (r : result S E A) : S :=
  match r with
  | Ok _ s => s
  | Raise _ s => s
  end.

Definition ret {S E A : Type} (a : A) : S -> result S E A :=
  fun s => Ok a s.

Definition raise {S E A : Type} (e : E) : S -> result S E A :=
  fun s => Raise e s.

Definition bind {S E A B : Type} (c : S -> result S E A)
  (k : A -> S -> result S E B) : S -> result S E B :=
  fun s => match c s with
           | Ok a s1 => k a s1
           | Raise e s1 => Raise e s1
           end.

(** [try: ... except Exception as e: ...] *)
Definition try_except {S E A : Type} (c : S -> result S E A)
  (handler : E -> S -> result S E A) : S -> result S E A :=
  fun s => match c s with
           | Ok a s1 => Ok a s1
           | Raise e s1 => handler e s1
           end.

Declare Scope py_scope.
Delimit Scope py_scope with py.

Notation "x <- c ;; k" := (bind c (fun x => k))
  (at level 61, c at next level, right associativity) : py_scope.
Notation "c ;; k" := (bind c (fun _ => k))
  (at level 61, right associativity) : py_scope.
Notation "'try' c 'except' h" := (try_except c h)
  (at level 60, c at level 61, h at level 9) : py_scope.

Open Scope py_scope.

(** [for x in l: body] *)
Fixpoint for_each {S E A : Type} (l : list A) (body : A -> S -> result S E unit)
  : S -> result S E unit :=
  match l with
  | [] => ret tt
  | x :: rest => body x ;; for_each rest body
  end.

(** [if cond: body] with no [else]. *)
Definition when {S E : Type} (cond : bool) (body : S -> result S E unit)
  : S -> result S E unit :=
  if cond then body else ret tt.

(** ** The data of the host *)

Section Script.

Context {mesh shape : Type}.

(** A document object.  A Python handle to it is its [Name]; the properties
    the script touches are the fields. *)
Record docobj : Type := {
  Name : string;
  TypeId : string;
  Mesh : option mesh;
  Shape : shape;
  Source : option string;
  BaseFeature : option string;
  Visibility : bool
}.

(** The calls the script makes into the host, with their arguments. *)
Inductive call : Type :=
| GetMesh (obj : string)
| SetMesh (obj : string) (m : mesh)
| GetTopology (m : mesh)
| NewMesh (topology : mesh)
| Query (name : string) (m : mesh)
| Method (name : string) (args : list Z) (m : mesh)
| Recompute
| AddObject (type name : string)
| RemoveObject (name : string)
| GetObject (name : string)
| OpenTransaction (name : string)
| CommitTransaction
| AbortTransaction
| NewShape
| MakeShapeFromMesh (topology : mesh) (tolerance : Q) (segments : bool)
| SetShape (obj : string) (s : shape)
| PurgeTouched (obj : string)
| GetShape (obj : string)
| GetFaces (s : shape)
| NewShell (faces : list shape)
| NewSolid (shell : shape)
| IsValid (s : shape)
| SetSource (obj src : string)
| SetVisibility (obj : string) (v : bool)
| SetBaseFeature (obj base : string).

Inductive message : Type :=
| Message (text : string)
| Error (text : string).

Inductive exn : Type :=
| HostError (c : call)
| ValueError (text : string)
| AttributeError (attribute : string)
| UnboundLocalError (var : string).

(** The local variables of [attempt_comprehensive_manual_repair] that its
    [except] clauses can observe after a step has raised. *)
Record frame : Type := {
  mutable_mesh : option mesh;
  repairs_applied : list string;
  self_intersections_fixed_on_mutable : bool;
  initial_has_self_intersections : option bool
}.

Definition empty_frame : frame :=
  {| mutable_mesh := None;
     repairs_applied := [];
     self_intersections_fixed_on_mutable := false;
     initial_has_self_intersections := None |}.

(** [ActiveDocument] is [FreeCAD.ActiveDocument] ([None] when no document is
    open) with the document's objects in creation order; [trace] lists the
    host calls made so far, each with whether it returned; [console] is
    what was printed. *)
Record state : Type := {
  ActiveDocument : option (list docobj);
  trace : list (call * bool);
  console : list message;
  locals : frame
}.

(** The host.  A mesh value stands for its topology (points and facets), so
    [Mesh.Mesh(topology)] yields an equal value.  [method] is what an
    in-place corrective method of the mesh kernel leaves when it returns,
    [interrupted] what it leaves when it raises.  [nullShape] is
    [Part.Shape()], [truthy] the truth value Python gives a shape. *)
Record Host : Type := {
  isSolid : mesh -> bool;
  hasNonManifolds : mesh -> bool;
  hasSelfIntersections : mesh -> bool;
  CountPoints : mesh -> nat;
  CountFacets : mesh -> nat;
  hasattr : string -> bool;
  method : string -> list Z -> mesh -> mesh;
  interrupted : string -> list Z -> mesh -> mesh;
  nullShape : shape;
  truthy : shape -> bool;
  makeShapeFromMesh : mesh -> Q -> bool -> shape;
  Faces : shape -> list shape;
  Shell : list shape -> shape;
  Solid : shape -> shape;
  isValid : shape -> bool;
  recompute : list docobj -> list docobj;
  uniqueName : list string -> string -> string;
  raises : state -> call -> bool
}.

Variable H : Host.

Definition M (A : Type) : Type := state -> result state exn A.

(** ** State access *)

Definition set_document (d : option (list docobj)) (s : state) : state :=
  {| ActiveDocument := d; trace := trace s; console := console s;
     locals := locals s |}.

Definition set_locals (f : frame) (s : state) : state :=
  {| ActiveDocument := ActiveDocument s; trace := trace s;
     console := console s; locals := f |}.

Definition logged (c : call) (returned : bool) (s : state) : state :=
  {| ActiveDocument := ActiveDocument s; trace := trace s ++ [(c, returned)];
     console := console s; locals := locals s |}.

Definition printed (m : message) (s : state) : state :=
  {| ActiveDocument := ActiveDocument s; trace := trace s;
     console := console s ++ [m]; locals := locals s |}.

Definition PrintMessage (text : string) : M unit :=
  fun s => Ok tt (printed (Message text) s).

Definition PrintError (text : string) : M unit :=
  fun s => Ok tt (printed (Error text) s).

(** A host call: the oracle may make it raise; otherwise [sem] gives its
    value and effect, [None] when the host itself refuses (an object that
    does not exist, a property the object does not have). *)
Definition host {A : Type} (c : call) (sem : state -> option (A * state))
  : M A :=
  fun s =>
    if raises H s c then Raise (HostError c) (logged c false s)
    else match sem s with
         | Some (a, s1) => Ok a (logged c true s1)
         | None => Raise (HostError c) (logged c false s)
         end.

(** The three transaction calls only move the undo stack. *)
Definition transaction (c : call) : M unit :=
  fun s => Ok tt (logged c true s).

Definition openTransaction (name : string) : M unit :=
  transaction (OpenTransaction name).
Definition commitTransaction : M unit := transaction CommitTransaction.
Definition abortTransaction : M unit := transaction AbortTransaction.

(** ** The document store *)

Definition lookup (name : string) (objs : list docobj) : option docobj :=
  find (fun o => String.eqb (Name o) name) objs.

Definition update (name : string) (f : docobj -> docobj)
  (objs : list docobj) : list docobj :=
  map (fun o => if String.eqb (Name o) name then f o else o) objs.

Definition remove_named (name : string) (objs : list docobj) : list docobj :=
  filter (fun o => negb (String.eqb (Name o) name)) objs.

Definition new_object (type name : string) : docobj :=
  {| Name := name; TypeId := type; Mesh := None; Shape := nullShape H;
     Source := None; BaseFeature := None; Visibility := true |}.

Definition with_Mesh (m : mesh) (o : docobj) : docobj :=
  {| Name := Name o; TypeId := TypeId o; Mesh := Some m; Shape := Shape o;
     Source := Source o; BaseFeature := BaseFeature o;
     Visibility := Visibility o |}.

Definition with_Shape (sh : shape) (o : docobj) : docobj :=
  {| Name := Name o; TypeId := TypeId o; Mesh := Mesh o; Shape := sh;
     Source := Source o; BaseFeature := BaseFeature o;
     Visibility := Visibility o |}.

Definition with_Source (src : string) (o : docobj) : docobj :=
  {| Name := Name o; TypeId := TypeId o; Mesh := Mesh o; Shape := Shape o;
     Source := Some src; BaseFeature := BaseFeature o;
     Visibility := Visibility o |}.

Definition with_BaseFeature (base : string) (o : docobj) : docobj :=
  {| Name := Name o; TypeId := TypeId o; Mesh := Mesh o; Shape := Shape o;
     Source := Source o; BaseFeature := Some base;
     Visibility := Visibility o |}.

Definition with_Visibility (v : bool) (o : docobj) : docobj :=
  {| Name := Name o; TypeId := TypeId o; Mesh := Mesh o; Shape := Shape o;
     Source := Source o; BaseFeature := BaseFeature o; Visibility := v |}.

(** The object a handle refers to, when it is still in the document. *)
Definition object_of (obj : string) (s : state) : option docobj :=
  match ActiveDocument s with
  | Some objs => lookup obj objs
  | None => None
  end.

(** Assigning a property of an object that is in the document. *)
Definition assign (obj : string) (f : docobj -> docobj) (s : state)
  : option (unit * state) :=
  match ActiveDocument s with
  | Some objs =>
      match lookup obj objs with
      | Some _ => Some (tt, set_document (Some (update obj f objs)) s)
      | None => None
      end
  | None => None
  end.

(** [obj.Mesh] *)
Definition get_Mesh (obj : string) : M mesh :=
  host (GetMesh obj) (fun s =>
    match object_of obj s with
    | Some o => match Mesh o with Some m => Some (m, s) | None => None end
    | None => None
    end).

(** [obj.Mesh = m] *)
Definition set_Mesh (obj : string) (m : mesh) : M unit :=
  host (SetMesh obj m) (assign obj (with_Mesh m)).

(** [m.Topology] and [Mesh.Mesh(topology)] *)
Definition get_Topology (m : mesh) : M mesh :=
  host (GetTopology m) (fun s => Some (m, s)).

Definition new_Mesh (topology : mesh) : M mesh :=
  host (NewMesh topology) (fun s => Some (topology, s)).

(** [doc.recompute()] *)
Definition doc_recompute : M unit :=
  host Recompute (fun s =>
    match ActiveDocument s with
    | Some objs => Some (tt, set_document (Some (recompute H objs)) s)
    | None => None
    end).

(** [doc.addObject(type, name)]: the host picks the object's name, the
    requested one when it is free; the value is the new object's [Name]. *)
Definition addObject (type name : string) : M string :=
  host (AddObject type name) (fun s =>
    match ActiveDocument s with
    | Some objs =>
        let n := uniqueName H (map Name objs) name in
        Some (n, set_document (Some (objs ++ [new_object type n])) s)
    | None => None
    end).

(** [doc.removeObject(name)] *)
Definition removeObject (name : string) : M unit :=
  host (RemoveObject name) (fun s =>
    match ActiveDocument s with
    | Some objs =>
        match lookup name objs with
        | Some _ => Some (tt, set_document (Some (remove_named name objs)) s)
        | None => None
        end
    | None => None
    end).

(** [doc.getObject(name)]: [None] when there is no such object. *)
Definition getObject (name : string) : M (option docobj) :=
  host (GetObject name) (fun s =>
    match ActiveDocument s with
    | Some objs => Some (lookup name objs, s)
    | None => None
    end).

(** ** The mesh kernel *)

Definition query {A : Type} (name : string) (value : mesh -> A) (m : mesh)
  : M A :=
  host (Query name m) (fun s => Some (value m, s)).

Definition mesh_isSolid : mesh -> M bool := query "isSolid" (isSolid H).
Definition mesh_hasNonManifolds : mesh -> M bool :=
  query "hasNonManifolds" (hasNonManifolds H).
Definition mesh_hasSelfIntersections : mesh -> M bool :=
  query "hasSelfIntersections" (hasSelfIntersections H).
Definition mesh_CountPoints : mesh -> M nat :=
  query "CountPoints" (CountPoints H).
Definition mesh_CountFacets : mesh -> M nat :=
  query "CountFacets" (CountFacets H).
(** [Volume] and [Area] are only printed. *)
Definition mesh_Volume : mesh -> M unit := query "Volume" (fun _ => tt).
Definition mesh_Area : mesh -> M unit := query "Area" (fun _ => tt).

(** ** The frame of the repair function *)

Definition the_mutable_mesh : M mesh :=
  fun s => match mutable_mesh (locals s) with
           | Some m => Ok m s
           | None => Raise (UnboundLocalError "mutable_mesh") s
           end.

Definition bind_mutable_mesh (m : mesh) : M unit :=
  fun s => Ok tt (set_locals
    {| mutable_mesh := Some m;
       repairs_applied := repairs_applied (locals s);
       self_intersections_fixed_on_mutable :=
         self_intersections_fixed_on_mutable (locals s);
       initial_has_self_intersections :=
         initial_has_self_intersections (locals s) |} s).

Definition set_repairs_applied (l : list string) : M unit :=
  fun s => Ok tt (set_locals
    {| mutable_mesh := mutable_mesh (locals s);
       repairs_applied := l;
       self_intersections_fixed_on_mutable :=
         self_intersections_fixed_on_mutable (locals s);
       initial_has_self_intersections :=
         initial_has_self_intersections (locals s) |} s).

(** [repairs_applied.append(description)] *)
Definition repairs_applied_append (description : string) : M unit :=
  fun s => set_repairs_applied
             (repairs_applied (locals s) ++ [description]) s.

Definition set_self_intersections_fixed_on_mutable (b : bool) : M unit :=
  fun s => Ok tt (set_locals
    {| mutable_mesh := mutable_mesh (locals s);
       repairs_applied := repairs_applied (locals s);
       self_intersections_fixed_on_mutable := b;
       initial_has_self_intersections :=
         initial_has_self_intersections (locals s) |} s).

Definition set_initial_has_self_intersections (b : bool) : M unit :=
  fun s => Ok tt (set_locals
    {| mutable_mesh := mutable_mesh (locals s);
       repairs_applied := repairs_applied (locals s);
       self_intersections_fixed_on_mutable :=
         self_intersections_fixed_on_mutable (locals s);
       initial_has_self_intersections := Some b |} s).

(** A new activation of the function: no local is bound yet. *)
Definition enter_frame : M unit :=
  fun s => Ok tt (set_locals empty_frame s).

(** A corrective method called on [mutable_mesh]: the mesh object is
    changed in place, also when the call raises. *)
Definition call_method (name : string) (args : list Z) : M unit :=
  fun s =>
    match mutable_mesh (locals s) with
    | None => Raise (UnboundLocalError "mutable_mesh") s
    | Some m =>
        if raises H s (Method name args m)
        then bind (bind_mutable_mesh (interrupted H name args m))
               (fun _ => raise (HostError (Method name args m)))
               (logged (Method name args m) false s)
        else bind_mutable_mesh (method H name args m)
               (logged (Method name args m) true s)
    end.

(** The DIAGNOSTIC lines: [isSolid()], [CountPoints] and [CountFacets] of
    the mutable mesh are read, then printed. *)
Definition diagnostic : M unit :=
  m <- the_mutable_mesh ;;
  mesh_isSolid m ;;
  mesh_CountPoints m ;;
  mesh_CountFacets m ;;
  PrintMessage "DIAGNOSTIC".

(** ** The shape kernel and the remaining properties *)

Definition new_Shape : M unit :=
  host NewShape (fun s => Some (tt, s)).

Definition shape_makeShapeFromMesh (topology : mesh) (tolerance : Q)
  (segments : bool) : M shape :=
  host (MakeShapeFromMesh topology tolerance segments)
    (fun s => Some (makeShapeFromMesh H topology tolerance segments, s)).

Definition get_Shape (obj : string) : M shape :=
  host (GetShape obj) (fun s =>
    match object_of obj s with
    | Some o => Some (Shape o, s)
    | None => None
    end).

Definition set_Shape (obj : string) (sh : shape) : M unit :=
  host (SetShape obj sh) (assign obj (with_Shape sh)).

Definition purgeTouched (obj : string) : M unit :=
  host (PurgeTouched obj) (assign obj (fun o => o)).

Definition shape_Faces (sh : shape) : M (list shape) :=
  host (GetFaces sh) (fun s => Some (Faces H sh, s)).

Definition new_Shell (faces : list shape) : M shape :=
  host (NewShell faces) (fun s => Some (Shell H faces, s)).

Definition new_Solid (shell : shape) : M shape :=
  host (NewSolid shell) (fun s => Some (Solid H shell, s)).

Definition shape_isValid (sh : shape) : M bool :=
  host (IsValid sh) (fun s => Some (isValid H sh, s)).

Definition set_Source (obj src : string) : M unit :=
  host (SetSource obj src) (assign obj (with_Source src)).

Definition set_Visibility (obj : string) (v : bool) : M unit :=
  host (SetVisibility obj v) (assign obj (with_Visibility v)).

Definition set_BaseFeature (obj base : string) : M unit :=
  host (SetBaseFeature obj base) (assign obj (with_BaseFeature base)).

(** ** attempt_comprehensive_manual_repair (lines 10-127) *)

(** Lines 33-58: the priority pass, run when the copy has
    self-intersections. *)
Definition priority_pass : M unit :=
  PrintMessage "Fix self-intersections (priority pass)...)" ;;
  try (
    call_method "fixSelfIntersections" [] ;;
    repairs_applied_append "Fix self-intersections (priority)" ;;
    diagnostic ;;
    PrintMessage "Harmonize Normals (after self-intersection fix)..." ;;
    call_method "harmonizeNormals" [] ;;
    repairs_applied_append "Harmonize Normals (after self-intersection fix)" ;;
    diagnostic ;;
    m <- the_mutable_mesh ;;
    still <- mesh_hasSelfIntersections m ;;
    if negb still then
      PrintMessage
        "Self-intersections fixed in mutable mesh (internal check)." ;;
      set_self_intersections_fixed_on_mutable true
    else
      PrintMessage
        "Self-intersections persist in mutable mesh after priority fix (internal check)."
  ) except (fun e =>
    PrintMessage "Fix self-intersections (priority pass) failed").

(** Lines 63-69. *)
Definition repair_methods : list (string * string) :=
  [ ("removeDuplicatedPoints", "Remove duplicate points");
    ("removeDuplicatedFacets", "Remove duplicate facets");
    ("removeInvalidPoints", "Remove invalid points");
    ("removeNonManifolds", "Remove non-manifolds");
    ("removeFoldsOnSurface", "Remove surface folds") ]%string.

(** Lines 72-82: the body of the loop over [repair_methods]. *)
Definition general_repair (entry : string * string) : M unit :=
  let (method_name, description) := entry in
  try (
    when (hasattr H method_name) (
      PrintMessage (String.append description "...") ;;
      call_method method_name [] ;;
      repairs_applied_append description ;;
      diagnostic)
  ) except (fun e =>
    PrintMessage (String.append description " failed")).

(** Lines 85-93. *)
Definition fill_small_holes : M unit :=
  try (
    PrintMessage "Fill small holes..." ;;
    call_method "fillupHoles" [100%Z] ;;
    repairs_applied_append "Fill small holes" ;;
    diagnostic
  ) except (fun e => PrintMessage "Fill small holes failed").

(** Lines 22-93: the passes over the mutable copy. *)
Definition repair_passes : M bool :=
  set_repairs_applied [] ;;
  set_self_intersections_fixed_on_mutable false ;;
  diagnostic ;;
  m <- the_mutable_mesh ;;
  initial <- mesh_hasSelfIntersections m ;;
  set_initial_has_self_intersections initial ;;
  when initial priority_pass ;;
  for_each repair_methods general_repair ;;
  fill_small_holes ;;
  ret initial.

(** Lines 96-120: write the copy back, recompute, check the result. *)
Definition write_back_and_check (mesh_obj : string) (initial : bool)
  : M bool :=
  m <- the_mutable_mesh ;;
  set_Mesh mesh_obj m ;;
  doc_recompute ;;
  doc_recompute ;;
  doc_recompute ;;
  current_mesh_data <- get_Mesh mesh_obj ;;
  is_solid <- mesh_isSolid current_mesh_data ;;
  has_non_manifolds <- mesh_hasNonManifolds current_mesh_data ;;
  queried <- mesh_hasSelfIntersections current_mesh_data ;;
  fixed <- (fun s => Ok (self_intersections_fixed_on_mutable (locals s)) s) ;;
  let final_has_self_intersections :=
    if initial then negb fixed else queried in
  PrintMessage "Manual repairs applied" ;;
  PrintMessage "Result" ;;
  ret (is_solid && negb has_non_manifolds
       && negb final_has_self_intersections).

(** Lines 16-123: the body of the outer [try]. *)
Definition repair_body (mesh_obj : string) : M bool :=
  m0 <- get_Mesh mesh_obj ;;
  original_mesh_topology <- get_Topology m0 ;;
  copy <- new_Mesh original_mesh_topology ;;
  bind_mutable_mesh copy ;;
  PrintMessage "Falling back to manual comprehensive repair" ;;
  initial <- repair_passes ;;
  applied <- (fun s => Ok (repairs_applied (locals s)) s) ;;
  match applied with
  | _ :: _ => write_back_and_check mesh_obj initial
  | [] =>
      PrintMessage "No manual repairs were successfully applied." ;;
      ret false
  end.

Definition attempt_comprehensive_manual_repair (mesh_obj : string) : M bool :=
  enter_frame ;;
  try (repair_body mesh_obj)
  except (fun e =>
    PrintError (String.append "Manual repair error for " mesh_obj) ;;
    ret false).

(** ** attempt_mesh_repair (lines 131-151) *)

Definition attempt_mesh_repair (mesh_obj : string)
  (has_non_manifolds has_self_intersections : option bool) : M bool :=
  try (
    PrintMessage (String.append "=== Starting repair for " mesh_obj) ;;
    success <- attempt_comprehensive_manual_repair mesh_obj ;;
    if success then
      PrintMessage
        "REPAIR: Automatic repair successful - proceeding with conversion" ;;
      ret true
    else
      PrintMessage "REPAIR: Automatic repair failed - skipping this mesh" ;;
      ret false
  ) except (fun e =>
    PrintError (String.append "All repair methods failed for " mesh_obj) ;;
    ret false).

(** ** evaluate_mesh_automated (lines 155-205) *)

(** Lines 161-177: the reads the evaluation makes. *)
Definition evaluation_queries (selected_mesh : string)
  : M (bool * bool * bool) :=
  mesh <- get_Mesh selected_mesh ;;
  is_solid <- mesh_isSolid mesh ;;
  has_non_manifolds <- mesh_hasNonManifolds mesh ;;
  has_self_intersections <- mesh_hasSelfIntersections mesh ;;
  PrintMessage (String.append "=== MESH EVALUATION: " selected_mesh) ;;
  mesh_CountPoints mesh ;;
  mesh_CountFacets mesh ;;
  when is_solid (mesh_Volume mesh ;; mesh_Area mesh) ;;
  ret (is_solid, has_non_manifolds, has_self_intersections).

(** Lines 180-201: the decision. *)
Definition evaluation_decision (selected_mesh : string)
  (is_solid has_non_manifolds has_self_intersections : bool) : M string :=
  if is_solid && negb has_non_manifolds && negb has_self_intersections then
    PrintMessage "DECISION: Mesh is clean - proceeding with conversion" ;;
    ret "proceed"%string
  else if is_solid && (has_non_manifolds || has_self_intersections) then
    PrintMessage
      "DECISION: Mesh is solid but has issues - attempting automatic repair" ;;
    repair_success <- attempt_mesh_repair selected_mesh
                        (Some has_non_manifolds)
                        (Some has_self_intersections) ;;
    if repair_success then
      PrintMessage
        "REPAIR: Automatic repair successful - proceeding with conversion" ;;
      ret "proceed"%string
    else
      PrintMessage "REPAIR: Automatic repair failed - skipping this mesh" ;;
      ret "repair"%string
  else
    PrintMessage "DECISION: Mesh is not solid - skipping this mesh" ;;
    ret "repair"%string.

Definition evaluate_mesh_automated (selected_mesh : string) : M string :=
  try (
    q <- evaluation_queries selected_mesh ;;
    let '(is_solid, has_non_manifolds, has_self_intersections) := q in
    evaluation_decision selected_mesh
      is_solid has_non_manifolds has_self_intersections
  ) except (fun e =>
    PrintError (String.append "Mesh evaluation error for " selected_mesh) ;;
    ret "cancel"%string).

(** ** find_all_mesh_objects (lines 209-235) *)

(** [hasattr(obj, 'Mesh') and isinstance(obj.Mesh, Mesh.Mesh)] *)
Definition has_Mesh (o : docobj) : bool :=
  match Mesh o with Some _ => true | None => false end.

(** The summary dictionary of the discovery. *)
Record discovery : Type := {
  total_objects : nat;
  mesh_objects : nat;
  mesh_names : list string
}.

Definition find_all_mesh_objects (doc : option (list docobj))
  : M (list string * option discovery) :=
  doc <- (fun s => Ok (match doc with
                       | Some d => Some d
                       | None => ActiveDocument s
                       end) s) ;;
  match doc with
  | None =>
      PrintError "No active document found." ;;
      ret ([], None)
  | Some all_objects =>
      let found := map Name (filter has_Mesh all_objects) in
      ret (found,
           Some {| total_objects := length all_objects;
                   mesh_objects := length found;
                   mesh_names := found |})
  end.

(** ** convert_single_mesh (lines 239-328) *)

(** Lines 263-279: the shape, the solid and the refined solid. *)
Definition build_intermediates (mesh_obj base_name : string)
  : M (string * string * string) :=
  shape_obj <- addObject "Part::Feature" (String.append base_name "_shape") ;;
  new_Shape ;;
  m <- get_Mesh mesh_obj ;;
  topology <- get_Topology m ;;
  sh <- shape_makeShapeFromMesh topology (1 # 10)%Q false ;;
  set_Shape shape_obj sh ;;
  purgeTouched shape_obj ;;
  solid_obj <- addObject "Part::Feature" (String.append base_name "_solid") ;;
  sh1 <- get_Shape shape_obj ;;
  faces <- shape_Faces sh1 ;;
  shell <- new_Shell faces ;;
  solid <- new_Solid shell ;;
  set_Shape solid_obj solid ;;
  refined_obj <- addObject "Part::Refine"
                   (String.append base_name "_solid_refined") ;;
  set_Source refined_obj solid_obj ;;
  set_Visibility solid_obj false ;;
  doc_recompute ;;
  ret (shape_obj, solid_obj, refined_obj).

(** Line 281: [refined_obj.Shape and refined_obj.Shape.isValid()] *)
Definition refined_is_valid (refined_obj : string) : M bool :=
  sh <- get_Shape refined_obj ;;
  if truthy H sh then
    sh' <- get_Shape refined_obj ;;
    shape_isValid sh'
  else ret false.

(** Lines 282-304: the body, the removals and the commit. *)
Definition create_body (mesh_obj base_name : string)
  (objs : string * string * string) (base_transaction : bool)
  : M (bool * option string) :=
  let '(shape_obj, solid_obj, refined_obj) := objs in
  simple_copy_obj <- addObject "Part::Feature"
                       (String.append base_name "_solid_simple") ;;
  sh <- get_Shape refined_obj ;;
  set_Shape simple_copy_obj sh ;;
  body_obj <- addObject "PartDesign::Body"
                (String.append base_name "_Body") ;;
  set_BaseFeature body_obj simple_copy_obj ;;
  set_Visibility simple_copy_obj false ;;
  removeObject shape_obj ;;
  removeObject solid_obj ;;
  removeObject refined_obj ;;
  removeObject mesh_obj ;;
  doc_recompute ;;
  PrintMessage (String.append "Successfully created: " body_obj) ;;
  when (negb base_transaction) commitTransaction ;;
  ret (true, Some body_obj).

(** Lines 260-307: the conversion proper, after the evaluation. *)
Definition conversion (mesh_obj base_name : string) (base_transaction : bool)
  : M (bool * option string) :=
  objs <- build_intermediates mesh_obj base_name ;;
  valid <- refined_is_valid (snd objs) ;;
  if valid then create_body mesh_obj base_name objs base_transaction
  else raise (ValueError "Refined solid was invalid").

(** Lines 311-316: the names among the four patterns that
    [doc.getObject] finds. *)
Fixpoint existing_objects (names : list string) : M (list string) :=
  match names with
  | [] => ret []
  | name :: rest =>
      o <- getObject name ;;
      found <- existing_objects rest ;;
      ret (match o with Some _ => name :: found | None => found end)
  end.

Definition temp_names (base_name : string) : list string :=
  [ String.append base_name "_shape";
    String.append base_name "_solid";
    String.append base_name "_solid_refined";
    String.append base_name "_solid_simple" ].

(** Lines 309-328: the [except] clause. *)
Definition cleanup_on_error (mesh_obj base_name : string)
  (base_transaction : bool) : M (bool * option string) :=
  temp_objects <- existing_objects (temp_names base_name) ;;
  for_each temp_objects (fun obj_name =>
    try (removeObject obj_name) except (fun _ => ret tt)) ;;
  when (negb base_transaction) abortTransaction ;;
  PrintError (String.append "Conversion failed for " mesh_obj) ;;
  ret (false, None).

(** Lines 251-258, where [base_name] is not bound yet: an exception here
    reaches the [except] clause, whose first expression reads
    [base_name]. *)
Definition evaluation_gate (mesh_obj : string) (base_transaction : bool)
  : M (option (bool * option string)) :=
  try (
    evaluation_result <- evaluate_mesh_automated mesh_obj ;;
    if negb (String.eqb evaluation_result "proceed") then
      when (negb base_transaction) abortTransaction ;;
      ret (Some (false, None))
    else
      PrintMessage (String.append "Starting conversion of " mesh_obj) ;;
      ret None
  ) except (fun e => raise (UnboundLocalError "base_name")).

Definition convert_single_mesh (mesh_obj : string) (base_transaction : bool)
  : M (bool * option string) :=
  when (negb base_transaction)
    (openTransaction (String.append "Convert Mesh: " mesh_obj)) ;;
  early <- evaluation_gate mesh_obj base_transaction ;;
  match early with
  | Some r => ret r
  | None =>
      let base_name := mesh_obj in
      try (conversion mesh_obj base_name base_transaction)
      except (fun e => cleanup_on_error mesh_obj base_name base_transaction)
  end.

(** ** convert_all_document_meshes (lines 332-445) *)

Record results : Type := {
  total_meshes : nat;
  converted : nat;
  failed : nat;
  skipped : nat;
  converted_objects : list (string * option string);
  failed_objects : list string;
  skipped_objects : list string
}.

(** What the function returns besides [None]: the four counts alone when
    there is no mesh (line 349), the whole dictionary otherwise. *)
Inductive statistics : Type :=
| Counts (total_meshes converted failed skipped : nat)
| Results (r : results).

Definition add_converted (original_name : string) (body_name : option string)
  (r : results) : results :=
  {| total_meshes := total_meshes r;
     converted := converted r + 1;
     failed := failed r;
     skipped := skipped r;
     converted_objects :=
       converted_objects r ++ [(original_name, body_name)];
     failed_objects := failed_objects r;
     skipped_objects := skipped_objects r |}.

Definition add_skipped (original_name : string) (r : results) : results :=
  {| total_meshes := total_meshes r;
     converted := converted r;
     failed := failed r;
     skipped := skipped r + 1;
     converted_objects := converted_objects r;
     failed_objects := failed_objects r;
     skipped_objects := skipped_objects r ++ [original_name] |}.

Definition add_failed (original_name : string) (r : results) : results :=
  {| total_meshes := total_meshes r;
     converted := converted r;
     failed := failed r + 1;
     skipped := skipped r;
     converted_objects := converted_objects r;
     failed_objects := failed_objects r ++ [original_name];
     skipped_objects := skipped_objects r |}.

(** Line 393: [doc.getObject(original_name) and
    doc.getObject(original_name).TypeId == 'Mesh::Feature'] *)
Definition original_is_still_a_mesh (original_name : string) : M bool :=
  o <- getObject original_name ;;
  match o with
  | None => ret false
  | Some _ =>
      o' <- getObject original_name ;;
      match o' with
      | Some obj => ret (String.eqb (TypeId obj) "Mesh::Feature")
      | None => raise (AttributeError "TypeId")
      end
  end.

(** Lines 380-398: the body of the loop. *)
Definition process_mesh (r : results) (mesh_obj : string) : M results :=
  PrintMessage (String.append "Processing: " mesh_obj) ;;
  let original_name := mesh_obj in
  c <- convert_single_mesh mesh_obj true ;;
  let (success, body_name) := c in
  if success then ret (add_converted original_name body_name r)
  else
    still <- original_is_still_a_mesh original_name ;;
    if still then ret (add_skipped original_name r)
    else ret (add_failed original_name r).

(** Lines 379-398: the loop, in the order of [mesh_objects]. *)
Fixpoint process_all (mesh_objects : list string) (r : results) : M results :=
  match mesh_objects with
  | [] => ret r
  | mesh_obj :: rest =>
      r' <- process_mesh r mesh_obj ;;
      process_all rest r'
  end.

Definition initial_results (n : nat) : results :=
  {| total_meshes := n; converted := 0; failed := 0; skipped := 0;
     converted_objects := []; failed_objects := []; skipped_objects := [] |}.

(** Lines 378-406: the loop and the master commit, under the [try]. *)
Definition batch (mesh_objects : list string) : M (option results) :=
  try (
    r <- process_all mesh_objects (initial_results (length mesh_objects)) ;;
    commitTransaction ;;
    ret (Some r)
  ) except (fun e =>
    abortTransaction ;;
    PrintError "Master conversion process failed" ;;
    ret None).

Definition convert_all_document_meshes (show_summary : bool)
  : M (option statistics) :=
  doc <- (fun s => Ok (ActiveDocument s) s) ;;
  match doc with
  | None =>
      PrintError "No active document found." ;;
      ret None
  | Some _ =>
      found <- find_all_mesh_objects doc ;;
      match fst found with
      | [] =>
          PrintMessage "No mesh objects found in document." ;;
          ret (Some (Counts 0 0 0 0))
      | _ :: _ =>
          PrintMessage "DOCUMENT-WIDE MESH CONVERSION" ;;
          openTransaction "Convert All Document Meshes" ;;
          outcome <- batch (fst found) ;;
          match outcome with
          | None => ret None
          | Some r =>
              doc_recompute ;;
              PrintMessage "CONVERSION COMPLETE" ;;
              ret (Some (Results r))
          end
      end
  end.

(** ** analyze_document_meshes (lines 449-483) *)

(** The dictionary [analysis_results]. *)
Record analysis : Type := {
  clean : nat;
  repairable : nat;
  problematic : nat
}.

(** Lines 468-476: the body of the loop. *)
Definition analyze_mesh (a : analysis) (mesh_obj : string) : M analysis :=
  evaluation <- evaluate_mesh_automated mesh_obj ;;
  if String.eqb evaluation "proceed" then
    ret {| clean := clean a + 1; repairable := repairable a;
           problematic := problematic a |}
  else if String.eqb evaluation "repair" then
    ret {| clean := clean a; repairable := repairable a + 1;
           problematic := problematic a |}
  else
    ret {| clean := clean a; repairable := repairable a;
           problematic := problematic a + 1 |}.

(** Lines 466-476: the loop, in the order of [mesh_objects]. *)
Fixpoint analyze_all (mesh_objects : list string) (a : analysis)
  : M analysis :=
  match mesh_objects with
  | [] => ret a
  | mesh_obj :: rest =>
      a' <- analyze_mesh a mesh_obj ;;
      analyze_all rest a'
  end.

(** The function returns [None] on both paths; the counts are printed. *)
Definition analyze_document_meshes : M unit :=
  found <- find_all_mesh_objects None ;;
  match fst found with
  | [] =>
      PrintMessage "No mesh objects found in document." ;;
      ret tt
  | _ :: _ =>
      PrintMessage "DOCUMENT MESH ANALYSIS" ;;
      analysis_results <- analyze_all (fst found)
                            {| clean := 0; repairable := 0;
                               problematic := 0 |} ;;
      PrintMessage "SUMMARY" ;;
      ret tt
  end.

(** ** What the properties observe *)

Definition is_transaction (c : call) : bool :=
  match c with
  | OpenTransaction _ | CommitTransaction | AbortTransaction => true
  | _ => false
  end.

(** The transaction calls of a trace, in order. *)
Definition transactions (tr : list (call * bool)) : list call :=
  map fst (filter (fun ev => is_transaction (fst ev)) tr).

(** The corrective methods called on the mutable mesh, in order, each with
    whether it returned. *)
Definition method_events (tr : list (call * bool)) : list (string * bool) :=
  flat_map (fun ev => match fst ev with
                      | Method name _ _ => [(name, snd ev)]
                      | _ => []
                      end) tr.

(** The calls that can change the document. *)
Definition is_write (c : call) : bool :=
  match c with
  | SetMesh _ _ | Recompute | AddObject _ _ | RemoveObject _
  | SetShape _ _ | PurgeTouched _ | SetSource _ _ | SetVisibility _ _
  | SetBaseFeature _ _ => true
  | _ => false
  end.

Definition writes (tr : list (call * bool)) : list call :=
  map fst (filter (fun ev => is_write (fst ev)) tr).

(** Name and type of every object of a document, in order. *)
Definition label (o : docobj) : string * string := (Name o, TypeId o).

Definition labels (s : state) : option (list (string * string)) :=
  option_map (map label) (ActiveDocument s).

(** The mesh a handle holds, when its object is in the document. *)
Definition mesh_of (obj : string) (s : state) : option mesh :=
  match object_of obj s with
  | Some o => Mesh o
  | None => None
  end.

(** Line 393 read off the document: the object exists and is mesh-typed. *)
Definition still_a_mesh (original_name : string) (s : state) : bool :=
  match object_of original_name s with
  | Some o => String.eqb (TypeId o) "Mesh::Feature"
  | None => false
  end.

(** The pipeline of the repair function: each method with the label it
    appends to [repairs_applied], in the order of the source. *)
Definition pipeline : list (string * string) :=
  [ ("fixSelfIntersections", "Fix self-intersections (priority)");
    ("harmonizeNormals",
     "Harmonize Normals (after self-intersection fix)") ]%string
  ++ repair_methods
  ++ [ ("fillupHoles", "Fill small holes") ]%string.

Definition label_of (method_name : string) : string :=
  match find (fun p => String.eqb (fst p) method_name) pipeline with
  | Some p => snd p
  | None => ""%string
  end.

(** The message printed when a method raises. *)
Definition failure_message (method_name : string) : message :=
  if String.eqb method_name "fixSelfIntersections"
     || String.eqb method_name "harmonizeNormals"
  then Message "Fix self-intersections (priority pass) failed"
  else Message (String.append (label_of method_name) " failed").

(** The labels of the methods that returned. *)
Definition applied_labels (evs : list (string * bool)) : list string :=
  map (fun ev => label_of (fst ev)) (filter snd evs).

(** What the properties of the document ask of the host: recomputing
    neither renames nor retypes an object and leaves an object that holds
    a mesh as it is; a new object gets an unused name, the requested one
    when it is free. *)
Record HostLaws : Prop := {
  recompute_labels :
    forall objs, map label (recompute H objs) = map label objs;
  recompute_meshes :
    forall objs name o,
      lookup name objs = Some o -> has_Mesh o = true ->
      lookup name (recompute H objs) = Some o;
  uniqueName_fresh :
    forall used name, ~ In (uniqueName H used name) used;
  uniqueName_free :
    forall used name, ~ In name used -> uniqueName H used name = name
}.

End Script.

(** ** A small host to run the script on

    Meshes carry their counts and the three verdicts of the kernel; a
    shape is its number of faces, [0] for the null shape.  Recomputing
    gives a [Part::Refine] object the shape of its source. *)

Module Workbench.

Record tri_mesh : Type := {
  points : nat;
  facets : nat;
  closed : bool;
  non_manifold : bool;
  self_intersecting : bool
}.

Definition brep : Type := nat.

Definition wb_state : Type := @state tri_mesh brep.
Definition wb_call : Type := @call tri_mesh brep.
Definition wb_obj : Type := @docobj tri_mesh brep.

(** [fixSelfIntersections] and [removeNonManifolds] mend the mesh when
    [mends] holds; the other methods leave it as it is. *)
Definition wb_method (mends : bool) (name : string) (args : list Z)
  (m : tri_mesh) : tri_mesh :=
  if mends && String.eqb name "fixSelfIntersections" then
    {| points := points m; facets := facets m; closed := closed m;
       non_manifold := non_manifold m; self_intersecting := false |}
  else if mends && String.eqb name "removeNonManifolds" then
    {| points := points m; facets := facets m; closed := closed m;
       non_manifold := false; self_intersecting := self_intersecting m |}
  else m.

Definition refresh (objs : list wb_obj) (o : wb_obj) : wb_obj :=
  match Mesh o, Source o with
  | None, Some src =>
      if String.eqb (TypeId o) "Part::Refine" then
        match lookup src objs with
        | Some from => with_Shape (Shape from) o
        | None => o
        end
      else o
  | _, _ => o
  end.

Definition wb_recompute (objs : list wb_obj) : list wb_obj :=
  map (refresh objs) objs.

(** The requested name when it is free, else a longer one than any in
    use. *)
Definition wb_uniqueName (used : list string) (name : string) : string :=
  if existsb (String.eqb name) used
  then String.append name (String.append "_" (String.concat "" used))
  else name.

Definition workbench (mends : bool) (oracle : wb_state -> wb_call -> bool)
  : @Host tri_mesh brep :=
  {| isSolid := closed;
     hasNonManifolds := non_manifold;
     hasSelfIntersections := self_intersecting;
     CountPoints := points;
     CountFacets := facets;
     hasattr := fun _ => true;
     method := wb_method mends;
     interrupted := fun _ _ m => m;
     nullShape := 0;
     truthy := fun _ => true;
     makeShapeFromMesh := fun m _ _ => facets m;
     Faces := fun sh => repeat 1 sh;
     Shell := fun faces => length faces;
     Solid := fun sh => sh;
     isValid := fun sh => Nat.ltb 0 sh;
     recompute := wb_recompute;
     uniqueName := wb_uniqueName;
     raises := oracle |}.

Definition never : wb_state -> wb_call -> bool := fun _ _ => false.

(** A host on which recomputing raises once the document holds a body. *)
Definition body_breaks_recompute : wb_state -> wb_call -> bool :=
  fun s c =>
    match c, ActiveDocument s with
    | Recompute, Some objs =>
        existsb (fun o => String.eqb (TypeId o) "PartDesign::Body") objs
    | _, _ => false
    end.

(** A host on which [getObject] raises. *)
Definition reads_fail : wb_state -> wb_call -> bool :=
  fun _ c =>
    match c with
    | GetObject _ => true
    | _ => false
    end.

Definition mesh_feature (name : string) (m : tri_mesh) : wb_obj :=
  {| Name := name; TypeId := "Mesh::Feature"; Mesh := Some m; Shape := 0;
     Source := None; BaseFeature := None; Visibility := true |}.

Definition document (objs : list wb_obj) : wb_state :=
  {| ActiveDocument := Some objs; trace := []; console := [];
     locals := empty_frame |}.

Definition no_document : wb_state :=
  {| ActiveDocument := None; trace := []; console := [];
     locals := empty_frame |}.

(** A cube: solid, nothing to repair. *)
Definition cube : tri_mesh :=
  {| points := 8; facets := 12; closed := true; non_manifold := false;
     self_intersecting := false |}.

(** A solid mesh in which one pair of facets cross. *)
Definition crossed : tri_mesh :=
  {| points := 8; facets := 12; closed := true; non_manifold := false;
     self_intersecting := true |}.

(** A mesh with a hole. *)
Definition open_box : tri_mesh :=
  {| points := 8; facets := 10; closed := false; non_manifold := false;
     self_intersecting := false |}.

(** A mesh without facets: it has no border edge, so the kernel's test for
    solidity (no edge on the border) succeeds. *)
Definition no_facets : tri_mesh :=
  {| points := 0; facets := 0; closed := true; non_manifold := false;
     self_intersecting := false |}.

End Workbench.

(** * Properties *)

Section Properties.

Context {mesh shape : Type}.
Variable H : @Host mesh shape.

Local Abbreviation state := (@state mesh shape).
Local Abbreviation call := (@call mesh shape).
Local Abbreviation exn := (@exn mesh shape).
Local Abbreviation docobj := (@docobj mesh shape).
Local Abbreviation comp A := (state -> result state exn A).

(** ** Triples: what a computation establishes, on return and on raise *)

Definition spec {A : Type} (c : comp A) (s : state)
  (Q : A -> state -> Prop) (E : exn -> state -> Prop) : Prop :=
  match c s with
  | Ok a s' => Q a s'
  | Raise e s' => E e s'
  end.

(** [preserves P c]: [P] holds after [c], however it ends. *)
Definition preserves {A : Type} (P : state -> Prop) (c : comp A) : Prop :=
  forall s, P s -> spec c s (fun _ => P) (fun _ => P).

Lemma spec_ok {A : Type} (c : comp A) s Q E a s' :
  c s = Ok a s' -> spec c s Q E -> Q a s'.
Proof. unfold spec. intros ->. auto. Qed.

Lemma spec_raised {A : Type} (c : comp A) s Q E e s' :
  c s = Raise e s' -> spec c s Q E -> E e s'.
Proof. unfold spec. intros ->. auto. Qed.

Lemma spec_weaken {A : Type} (c : comp A) s (Q Q' : A -> state -> Prop)
  (E E' : exn -> state -> Prop) :
  spec c s Q E ->
  (forall a s', Q a s' -> Q' a s') ->
  (forall e s', E e s' -> E' e s') ->
  spec c s Q' E'.
Proof. unfold spec. destruct (c s); auto. Qed.

Lemma spec_bind {A B : Type} (c : comp A) (k : A -> comp B) s Q E :
  spec c s (fun a s1 => spec (k a) s1 Q E) E ->
  spec (bind c k) s Q E.
Proof. unfold spec, bind. destruct (c s); auto. Qed.

Lemma spec_try {A : Type} (c : comp A) (h : exn -> comp A) s Q E :
  spec c s Q (fun e s1 => spec (h e) s1 Q E) ->
  spec (try_except c h) s Q E.
Proof. unfold spec, try_except. destruct (c s); auto. Qed.

Lemma preserves_ret {A : Type} P (a : A) : preserves P (ret a).
Proof. intros s Hs. exact Hs. Qed.

Lemma preserves_raise {A : Type} P (e : exn) :
  preserves P (raise e : comp A).
Proof. intros s Hs. exact Hs. Qed.

Lemma preserves_bind {A B : Type} P (c : comp A) (k : A -> comp B) :
  preserves P c -> (forall a, preserves P (k a)) -> preserves P (bind c k).
Proof.
  intros Hc Hk s Hs. apply spec_bind.
  eapply spec_weaken; [apply (Hc s Hs) | | auto].
  intros a s' Hs'. apply (Hk a s' Hs').
Qed.

Lemma preserves_try {A : Type} P (c : comp A) (h : exn -> comp A) :
  preserves P c -> (forall e, preserves P (h e)) ->
  preserves P (try_except c h).
Proof.
  intros Hc Hh s Hs. apply spec_try.
  eapply spec_weaken; [apply (Hc s Hs) | auto | ].
  intros e s' Hs'. apply (Hh e s' Hs').
Qed.

Lemma preserves_when P (b : bool) (c : comp unit) :
  preserves P c -> preserves P (when b c).
Proof. destruct b; simpl; auto using preserves_ret. Qed.

Lemma preserves_for_each {A : Type} P (l : list A) (body : A -> comp unit) :
  (forall x, preserves P (body x)) -> preserves P (for_each l body).
Proof.
  intros Hb. induction l as [|x l IH]; simpl.
  - apply preserves_ret.
  - apply preserves_bind; auto.
Qed.

(** A host call preserves what survives the entry in the trace and the
    effect of the call. *)
Lemma preserves_host {A : Type} (P : state -> Prop) (c : call)
  (sem : state -> option (A * state)) :
  (forall b s, P s -> P (logged c b s)) ->
  (forall s a s1, sem s = Some (a, s1) -> P s -> P s1) ->
  preserves P (host H c sem).
Proof.
  intros Hlog Hsem s Hs. unfold spec, host.
  destruct (raises H s c); [auto|].
  destruct (sem s) as [[a s1]|] eqn:E; [|auto].
  apply Hlog. eapply Hsem; eauto.
Qed.

(** ** Primitive computations *)

Lemma preserves_PrintMessage P text :
  (forall m s, P s -> P (printed m s)) -> preserves P (PrintMessage text).
Proof. intros HP s Hs. apply HP, Hs. Qed.

Lemma preserves_PrintError P text :
  (forall m s, P s -> P (printed m s)) -> preserves P (PrintError text).
Proof. intros HP s Hs. apply HP, Hs. Qed.

Lemma preserves_transaction P (c : call) :
  (forall b s, P s -> P (logged c b s)) -> preserves P (transaction c).
Proof. intros HP s Hs. apply HP, Hs. Qed.

Lemma preserves_read {A : Type} P (f : state -> A) :
  preserves P (fun s => Ok (f s) s).
Proof. intros s Hs. exact Hs. Qed.

Lemma preserves_the_mutable_mesh P : preserves P the_mutable_mesh.
Proof.
  intros s Hs. unfold spec, the_mutable_mesh.
  destruct (mutable_mesh (locals s)); exact Hs.
Qed.

(** The operations on the frame, each with the frame it leaves. *)

Lemma preserves_bind_mutable_mesh (P : state -> Prop) m :
  (forall s, P s -> P (set_locals
     {| mutable_mesh := Some m;
        repairs_applied := repairs_applied (locals s);
        self_intersections_fixed_on_mutable :=
          self_intersections_fixed_on_mutable (locals s);
        initial_has_self_intersections :=
          initial_has_self_intersections (locals s) |} s)) ->
  preserves P (bind_mutable_mesh m).
Proof. intros HP s Hs. apply HP, Hs. Qed.

Lemma preserves_set_repairs_applied (P : state -> Prop) l :
  (forall s, P s -> P (set_locals
     {| mutable_mesh := mutable_mesh (locals s);
        repairs_applied := l;
        self_intersections_fixed_on_mutable :=
          self_intersections_fixed_on_mutable (locals s);
        initial_has_self_intersections :=
          initial_has_self_intersections (locals s) |} s)) ->
  preserves P (set_repairs_applied l).
Proof. intros HP s Hs. apply HP, Hs. Qed.

Lemma preserves_repairs_applied_append (P : state -> Prop) d :
  (forall s, P s -> P (set_locals
     {| mutable_mesh := mutable_mesh (locals s);
        repairs_applied := repairs_applied (locals s) ++ [d];
        self_intersections_fixed_on_mutable :=
          self_intersections_fixed_on_mutable (locals s);
        initial_has_self_intersections :=
          initial_has_self_intersections (locals s) |} s)) ->
  preserves P (repairs_applied_append d).
Proof. intros HP s Hs. apply HP, Hs. Qed.

Lemma preserves_set_fixed (P : state -> Prop) b :
  (forall s, P s -> P (set_locals
     {| mutable_mesh := mutable_mesh (locals s);
        repairs_applied := repairs_applied (locals s);
        self_intersections_fixed_on_mutable := b;
        initial_has_self_intersections :=
          initial_has_self_intersections (locals s) |} s)) ->
  preserves P (set_self_intersections_fixed_on_mutable b).
Proof. intros HP s Hs. apply HP, Hs. Qed.

Lemma preserves_set_initial (P : state -> Prop) b :
  (forall s, P s -> P (set_locals
     {| mutable_mesh := mutable_mesh (locals s);
        repairs_applied := repairs_applied (locals s);
        self_intersections_fixed_on_mutable :=
          self_intersections_fixed_on_mutable (locals s);
        initial_has_self_intersections := Some b |} s)) ->
  preserves P (set_initial_has_self_intersections b).
Proof. intros HP s Hs. apply HP, Hs. Qed.

Lemma preserves_enter_frame (P : state -> Prop) :
  (forall s, P s -> P (set_locals empty_frame s)) ->
  preserves P enter_frame.
Proof. intros HP s Hs. apply HP, Hs. Qed.

Lemma preserves_call_method (P : state -> Prop) name args :
  (forall m b s, P s -> P (logged (Method name args m) b s)) ->
  (forall m s, P s -> P (set_locals
     {| mutable_mesh := Some m;
        repairs_applied := repairs_applied (locals s);
        self_intersections_fixed_on_mutable :=
          self_intersections_fixed_on_mutable (locals s);
        initial_has_self_intersections :=
          initial_has_self_intersections (locals s) |} s)) ->
  preserves P (call_method H name args).
Proof.
  intros Hlog Hloc s Hs. unfold spec, call_method.
  destruct (mutable_mesh (locals s)) as [m|]; [|exact Hs].
  destruct (raises H s (Method name args m)); simpl;
    apply (Hloc _ (logged _ _ s)), Hlog, Hs.
Qed.

(** What a host call's own effect can be: nothing, or a new document. *)
Lemma assign_effect obj (f : docobj -> docobj) (s : state) a s1 :
  assign obj f s = Some (a, s1) ->
  exists objs, ActiveDocument s = Some objs /\ lookup obj objs <> None
               /\ s1 = set_document (Some (update obj f objs)) s.
Proof.
  unfold assign. destruct (ActiveDocument s) as [objs|]; [|discriminate].
  destruct (lookup obj objs) eqn:E; [|discriminate].
  intros [= <- <-]. exists objs. rewrite E. repeat split. discriminate.
Qed.

(** ** Invariants of a run *)

(** The transaction calls made so far. *)
Definition txn_is (T : list call) (s : state) : Prop :=
  transactions (trace s) = T.

(** The document-changing calls made so far. *)
Definition writes_are (W : list call) (s : state) : Prop :=
  writes (trace s) = W.

(** The document. *)
Definition doc_is (D : option (list docobj)) (s : state) : Prop :=
  ActiveDocument s = D.

(** The two flags of the repair function's frame. *)
Definition on_flags (R : bool -> option bool -> Prop) (s : state) : Prop :=
  R (self_intersections_fixed_on_mutable (locals s))
    (initial_has_self_intersections (locals s)).

(** Any property of the frame. *)
Definition on_frame (R : frame -> Prop) (s : state) : Prop := R (locals s).

Lemma transactions_app (tr1 tr2 : list (call * bool)) :
  transactions (tr1 ++ tr2) = transactions tr1 ++ transactions tr2.
Proof. unfold transactions. now rewrite filter_app, map_app. Qed.

Lemma writes_app (tr1 tr2 : list (call * bool)) :
  writes (tr1 ++ tr2) = writes tr1 ++ writes tr2.
Proof. unfold writes. now rewrite filter_app, map_app. Qed.

Lemma method_events_app (tr1 tr2 : list (call * bool)) :
  method_events (tr1 ++ tr2) = method_events tr1 ++ method_events tr2.
Proof. unfold method_events. apply flat_map_app. Qed.

(** The effect of any of the script's host calls, by cases. *)
Ltac sem_cases :=
  intros;
  repeat match goal with
  | Hs : assign _ _ _ = Some _ |- _ =>
      apply assign_effect in Hs; destruct Hs as (? & ? & ? & ->)
  | Hs : match ?x with _ => _ end = Some _ |- _ =>
      destruct x eqn:?; try discriminate Hs
  | Hs : Some _ = Some _ |- _ => injection Hs as <- <-
  end.

(** The conditions at the leaves, for the invariants above. *)
Ltac side :=
  sem_cases;
  unfold txn_is, writes_are, doc_is, on_flags, on_frame in *;
  simpl in *;
  rewrite ?transactions_app, ?writes_app; simpl;
  rewrite ?app_nil_r;
  solve [ assumption | congruence | discriminate ].

Ltac txn_side := side.

(** Structural descent through a computation: [known] closes the calls of
    functions already dealt with, [side] the conditions at the leaves. *)
Ltac preserving known side :=
  repeat first
    [ known
    | apply preserves_ret
    | apply preserves_raise
    | apply preserves_read
    | apply preserves_the_mutable_mesh
    | apply preserves_bind; [ | intros ]
    | apply preserves_try; [ | intros ]
    | apply preserves_when
    | apply preserves_for_each; intros
    | apply preserves_PrintMessage; side
    | apply preserves_PrintError; side
    | apply preserves_bind_mutable_mesh; side
    | apply preserves_set_repairs_applied; side
    | apply preserves_repairs_applied_append; side
    | apply preserves_set_fixed; side
    | apply preserves_set_initial; side
    | apply preserves_enter_frame; side
    | apply preserves_call_method; [ side | side ]
    | apply preserves_host; [ side | side ]
    | match goal with
      | |- preserves _ (if ?b then _ else _) => destruct b
      | |- preserves _ (match ?x with _ => _ end) => destruct x
      | |- preserves _ (let (_, _) := ?x in _) => destruct x
      end ].

Lemma txn_diagnostic T : preserves (txn_is T) (diagnostic H).
Proof.
  unfold diagnostic, mesh_isSolid, mesh_CountPoints, mesh_CountFacets, query.
  preserving fail txn_side.
Qed.

Ltac unfold_host_calls :=
  unfold get_Mesh, set_Mesh, get_Topology, new_Mesh, doc_recompute,
    addObject, removeObject, getObject, mesh_isSolid, mesh_hasNonManifolds,
    mesh_hasSelfIntersections, mesh_CountPoints, mesh_CountFacets,
    mesh_Volume, mesh_Area, query, new_Shape, shape_makeShapeFromMesh,
    get_Shape, set_Shape, purgeTouched, shape_Faces, new_Shell, new_Solid,
    shape_isValid, set_Source, set_Visibility, set_BaseFeature,
    openTransaction, commitTransaction, abortTransaction.

Lemma txn_repair T mesh_obj :
  preserves (txn_is T) (attempt_comprehensive_manual_repair H mesh_obj).
Proof.
  unfold attempt_comprehensive_manual_repair, repair_body, repair_passes,
    priority_pass, general_repair, fill_small_holes, write_back_and_check,
    diagnostic.
  unfold_host_calls.
  preserving fail txn_side.
Qed.

Lemma txn_evaluate T selected_mesh :
  preserves (txn_is T) (evaluate_mesh_automated H selected_mesh).
Proof.
  unfold evaluate_mesh_automated, evaluation_queries, evaluation_decision,
    attempt_mesh_repair.
  unfold_host_calls.
  preserving ltac:(apply txn_repair) txn_side.
Qed.

Lemma txn_existing_objects T names :
  preserves (txn_is T) (existing_objects H names).
Proof.
  induction names as [|name rest IH]; simpl.
  - apply preserves_ret.
  - unfold_host_calls. preserving ltac:(exact IH) txn_side.
Qed.

(** With the caller owning the transaction, converting one mesh makes no
    transaction call. *)
Lemma txn_convert_single_mesh T mesh_obj :
  preserves (txn_is T) (convert_single_mesh H mesh_obj true).
Proof.
  unfold convert_single_mesh, evaluation_gate, conversion,
    build_intermediates, refined_is_valid, create_body, cleanup_on_error.
  simpl negb. unfold when.
  unfold_host_calls.
  preserving
    ltac:(first [ apply txn_evaluate | apply txn_existing_objects ])
    txn_side.
Qed.

Lemma txn_process_mesh T r mesh_obj :
  preserves (txn_is T) (process_mesh H r mesh_obj).
Proof.
  unfold process_mesh, original_is_still_a_mesh.
  unfold_host_calls.
  preserving ltac:(apply txn_convert_single_mesh) txn_side.
Qed.

Lemma txn_process_all T mesh_objects :
  forall r, preserves (txn_is T) (process_all H mesh_objects r).
Proof.
  induction mesh_objects as [|x rest IH]; intros r; simpl.
  - apply preserves_ret.
  - apply preserves_bind; [apply txn_process_mesh | intros; apply IH].
Qed.

(** ** Stepping through a computation *)

Lemma spec_intro_ok {A : Type} (c : comp A) s a s1
  (Q : A -> state -> Prop) (E : exn -> state -> Prop) :
  c s = Ok a s1 -> Q a s1 -> spec c s Q E.
Proof. unfold spec. intros ->. auto. Qed.

Lemma spec_intro_raise {A : Type} (c : comp A) s e s1
  (Q : A -> state -> Prop) (E : exn -> state -> Prop) :
  c s = Raise e s1 -> E e s1 -> spec c s Q E.
Proof. unfold spec. intros ->. auto. Qed.

Lemma spec_host {A : Type} (c : call) (sem : state -> option (A * state)) s
  (Q : A -> state -> Prop) (E : exn -> state -> Prop) :
  E (HostError c) (logged c false s) ->
  (forall a s1, raises H s c = false -> sem s = Some (a, s1) ->
                Q a (logged c true s1)) ->
  spec (host H c sem) s Q E.
Proof.
  intros HE HQ. unfold spec, host.
  destruct (raises H s c) eqn:R; [exact HE|].
  destruct (sem s) as [[a s1]|] eqn:S; [|exact HE].
  apply HQ; auto.
Qed.

Lemma spec_the_mutable_mesh s m (Q : mesh -> state -> Prop)
  (E : exn -> state -> Prop) :
  mutable_mesh (locals s) = Some m -> Q m s -> spec the_mutable_mesh s Q E.
Proof. unfold spec, the_mutable_mesh. intros ->. auto. Qed.

Lemma spec_preserved {A : Type} (P : state -> Prop) (c : comp A) s
  (Q : A -> state -> Prop) (E : exn -> state -> Prop) :
  preserves P c -> P s ->
  (forall a s', P s' -> Q a s') -> (forall e s', P s' -> E e s') ->
  spec c s Q E.
Proof. intros Hc Hs HQ HE. eapply spec_weaken; [apply (Hc s Hs) | | ]; auto. Qed.

(** ** The self-intersections-fixed flag *)

(** The flag is set only after the first check found self-intersections,
    and that check was made on the mesh [known] of the object. *)
Definition flag_rule (known : option mesh) (fixed : bool)
  (initial : option bool) : Prop :=
  (fixed = true -> initial = Some true) /\
  (initial = Some true ->
   exists m, known = Some m /\ hasSelfIntersections H m = true).

Lemma flags_diagnostic R : preserves (on_frame R) (diagnostic H).
Proof.
  unfold diagnostic. unfold_host_calls. preserving fail side.
Qed.

(** Lines 61-93 leave both flags as they are. *)
Lemma flags_general_repairs R :
  preserves (on_flags R) (for_each repair_methods (general_repair H)).
Proof.
  unfold general_repair, diagnostic. unfold_host_calls.
  preserving fail side.
Qed.

Lemma flags_fill_small_holes R : preserves (on_flags R) (fill_small_holes H).
Proof.
  unfold fill_small_holes, diagnostic. unfold_host_calls.
  preserving fail side.
Qed.

Lemma flags_write_back R mesh_obj initial :
  preserves (on_flags R) (write_back_and_check H mesh_obj initial).
Proof.
  unfold write_back_and_check. unfold_host_calls. preserving fail side.
Qed.

(** The priority pass changes the first flag only. *)
Lemma initial_priority_pass i :
  preserves (on_flags (fun _ initial => initial = i)) (priority_pass H).
Proof.
  unfold priority_pass, diagnostic. unfold_host_calls.
  preserving fail side.
Qed.

Lemma flags_repair_passes m0 s :
  mutable_mesh (locals s) = Some m0 ->
  initial_has_self_intersections (locals s) = None ->
  spec (repair_passes H) s
    (fun initial s' => on_flags (flag_rule (Some m0)) s'
                       /\ initial_has_self_intersections (locals s')
                          = Some initial)
    (fun _ => on_flags (flag_rule (Some m0))).
Proof.
  intros Hm Hi. unfold repair_passes.
  apply spec_bind. eapply spec_intro_ok; [reflexivity|].
  apply spec_bind. eapply spec_intro_ok; [reflexivity|].
  set (R0 := fun f : frame =>
               mutable_mesh f = Some m0
               /\ self_intersections_fixed_on_mutable f = false
               /\ initial_has_self_intersections f = None).
  assert (R0rule : forall s', on_frame R0 s' ->
                              on_flags (flag_rule (Some m0)) s').
  { intros s' (_ & Hf & Hi'). unfold on_flags, flag_rule.
    rewrite Hf, Hi'. split; congruence. }
  apply spec_bind. apply spec_preserved with (P := on_frame R0).
  - apply flags_diagnostic.
  - unfold on_frame, R0; simpl; auto.
  - intros _ s1 H1.
    apply spec_bind. apply spec_the_mutable_mesh with (m := m0);
      [apply H1|].
    apply spec_bind. unfold mesh_hasSelfIntersections, query.
    apply spec_host; [apply R0rule, H1|].
    intros a s2 _ [= <- <-].
    apply spec_bind. eapply spec_intro_ok; [reflexivity|].
    assert (Hrule : forall b s',
              hasSelfIntersections H m0 = b ->
              on_flags (fun f i => (b = false -> f = false) /\ i = Some b) s'
              -> on_flags (flag_rule (Some m0)) s'
                 /\ initial_has_self_intersections (locals s') = Some b).
    { unfold on_flags, flag_rule. intros b s' Hb [Hf Hi'].
      rewrite Hi'. repeat split.
      - intros Hfix. destruct b; [reflexivity|].
        rewrite (Hf eq_refl) in Hfix. discriminate.
      - intros [= <-]. eauto. }
    set (P := on_flags (fun f i =>
                (hasSelfIntersections H m0 = false -> f = false)
                /\ i = Some (hasSelfIntersections H m0))).
    assert (HP : forall s', P s' ->
              on_flags (flag_rule (Some m0)) s'
              /\ initial_has_self_intersections (locals s')
                 = Some (hasSelfIntersections H m0)).
    { intros s' Hs'. apply Hrule; [reflexivity | exact Hs']. }
    assert (Hwhen : preserves P
              (when (hasSelfIntersections H m0) (priority_pass H))).
    { unfold P. destruct (hasSelfIntersections H m0); simpl.
      - intros s' [_ Hs'].
        apply spec_preserved
          with (P := on_flags (fun _ i => i = Some true)).
        + apply initial_priority_pass.
        + exact Hs'.
        + unfold on_flags; intros; split; [discriminate | assumption].
        + unfold on_flags; intros; split; [discriminate | assumption].
      - apply preserves_ret. }
    apply spec_bind, spec_preserved with (P := P); [exact Hwhen | | | ].
    + unfold P, on_flags. simpl. split; [intros _; apply H1 | reflexivity].
    + intros _ s3 H3.
      apply spec_bind, spec_preserved with (P := P);
        [apply flags_general_repairs | exact H3 | | ].
      * intros _ s4 H4.
        apply spec_bind, spec_preserved with (P := P);
          [apply flags_fill_small_holes | exact H4 | | ].
        -- intros _ s5 H5. apply HP, H5.
        -- intros e s5 H5. apply HP, H5.
      * intros e s4 H4. apply HP, H4.
    + intros e s3 H3. apply HP, H3.
  - intros e s1 H1. apply R0rule, H1.
Qed.

Lemma mesh_of_set_locals obj f (s : state) :
  mesh_of obj (set_locals f s) = mesh_of obj s.
Proof. reflexivity. Qed.

Lemma flags_repair mesh_obj s :
  spec (attempt_comprehensive_manual_repair H mesh_obj) s
    (fun _ => on_flags (flag_rule (mesh_of mesh_obj s)))
    (fun _ _ => False).
Proof.
  unfold attempt_comprehensive_manual_repair.
  apply spec_bind. eapply spec_intro_ok; [reflexivity|].
  set (s0 := set_locals empty_frame s).
  assert (Hempty : forall s1,
            self_intersections_fixed_on_mutable (locals s1) = false ->
            initial_has_self_intersections (locals s1) = None ->
            on_flags (flag_rule (mesh_of mesh_obj s)) s1).
  { unfold on_flags, flag_rule. intros s1 -> ->. split; discriminate. }
  apply spec_try. unfold repair_body.
  apply spec_bind. unfold get_Mesh. apply spec_host.
  { eapply spec_intro_ok; [reflexivity|]. now apply Hempty. }
  intros m0 s1 _ Hsem.
  assert (Hm0 : mesh_of mesh_obj s = Some m0 /\ s1 = s0).
  { change (mesh_of mesh_obj s) with (mesh_of mesh_obj s0).
    unfold mesh_of. destruct (object_of mesh_obj s0) as [o|];
      [|discriminate].
    destruct (Mesh o); [|discriminate]. now injection Hsem as <- <-. }
  destruct Hm0 as [Hknown ->]. rewrite Hknown. clear Hsem.
  apply spec_bind. unfold get_Topology. apply spec_host.
  { eapply spec_intro_ok; [reflexivity|]. rewrite <- Hknown.
    now apply Hempty. }
  intros ? ? _ [= <- <-].
  apply spec_bind. unfold new_Mesh. apply spec_host.
  { eapply spec_intro_ok; [reflexivity|]. rewrite <- Hknown.
    now apply Hempty. }
  intros ? ? _ [= <- <-].
  apply spec_bind. eapply spec_intro_ok; [reflexivity|].
  apply spec_bind. eapply spec_intro_ok; [reflexivity|].
  apply spec_bind.
  eapply spec_weaken; [apply (@flags_repair_passes m0); reflexivity | | ].
  - intros initial s2 [H2 _].
    apply spec_bind. eapply spec_intro_ok; [reflexivity|].
    destruct (repairs_applied (locals s2)).
    + eapply spec_intro_ok; [reflexivity|]. exact H2.
    + apply spec_preserved with (P := on_flags (flag_rule (Some m0)));
        [apply flags_write_back | exact H2 | auto | ].
      intros e s3 H3. eapply spec_intro_ok; [reflexivity|]. exact H3.
  - intros e s2 H2. eapply spec_intro_ok; [reflexivity|]. exact H2.
Qed.

(** C9.  In a run of [attempt_comprehensive_manual_repair], the
    self-intersections-fixed flag is true only if the first check of the
    copy found self-intersections; so when [hasSelfIntersections] was
    false at the start, the flag is false when the run ends. *)
Theorem fixed_flag_only_after_initial_self_intersections
  mesh_obj s b s' :
  attempt_comprehensive_manual_repair H mesh_obj s = Ok b s' ->
  self_intersections_fixed_on_mutable (locals s') = true ->
  initial_has_self_intersections (locals s') = Some true
  /\ exists m, mesh_of mesh_obj s = Some m
               /\ hasSelfIntersections H m = true.
Proof.
  intros Hrun Hfixed.
  pose proof (spec_ok _ _ _ _ Hrun (flags_repair mesh_obj s)) as [H1 H2].
  split; auto.
Qed.

(** ** The order of the passes *)

(** What the passes have done since the state [s0], where [names] are the
    methods called on the copy, in order. *)
Record progress (s0 : state) (names : list string) (s : state) : Prop := {
  pr_document : ActiveDocument s = ActiveDocument s0;
  pr_writes : writes (trace s) = writes (trace s0);
  pr_flags : initial_has_self_intersections (locals s)
             = initial_has_self_intersections (locals s0);
  pr_copy : mutable_mesh (locals s) <> None;
  pr_events :
    exists evs,
      map fst evs = names
      /\ method_events (trace s) = method_events (trace s0) ++ evs
      /\ repairs_applied (locals s)
         = repairs_applied (locals s0) ++ applied_labels evs
      /\ forall n, In (n, false) evs -> In (failure_message n) (console s)
}.

Lemma progress_start s : mutable_mesh (locals s) <> None -> progress s [] s.
Proof.
  intros Hm. split; auto. exists []. simpl.
  rewrite !app_nil_r. repeat split; auto. intros n [].
Qed.

Lemma progress_logged s0 names (c : call) b s :
  is_write c = false -> (forall n a m, c <> Method n a m) ->
  progress s0 names s -> progress s0 names (logged c b s).
Proof.
  intros Hw Hc [Hd Hwr Hf Hm (evs & He1 & He2 & He3 & He4)].
  split; simpl; auto.
  - rewrite writes_app. unfold writes at 2. simpl. rewrite Hw. simpl.
    now rewrite app_nil_r.
  - exists evs. repeat split; auto.
    rewrite method_events_app, He2.
    destruct c; simpl; try now rewrite app_nil_r.
    now contradiction (Hc name args m).
Qed.

Lemma progress_printed s0 names m s :
  progress s0 names s -> progress s0 names (printed m s).
Proof.
  intros [Hd Hwr Hf Hm (evs & He1 & He2 & He3 & He4)].
  split; simpl; auto.
  exists evs. repeat split; auto.
  intros n Hn. apply in_or_app. left. auto.
Qed.

Lemma progress_diagnostic s0 names :
  preserves (progress s0 names) (diagnostic H).
Proof.
  unfold diagnostic. unfold_host_calls.
  preserving fail
    ltac:(first
      [ solve [ intros; apply progress_printed; assumption ]
      | solve [ intros; apply progress_logged;
                [ reflexivity | discriminate | assumption ] ]
      | solve [ sem_cases; assumption ] ]).
Qed.

Lemma applied_labels_snoc evs name b :
  applied_labels (evs ++ [(name, b)])
  = applied_labels evs ++ (if b then [label_of name] else []).
Proof.
  unfold applied_labels. rewrite filter_app, map_app. simpl.
  now destruct b.
Qed.

(** A method that returned, and its label appended. *)
Lemma progress_applied s0 names name args m s :
  progress s0 names s ->
  progress s0 (names ++ [name])
    (set_locals
       {| mutable_mesh := Some (method H name args m);
          repairs_applied :=
            repairs_applied (locals s) ++ [label_of name];
          self_intersections_fixed_on_mutable :=
            self_intersections_fixed_on_mutable (locals s);
          initial_has_self_intersections :=
            initial_has_self_intersections (locals s) |}
       (logged (Method name args m) true s)).
Proof.
  intros [Hd Hwr Hf Hm (evs & He1 & He2 & He3 & He4)].
  split; simpl; auto.
  - rewrite writes_app. simpl. now rewrite app_nil_r.
  - discriminate.
  - exists (evs ++ [(name, true)]). repeat split.
    + rewrite map_app, He1. reflexivity.
    + rewrite method_events_app, He2. simpl. now rewrite app_assoc.
    + rewrite applied_labels_snoc, He3. now rewrite app_assoc.
    + intros n Hn. apply in_app_or in Hn as [Hn|[[=]|[]]]. auto.
Qed.

(** A method that raised, and the message of the [except] clause. *)
Lemma progress_raised s0 names name args m s :
  progress s0 names s ->
  progress s0 (names ++ [name])
    (printed (failure_message name)
       (set_locals
          {| mutable_mesh := Some (interrupted H name args m);
             repairs_applied := repairs_applied (locals s);
             self_intersections_fixed_on_mutable :=
               self_intersections_fixed_on_mutable (locals s);
             initial_has_self_intersections :=
               initial_has_self_intersections (locals s) |}
          (logged (Method name args m) false s))).
Proof.
  intros [Hd Hwr Hf Hm (evs & He1 & He2 & He3 & He4)].
  split; simpl; auto.
  - rewrite writes_app. simpl. now rewrite app_nil_r.
  - discriminate.
  - exists (evs ++ [(name, false)]). repeat split.
    + rewrite map_app, He1. reflexivity.
    + rewrite method_events_app, He2. simpl. now rewrite app_assoc.
    + rewrite applied_labels_snoc, He3. now rewrite app_nil_r.
    + intros n Hn. apply in_or_app.
      apply in_app_or in Hn as [Hn|[[= ->]|[]]]; [left; auto|].
      right. left. reflexivity.
Qed.

Lemma spec_call_method name args s m (Q : unit -> state -> Prop)
  (E : exn -> state -> Prop) :
  mutable_mesh (locals s) = Some m ->
  E (HostError (Method name args m))
    (set_locals
       {| mutable_mesh := Some (interrupted H name args m);
          repairs_applied := repairs_applied (locals s);
          self_intersections_fixed_on_mutable :=
            self_intersections_fixed_on_mutable (locals s);
          initial_has_self_intersections :=
            initial_has_self_intersections (locals s) |}
       (logged (Method name args m) false s)) ->
  Q tt
    (set_locals
       {| mutable_mesh := Some (method H name args m);
          repairs_applied := repairs_applied (locals s);
          self_intersections_fixed_on_mutable :=
            self_intersections_fixed_on_mutable (locals s);
          initial_has_self_intersections :=
            initial_has_self_intersections (locals s) |}
       (logged (Method name args m) true s)) ->
  spec (call_method H name args) s Q E.
Proof.
  intros Hm HE HQ. unfold spec, call_method. rewrite Hm.
  destruct (raises H s (Method name args m)); simpl; assumption.
Qed.

(** One step of the pipeline: the method is called once; it counts as
    applied when it returns, and is reported when it raises; the step
    itself never raises. *)
Lemma step_progress s0 names name args label intro failure s :
  label_of name = label ->
  failure_message name = Message failure ->
  progress s0 names s ->
  spec (try (PrintMessage intro ;;
             call_method H name args ;;
             repairs_applied_append label ;;
             diagnostic H)
        except (fun _ => PrintMessage failure)) s
    (fun _ => progress s0 (names ++ [name])) (fun _ _ => False).
Proof.
  intros Hlabel Hfailure Hs.
  apply spec_try, spec_bind. eapply spec_intro_ok; [reflexivity|].
  apply progress_printed with (m := Message intro) in Hs.
  destruct (mutable_mesh (locals s)) as [m|] eqn:Hm;
    [|now destruct (pr_copy Hs)].
  apply spec_bind, spec_call_method with (m := m); [exact Hm | | ].
  - eapply spec_intro_ok; [reflexivity|].
    rewrite <- Hfailure. exact (progress_raised name args m Hs).
  - apply spec_bind. eapply spec_intro_ok; [reflexivity|].
    apply spec_preserved with (P := progress s0 (names ++ [name])).
    + apply progress_diagnostic.
    + rewrite <- Hlabel. exact (progress_applied name args m Hs).
    + auto.
    + intros e s1 H1. eapply spec_intro_ok; [reflexivity|].
      now apply progress_printed.
Qed.

(** The entries of [repair_methods] agree with the pipeline. *)
Definition in_pipeline (entry : string * string) : Prop :=
  label_of (fst entry) = snd entry
  /\ failure_message (fst entry)
     = Message (String.append (snd entry) " failed").

Lemma repair_methods_in_pipeline : Forall in_pipeline repair_methods.
Proof. repeat constructor. Qed.

(** Lines 71-82: every method the mesh has is called, in the order of the
    list, whatever the earlier ones did. *)
Lemma general_repairs_progress s0 (l : list (string * string)) :
  Forall in_pipeline l ->
  forall names s,
    progress s0 names s ->
    spec (for_each l (general_repair H)) s
      (fun _ => progress s0 (names ++ filter (hasattr H) (map fst l)))
      (fun _ _ => False).
Proof.
  intros Hall.
  induction Hall as [|entry rest Hentry _ IH]; intros names s Hs.
  - simpl. rewrite app_nil_r. exact Hs.
  - destruct entry as [name description]. destruct Hentry as [Hl Hf].
    simpl for_each. apply spec_bind.
    simpl in Hl, Hf. simpl map. simpl filter.
    unfold general_repair at 1.
    destruct (hasattr H name); simpl when.
    + eapply spec_weaken;
        [ apply (step_progress name [] (String.append description "...")
                   Hl Hf Hs) | | auto ].
      intros ? s1 H1. simpl.
      replace (names ++ name :: filter (hasattr H) (map fst rest))
        with ((names ++ [name]) ++ filter (hasattr H) (map fst rest))
        by now rewrite <- app_assoc.
      now apply IH.
    + apply spec_try. eapply spec_intro_ok; [reflexivity|]. now apply IH.
Qed.

(** Lines 85-93. *)
Lemma fill_small_holes_progress s0 names s :
  progress s0 names s ->
  spec (fill_small_holes H) s
    (fun _ => progress s0 (names ++ ["fillupHoles"%string]))
    (fun _ _ => False).
Proof.
  intros Hs. unfold fill_small_holes.
  now apply step_progress.
Qed.

Lemma progress_set_fixed s0 names b s :
  progress s0 names s ->
  progress s0 names
    (set_locals
       {| mutable_mesh := mutable_mesh (locals s);
          repairs_applied := repairs_applied (locals s);
          self_intersections_fixed_on_mutable := b;
          initial_has_self_intersections :=
            initial_has_self_intersections (locals s) |} s).
Proof. intros [Hd Hwr Hf Hm He]. split; simpl; auto. Qed.

(** Lines 33-58: [fixSelfIntersections] is called, and
    [harmonizeNormals] after it unless the pass was left early. *)
Lemma priority_pass_progress s0 names s :
  progress s0 names s ->
  spec (priority_pass H) s
    (fun _ s' =>
       progress s0 (names ++ ["fixSelfIntersections"%string]) s'
       \/ progress s0 (names ++ ["fixSelfIntersections";
                                 "harmonizeNormals"]%string) s')
    (fun _ _ => False).
Proof.
  intros Hs. unfold priority_pass.
  apply spec_bind. eapply spec_intro_ok; [reflexivity|].
  eapply progress_printed in Hs.
  apply spec_try.
  destruct (mutable_mesh (locals s)) as [m|] eqn:Hm;
    [|now destruct (pr_copy Hs)].
  apply spec_bind, spec_call_method with (m := m); [exact Hm | | ].
  { eapply spec_intro_ok; [reflexivity|]. left.
    exact (progress_raised "fixSelfIntersections" [] m Hs). }
  apply spec_bind. eapply spec_intro_ok; [reflexivity|].
  pose proof (progress_applied "fixSelfIntersections" [] m Hs) as H1.
  apply spec_bind,
    spec_preserved
      with (P := progress s0 (names ++ ["fixSelfIntersections"%string]));
    [ apply progress_diagnostic | exact H1 | | ].
  2:{ intros e s2 H2. eapply spec_intro_ok; [reflexivity|]. left.
      now apply progress_printed. }
  clear H1 Hs Hm m s. intros _ s Hs.
  apply spec_bind. eapply spec_intro_ok; [reflexivity|].
  eapply progress_printed in Hs.
  destruct (mutable_mesh (locals s)) as [m|] eqn:Hm;
    [|now destruct (pr_copy Hs)].
  assert (Hnames : (names ++ ["fixSelfIntersections"%string])
                     ++ ["harmonizeNormals"%string]
                   = names ++ ["fixSelfIntersections";
                               "harmonizeNormals"]%string)
    by now rewrite <- app_assoc.
  apply spec_bind, spec_call_method with (m := m); [exact Hm | | ].
  { eapply spec_intro_ok; [reflexivity|]. right. rewrite <- Hnames.
    exact (progress_raised "harmonizeNormals" [] m Hs). }
  apply spec_bind. eapply spec_intro_ok; [reflexivity|].
  pose proof (progress_applied "harmonizeNormals" [] m Hs) as H1.
  rewrite Hnames in H1.
  set (P := progress s0 (names ++ ["fixSelfIntersections";
                                   "harmonizeNormals"]%string)) in *.
  assert (Hhandler : forall (e : exn) s2, P s2 ->
            spec (PrintMessage
                    "Fix self-intersections (priority pass) failed") s2
              (fun _ s' =>
                 progress s0 (names ++ ["fixSelfIntersections"%string]) s'
                 \/ P s')
              (fun _ _ => False)).
  { intros e s2 H2. eapply spec_intro_ok; [reflexivity|]. right.
    now apply progress_printed. }
  apply spec_bind, spec_preserved with (P := P);
    [ apply progress_diagnostic | exact H1 | | exact Hhandler ].
  clear H1 Hs Hm m s. intros _ s Hs.
  destruct (mutable_mesh (locals s)) as [m|] eqn:Hm;
    [|now destruct (pr_copy Hs)].
  apply spec_bind, spec_the_mutable_mesh with (m := m); [exact Hm|].
  apply spec_bind. unfold mesh_hasSelfIntersections, query.
  apply spec_host.
  { apply Hhandler; [exact (HostError Recompute)|].
    apply progress_logged; [reflexivity | discriminate | exact Hs]. }
  intros still s1 _ [= <- <-].
  eapply progress_logged
    with (c := Query "hasSelfIntersections" m) (b := true) in Hs;
    [ | reflexivity | discriminate ].
  destruct (hasSelfIntersections H m); simpl.
  - eapply spec_intro_ok; [reflexivity|]. right.
    now apply progress_printed.
  - apply spec_bind. eapply spec_intro_ok; [reflexivity|].
    eapply spec_intro_ok; [reflexivity|]. right.
    apply progress_set_fixed. now apply progress_printed.
Qed.

(** What a run of the pipeline leaves, seen from the state [s] it started
    in: the methods called with their outcome, the labels of those that
    returned as [repairs_applied], a message for each that raised. *)
Record pipeline_run (s : state) (evs : list (string * bool)) (s' : state)
  : Prop := {
  run_events : method_events (trace s') = method_events (trace s) ++ evs;
  run_applied : repairs_applied (locals s') = applied_labels evs;
  run_reported :
    forall n, In (n, false) evs -> In (failure_message n) (console s')
}.

(** The methods of a complete run, in the order of the source. *)
Definition pipeline_names (initial : bool) (names : list string) : Prop :=
  exists prio,
    names = prio ++ filter (hasattr H) (map fst repair_methods)
                 ++ ["fillupHoles"%string]
    /\ if initial
       then prio = ["fixSelfIntersections"%string]
            \/ prio = ["fixSelfIntersections"; "harmonizeNormals"]%string
       else prio = [].

(** The document and the document-changing calls are those of [s]. *)
Definition untouched (s s' : state) : Prop :=
  ActiveDocument s' = ActiveDocument s
  /\ writes (trace s') = writes (trace s).

Lemma passes_run s :
  mutable_mesh (locals s) <> None ->
  spec (repair_passes H) s
    (fun initial s' =>
       untouched s s'
       /\ initial_has_self_intersections (locals s') = Some initial
       /\ exists evs, pipeline_run s evs s'
                      /\ pipeline_names initial (map fst evs))
    (fun _ s' =>
       untouched s s'
       /\ initial_has_self_intersections (locals s')
          = initial_has_self_intersections (locals s)
       /\ pipeline_run s [] s').
Proof.
  intros Hm. unfold repair_passes.
  apply spec_bind. eapply spec_intro_ok; [reflexivity|].
  apply spec_bind. eapply spec_intro_ok; [reflexivity|].
  match goal with |- spec _ ?st _ _ => set (s1 := st) end.
  assert (H1 : progress s1 [] s1) by now apply progress_start.
  assert (Hearly : forall s', progress s1 [] s' ->
            untouched s s'
            /\ initial_has_self_intersections (locals s')
               = initial_has_self_intersections (locals s)
            /\ pipeline_run s [] s').
  { intros s' [Hd Hw Hf _ (evs & He1 & He2 & He3 & He4)].
    apply map_eq_nil in He1. subst evs. rewrite app_nil_r in He2.
    repeat split; auto. now rewrite app_nil_r. }
  apply spec_bind, spec_preserved with (P := progress s1 []);
    [ apply progress_diagnostic | exact H1 | | intros _; exact Hearly ].
  clear H1. intros ? s2 H2.
  destruct (mutable_mesh (locals s2)) as [m|] eqn:Hm2;
    [|now destruct (pr_copy H2)].
  apply spec_bind, spec_the_mutable_mesh with (m := m); [exact Hm2|].
  apply spec_bind. unfold mesh_hasSelfIntersections, query.
  apply spec_host.
  { apply Hearly, progress_logged; [reflexivity | discriminate | exact H2]. }
  intros initial s' _ [= <- <-].
  eapply progress_logged
    with (c := Query "hasSelfIntersections" m) (b := true) in H2;
    [ | reflexivity | discriminate ].
  apply Hearly in H2. destruct H2 as ((Hd & Hw) & _ & [He Ha _]).
  simpl in Hd, Hw, He, Ha. rewrite app_nil_r in He.
  apply spec_bind. eapply spec_intro_ok; [reflexivity|].
  match goal with |- spec _ ?st _ _ => set (s3 := st) end.
  assert (H3 : progress s3 [] s3).
  { apply progress_start. unfold s3. simpl. congruence. }
  assert (Hlate : forall names s',
            pipeline_names (hasSelfIntersections H m) names ->
            progress s3 names s' ->
            untouched s s'
            /\ initial_has_self_intersections (locals s')
               = Some (hasSelfIntersections H m)
            /\ exists evs, pipeline_run s evs s'
                           /\ pipeline_names (hasSelfIntersections H m)
                                (map fst evs)).
  { intros names s' Hnames [Hd' Hw' Hf' _ (evs & He1 & He2 & He3 & He4)].
    unfold untouched. rewrite Hd', Hw', Hf'. unfold s3 at 1 2 3. simpl.
    repeat split; auto.
    exists evs. rewrite He1. split; [|exact Hnames].
    split; auto.
    - rewrite He2. unfold s3. simpl. now rewrite He.
    - rewrite He3. unfold s3. simpl. now rewrite Ha. }
  assert (Hprio : spec (when (hasSelfIntersections H m) (priority_pass H)) s3
            (fun _ s' => exists prio,
                 progress s3 prio s'
                 /\ if hasSelfIntersections H m
                    then prio = ["fixSelfIntersections"%string]
                         \/ prio = ["fixSelfIntersections";
                                    "harmonizeNormals"]%string
                    else prio = [])
            (fun _ _ => False)).
  { destruct (hasSelfIntersections H m); simpl.
    - eapply spec_weaken; [apply (priority_pass_progress H3) | | auto].
      intros ? s' [Hp|Hp]; eexists; split; eauto.
    - exists []. auto. }
  apply spec_bind. eapply spec_weaken; [exact Hprio | | intros ? ? []].
  intros ? s4 (prio & H4 & Hprio4).
  apply spec_bind.
  eapply spec_weaken;
    [ apply (general_repairs_progress repair_methods_in_pipeline H4)
    | | intros ? ? [] ].
  intros ? s5 H5.
  apply spec_bind.
  eapply spec_weaken;
    [ apply (fill_small_holes_progress H5) | | intros ? ? [] ].
  intros ? s6 H6.
  apply (Hlate _ _ (ex_intro _ prio (conj (eq_sym (app_assoc _ _ _))
                                          Hprio4)) H6).
Qed.

Lemma spec_conj {A : Type} (c : comp A) s (Q1 Q2 : A -> state -> Prop)
  (E1 E2 : exn -> state -> Prop) :
  spec c s Q1 E1 -> spec c s Q2 E2 ->
  spec c s (fun a s' => Q1 a s' /\ Q2 a s') (fun e s' => E1 e s' /\ E2 e s').
Proof. unfold spec. destruct (c s); auto. Qed.

(** ** Writing back and checking (lines 95-120) *)

(** What the write-back leaves of the frame, of the methods called and of
    the console. *)
Definition kept (s s' : state) : Prop :=
  locals s' = locals s
  /\ method_events (trace s') = method_events (trace s)
  /\ forall m, In m (console s) -> In m (console s').

Lemma kept_refl s : kept s s.
Proof. repeat split; auto. Qed.

Lemma kept_logged s s' (c : call) b :
  (forall n a m, c <> Method n a m) -> kept s s' -> kept s (logged c b s').
Proof.
  intros Hc (Hl & He & Hm). repeat split; simpl; auto.
  rewrite method_events_app, He.
  destruct c; simpl; try now rewrite app_nil_r.
  now contradiction (Hc name args m).
Qed.

Lemma kept_printed s s' m : kept s s' -> kept s (printed m s').
Proof.
  intros (Hl & He & Hm). repeat split; simpl; auto.
  intros m' Hm'. apply in_or_app. left. auto.
Qed.

Lemma kept_document s s' d : kept s s' -> kept s (set_document d s').
Proof. intros (Hl & He & Hm). repeat split; simpl; auto. Qed.

Ltac kept_side :=
  first
    [ solve [ intros; apply kept_printed; assumption ]
    | solve [ intros; apply kept_logged; [ discriminate | assumption ] ]
    | solve [ sem_cases; try apply kept_document; assumption ] ].

Lemma kept_write_back s0 mesh_obj initial :
  preserves (kept s0) (write_back_and_check H mesh_obj initial).
Proof.
  unfold write_back_and_check. unfold_host_calls.
  preserving fail kept_side.
Qed.

(** The mesh a state gives for [GetMesh]. *)
Lemma get_Mesh_effect obj (s : state) m s1 :
  match object_of obj s with
  | Some o => match Mesh o with Some m => Some (m, s) | None => None end
  | None => None
  end = Some (m, s1) ->
  mesh_of obj s = Some m /\ s1 = s.
Proof.
  unfold mesh_of. destruct (object_of obj s) as [o|]; [|discriminate].
  destruct (Mesh o); [|discriminate]. now intros [= <- <-].
Qed.

(** The value of the check: the three verdicts on the mesh the object
    holds after the write-back and the recomputations, the third replaced
    by the internal flag when the priority pass ran. *)
Lemma write_back_result mesh_obj initial s :
  spec (write_back_and_check H mesh_obj initial) s
    (fun b s' =>
       exists m,
         mesh_of mesh_obj s' = Some m
         /\ b = isSolid H m && negb (hasNonManifolds H m)
                && negb (if initial
                         then negb (self_intersections_fixed_on_mutable
                                      (locals s))
                         else hasSelfIntersections H m))
    (fun _ _ => True).
Proof.
  unfold write_back_and_check.
  apply spec_bind. unfold spec at 1, the_mutable_mesh.
  destruct (mutable_mesh (locals s)) as [mm|]; [|exact I].
  apply spec_bind. unfold set_Mesh. apply spec_host; [exact I|].
  intros [] s1 _ Hs1. apply assign_effect in Hs1 as (objs & _ & _ & ->).
  apply spec_bind. unfold doc_recompute. apply spec_host; [exact I|].
  intros [] s2 _ [= <-].
  apply spec_bind. apply spec_host; [exact I|].
  intros [] s3 _ [= <-].
  apply spec_bind. apply spec_host; [exact I|].
  intros [] s4 _ [= <-].
  apply spec_bind. unfold get_Mesh. apply spec_host; [exact I|].
  intros m s5 _ Hs5. apply get_Mesh_effect in Hs5 as [Hm ->].
  apply spec_bind. unfold mesh_isSolid, query. apply spec_host; [exact I|].
  intros is_solid ? _ [= <- <-].
  apply spec_bind. unfold mesh_hasNonManifolds, query.
  apply spec_host; [exact I|].
  intros has_non_manifolds ? _ [= <- <-].
  apply spec_bind. unfold mesh_hasSelfIntersections, query.
  apply spec_host; [exact I|].
  intros queried ? _ [= <- <-].
  apply spec_bind. eapply spec_intro_ok; [reflexivity|].
  apply spec_bind. eapply spec_intro_ok; [reflexivity|].
  apply spec_bind. eapply spec_intro_ok; [reflexivity|].
  eapply spec_intro_ok; [reflexivity|].
  exists m. split; [exact Hm | reflexivity].
Qed.

(** ** The whole repair function *)

Lemma pipeline_run_kept s evs s1 s2 :
  pipeline_run s evs s1 -> kept s1 s2 -> pipeline_run s evs s2.
Proof.
  intros [He Ha Hr] (Hl & Hm & Hc). split.
  - now rewrite Hm.
  - now rewrite Hl.
  - auto.
Qed.

Lemma pipeline_run_rebase s s1 evs s2 :
  kept s s1 -> pipeline_run s1 evs s2 -> pipeline_run s evs s2.
Proof.
  intros (_ & Hm & _) [He Ha Hr]. split; auto. now rewrite He, Hm.
Qed.

Lemma untouched_trans s s1 s2 :
  untouched s s1 -> untouched s1 s2 -> untouched s s2.
Proof. intros [H1 H2] [H3 H4]. split; congruence. Qed.

Lemma untouched_logged s s' (c : call) b :
  is_write c = false -> untouched s s' -> untouched s (logged c b s').
Proof.
  intros Hc [Hd Hw]. split; simpl; auto.
  rewrite writes_app, Hw. unfold writes at 2. simpl. rewrite Hc.
  apply app_nil_r.
Qed.

(** What every run of the repair function satisfies, seen from the state
    [s] in which its frame was entered: the methods called are those of
    the pipeline in its order, complete once the first check was made;
    and when nothing counts as applied the document was not written. *)
Definition run_summary (s s' : state) : Prop :=
  exists evs,
    pipeline_run s evs s'
    /\ match initial_has_self_intersections (locals s') with
       | Some initial => pipeline_names initial (map fst evs)
       | None => evs = []
       end
    /\ (repairs_applied (locals s') = [] -> untouched s s').

(** The value the function returns: failure when nothing was applied,
    the check of the written-back mesh otherwise. *)
Definition run_result (mesh_obj : string) (b : bool) (s' : state) : Prop :=
  (repairs_applied (locals s') = [] -> b = false)
  /\ (repairs_applied (locals s') <> [] ->
      exists m initial,
        mesh_of mesh_obj s' = Some m
        /\ initial_has_self_intersections (locals s') = Some initial
        /\ b = isSolid H m && negb (hasNonManifolds H m)
               && negb (if initial
                        then negb (self_intersections_fixed_on_mutable
                                     (locals s'))
                        else hasSelfIntersections H m)).

Lemma summary_early s s' :
  locals s = empty_frame -> kept s s' -> untouched s s' ->
  run_summary s s'.
Proof.
  intros Hs (Hl & Hm & Hc) Hu. exists []. rewrite Hl, Hs. simpl.
  split; [|auto]. split.
  - now rewrite app_nil_r.
  - now rewrite Hl, Hs.
  - intros n [].
Qed.

Lemma repair_body_run mesh_obj s :
  locals s = empty_frame ->
  spec (repair_body H mesh_obj) s
    (fun b s' => run_summary s s' /\ run_result mesh_obj b s')
    (fun _ s' => run_summary s s').
Proof.
  intros Hs. unfold repair_body.
  assert (Hq : forall s', kept s s' /\ untouched s s' -> run_summary s s').
  { intros s' [Hk Hu]. now apply summary_early. }
  assert (H0 : kept s s /\ untouched s s).
  { split; [apply kept_refl | split; reflexivity]. }
  apply spec_bind. unfold get_Mesh. apply spec_host.
  { apply Hq. destruct H0. split;
      [ apply kept_logged; [discriminate | assumption]
      | apply untouched_logged; [reflexivity | assumption] ]. }
  intros m0 s1 _ Hs1. apply get_Mesh_effect in Hs1 as [_ ->].
  assert (H1 : kept s (logged (GetMesh mesh_obj) true s)
               /\ untouched s (logged (GetMesh mesh_obj) true s)).
  { destruct H0. split;
      [ apply kept_logged; [discriminate | assumption]
      | apply untouched_logged; [reflexivity | assumption] ]. }
  clear H0. revert H1.
  generalize (logged (GetMesh mesh_obj) true s). intros s1 H1.
  apply spec_bind. unfold get_Topology. apply spec_host.
  { apply Hq. destruct H1. split;
      [ apply kept_logged; [discriminate | assumption]
      | apply untouched_logged; [reflexivity | assumption] ]. }
  intros ? ? _ [= <- <-].
  assert (H2 : kept s (logged (GetTopology m0) true s1)
               /\ untouched s (logged (GetTopology m0) true s1)).
  { destruct H1. split;
      [ apply kept_logged; [discriminate | assumption]
      | apply untouched_logged; [reflexivity | assumption] ]. }
  clear H1. revert H2.
  generalize (logged (GetTopology m0) true s1). clear s1. intros s1 H1.
  apply spec_bind. unfold new_Mesh. apply spec_host.
  { apply Hq. destruct H1. split;
      [ apply kept_logged; [discriminate | assumption]
      | apply untouched_logged; [reflexivity | assumption] ]. }
  intros ? ? _ [= <- <-].
  assert (H2 : kept s (logged (NewMesh m0) true s1)
               /\ untouched s (logged (NewMesh m0) true s1)).
  { destruct H1. split;
      [ apply kept_logged; [discriminate | assumption]
      | apply untouched_logged; [reflexivity | assumption] ]. }
  clear H1. revert H2.
  generalize (logged (NewMesh m0) true s1). clear s1. intros s1 H1.
  apply spec_bind. eapply spec_intro_ok; [reflexivity|].
  apply spec_bind. eapply spec_intro_ok; [reflexivity|].
  match goal with |- spec _ ?st _ _ => set (s2 := st) end.
  assert (H2 : untouched s s2
               /\ method_events (trace s2) = method_events (trace s)
               /\ (forall m, In m (console s) -> In m (console s2))
               /\ initial_has_self_intersections (locals s2) = None).
  { destruct H1 as [(Hl & Hm & Hc) Hu]. unfold s2. simpl.
    repeat split; try apply Hu; auto.
    - intros m Hin. apply in_or_app. left. auto.
    - now rewrite Hl, Hs. }
  destruct H2 as (Hu2 & Hm2 & Hc2 & Hi2).
  apply spec_bind.
  eapply spec_weaken;
    [ apply (@passes_run s2); unfold s2; simpl; discriminate | | ].
  2:{ intros e s3 (Hu3 & Hi3 & [He Ha Hr]).
      exists []. rewrite Hi3, Hi2.
      split; [split | split; [reflexivity|]]; auto.
      - now rewrite He, Hm2.
      - intros _. now apply untouched_trans with s2. }
  intros initial s3 (Hu3 & Hi3 & evs & [He Ha Hr] & Hnames).
  assert (Hrun : pipeline_run s evs s3).
  { split; auto. now rewrite He, Hm2. }
  apply spec_bind. eapply spec_intro_ok; [reflexivity|].
  destruct (repairs_applied (locals s3)) as [|x applied] eqn:Happlied.
  - apply spec_bind. eapply spec_intro_ok; [reflexivity|].
    eapply spec_intro_ok; [reflexivity|]. split.
    + exists evs. simpl. rewrite Hi3.
      split; [|split; [exact Hnames|]].
      * apply pipeline_run_kept with s3; [exact Hrun|].
        apply kept_printed, kept_refl.
      * intros _. apply untouched_trans with s2; [exact Hu2|].
        exact Hu3.
    + unfold run_result. simpl. rewrite Happlied.
      split; [reflexivity | congruence].
  - eapply spec_weaken;
      [ apply spec_conj;
        [ apply (@kept_write_back s3), kept_refl
        | apply write_back_result ] | | ].
    + intros b s4 [Hk (m & Hm & Hb)]. pose proof Hk as (Hl & _ & _).
      split.
      * exists evs. rewrite Hl, Hi3, Happlied.
        split; [ | split; [exact Hnames | discriminate] ].
        now apply pipeline_run_kept with s3.
      * unfold run_result. rewrite Hl, Happlied.
        split; [discriminate|]. intros _.
        exists m, initial. split; [exact Hm | split; [exact Hi3 | exact Hb]].
    + intros e s4 [(Hl & Hk) _].
      exists evs. rewrite Hl, Hi3, Happlied.
      split; [ | split; [exact Hnames | discriminate] ].
      apply pipeline_run_kept with s3; [exact Hrun|]. now split.
Qed.

Lemma attempt_unfold mesh_obj s :
  attempt_comprehensive_manual_repair H mesh_obj s
  = match repair_body H mesh_obj (set_locals empty_frame s) with
    | Ok b s' => Ok b s'
    | Raise e s' =>
        Ok false
          (printed (Error (String.append "Manual repair error for "
                             mesh_obj)) s')
    end.
Proof.
  unfold attempt_comprehensive_manual_repair, bind, try_except, enter_frame.
  destruct (repair_body H mesh_obj (set_locals empty_frame s)); reflexivity.
Qed.

Lemma run_summary_enter f s s' :
  run_summary (set_locals f s) s' -> run_summary s s'.
Proof.
  intros (evs & [He Ha Hr] & Hn & Hu). exists evs.
  split; [split; assumption | split; [exact Hn | exact Hu]].
Qed.

Lemma repair_run mesh_obj s :
  spec (attempt_comprehensive_manual_repair H mesh_obj) s
    (fun b s' => run_summary s s'
                 /\ (repairs_applied (locals s') = [] -> b = false))
    (fun _ _ => False).
Proof.
  unfold spec. rewrite attempt_unfold.
  pose proof (@repair_body_run mesh_obj (set_locals empty_frame s) eq_refl)
    as Hbody.
  unfold spec in Hbody.
  destruct (repair_body H mesh_obj (set_locals empty_frame s))
    as [b s'|e s'].
  - destruct Hbody as [Hsum [Hres _]].
    split; [exact (run_summary_enter Hsum) | exact Hres].
  - split; [|reflexivity].
    apply run_summary_enter in Hbody.
    destruct Hbody as (evs & Hrun & Hnames & Hun).
    exists evs. simpl. split; [|split; [exact Hnames | exact Hun]].
    apply pipeline_run_kept with s'; [exact Hrun|].
    apply kept_printed, kept_refl.
Qed.




(** ** The evaluator *)

Lemma attempt_mesh_repair_returns mesh_obj nm si s :
  exists b s', attempt_mesh_repair H mesh_obj nm si s = Ok b s'.
Proof.
  unfold attempt_mesh_repair, try_except, bind, PrintMessage.
  pose proof (repair_run mesh_obj
                (printed (Message (String.append "=== Starting repair for "
                                     mesh_obj)) s)) as Hrun.
  unfold spec in Hrun.
  destruct (attempt_comprehensive_manual_repair H mesh_obj _) as [b s1|];
    [|contradiction].
  destruct b; simpl; eauto.
Qed.

(** Lines 161-177 read the mesh the object holds and leave the document
    as it is. *)
Lemma evaluation_queries_ok selected_mesh s :
  spec (evaluation_queries H selected_mesh) s
    (fun q s1 =>
       ActiveDocument s1 = ActiveDocument s
       /\ exists m,
            mesh_of selected_mesh s = Some m
            /\ q = (isSolid H m, hasNonManifolds H m,
                    hasSelfIntersections H m))
    (fun _ _ => True).
Proof.
  unfold evaluation_queries.
  apply spec_bind. unfold get_Mesh. apply spec_host; [exact I|].
  intros m s1 _ Hs1. apply get_Mesh_effect in Hs1 as [Hm ->].
  unfold mesh_isSolid, mesh_hasNonManifolds, mesh_hasSelfIntersections,
    mesh_CountPoints, mesh_CountFacets, mesh_Volume, mesh_Area, query.
  apply spec_bind, spec_host; [exact I|]. intros ? ? _ [= <- <-].
  apply spec_bind, spec_host; [exact I|]. intros ? ? _ [= <- <-].
  apply spec_bind, spec_host; [exact I|]. intros ? ? _ [= <- <-].
  apply spec_bind. eapply spec_intro_ok; [reflexivity|].
  apply spec_bind, spec_host; [exact I|]. intros ? ? _ [= <- <-].
  apply spec_bind, spec_host; [exact I|]. intros ? ? _ [= <- <-].
  apply spec_bind.
  destruct (isSolid H m) eqn:Hsolid; simpl when.
  - apply spec_bind, spec_host; [exact I|]. intros ? ? _ [= <- <-].
    apply spec_host; [exact I|]. intros ? ? _ [= <- <-].
    eapply spec_intro_ok; [reflexivity|].
    split; [reflexivity|]. exists m. now rewrite Hsolid.
  - eapply spec_intro_ok; [reflexivity|].
    eapply spec_intro_ok; [reflexivity|].
    split; [reflexivity|]. exists m. now rewrite Hsolid.
Qed.

Lemma bind_ok {A B : Type} (c : comp A) (k : A -> comp B) s a s1 :
  c s = Ok a s1 -> bind c k s = k a s1.
Proof. unfold bind. now intros ->. Qed.

Lemma bind_raise {A B : Type} (c : comp A) (k : A -> comp B) s e s1 :
  c s = Raise e s1 -> bind c k s = Raise e s1.
Proof. unfold bind. now intros ->. Qed.

Lemma try_ok {A : Type} (c : comp A) (h : exn -> comp A) s a s1 :
  c s = Ok a s1 -> try_except c h s = Ok a s1.
Proof. unfold try_except. now intros ->. Qed.

Lemma try_raise {A : Type} (c : comp A) (h : exn -> comp A) s e s1 :
  c s = Raise e s1 -> try_except c h s = h e s1.
Proof. unfold try_except. now intros ->. Qed.

(** Lines 180-201, by cases on the verdicts. *)
Lemma evaluation_decision_cases selected_mesh (is_solid nm si : bool)
  (s1 : state) :
  if is_solid
  then if nm || si
       then exists success s2,
              attempt_mesh_repair H selected_mesh (Some nm) (Some si)
                (printed
                   (Message
                      "DECISION: Mesh is solid but has issues - attempting automatic repair")
                   s1)
              = Ok success s2
              /\ exists text,
                   evaluation_decision H selected_mesh is_solid nm si s1
                   = Ok (if success then "proceed" else "repair")%string
                       (printed (Message text) s2)
       else evaluation_decision H selected_mesh is_solid nm si s1
            = Ok "proceed"%string
                (printed
                   (Message
                      "DECISION: Mesh is clean - proceeding with conversion")
                   s1)
  else evaluation_decision H selected_mesh is_solid nm si s1
       = Ok "repair"%string
           (printed
              (Message "DECISION: Mesh is not solid - skipping this mesh")
              s1).
Proof.
  unfold evaluation_decision.
  destruct is_solid; [|reflexivity].
  destruct (nm || si) eqn:Hflaw.
  - destruct (attempt_mesh_repair_returns selected_mesh (Some nm) (Some si)
                (printed
                   (Message
                      "DECISION: Mesh is solid but has issues - attempting automatic repair")
                   s1)) as (success & s2 & Hrep).
    exists success, s2. split; [exact Hrep|].
    assert (Hcond : true && negb nm && negb si = false)
      by (destruct nm, si; try reflexivity; discriminate).
    rewrite Hcond. cbn [andb].
    erewrite bind_ok; [|reflexivity].
    erewrite bind_ok; [|exact Hrep].
    destruct success; eexists; reflexivity.
  - assert (Hcond : true && negb nm && negb si = true)
      by (destruct nm, si; try reflexivity; discriminate).
    rewrite Hcond. reflexivity.
Qed.

(** C3 (amended).  The evaluator always returns.  When one of its reads
    raises it returns ['cancel'].  Otherwise the three verdicts are those
    of the kernel on the mesh the object holds, and they alone decide:
    solid with neither flaw gives ['proceed'] without calling the repair;
    solid with a flaw calls the repair and gives ['proceed'] when it
    succeeds and ['repair'] when it fails; not solid gives ['repair']
    without calling the repair.  The number of facets plays no part. *)
Theorem evaluation_follows_the_three_verdicts selected_mesh s :
  exists r s',
    evaluate_mesh_automated H selected_mesh s = Ok r s'
    /\ match evaluation_queries H selected_mesh s with
       | Raise _ _ => r = "cancel"%string
       | Ok (is_solid, has_non_manifolds, has_self_intersections) s1 =>
           (exists m,
              mesh_of selected_mesh s = Some m
              /\ is_solid = isSolid H m
              /\ has_non_manifolds = hasNonManifolds H m
              /\ has_self_intersections = hasSelfIntersections H m)
           /\ if is_solid
              then if has_non_manifolds || has_self_intersections
                   then exists success s2,
                          attempt_mesh_repair H selected_mesh
                            (Some has_non_manifolds)
                            (Some has_self_intersections)
                            (printed
                               (Message
                                  "DECISION: Mesh is solid but has issues - attempting automatic repair")
                               s1)
                          = Ok success s2
                          /\ r = (if success then "proceed" else "repair")
                                   %string
                   else r = "proceed"%string
                        /\ ActiveDocument s' = ActiveDocument s
                        /\ method_events (trace s')
                           = method_events (trace s1)
              else r = "repair"%string
                   /\ ActiveDocument s' = ActiveDocument s
                   /\ method_events (trace s') = method_events (trace s1)
       end.
Proof.
  pose proof (evaluation_queries_ok selected_mesh s) as Hq.
  unfold spec in Hq.
  unfold evaluate_mesh_automated.
  destruct (evaluation_queries H selected_mesh s)
    as [[[is_solid nm] si] s1|e s1] eqn:Hqueries.
  - destruct Hq as (Hdoc & m & Hm & Hverdicts).
    pose proof (evaluation_decision_cases selected_mesh is_solid nm si s1)
      as Hcases.
    assert (Hm' : exists m0,
              mesh_of selected_mesh s = Some m0
              /\ is_solid = isSolid H m0
              /\ nm = hasNonManifolds H m0
              /\ si = hasSelfIntersections H m0).
    { exists m. injection Hverdicts as -> -> ->. auto. }
    clear Hverdicts.
    destruct is_solid; [destruct (nm || si)|].
    + destruct Hcases as (success & s2 & Hrep & text & Hdec).
      exists (if success then "proceed" else "repair")%string,
             (printed (Message text) s2).
      split; [|split; [exact Hm' | eauto]].
      erewrite try_ok; [reflexivity|].
      erewrite bind_ok; [|exact Hqueries]. exact Hdec.
    + eexists; eexists. split; [|split; [exact Hm'|]].
      * erewrite try_ok; [reflexivity|].
        erewrite bind_ok; [|exact Hqueries]. exact Hcases.
      * simpl. auto.
    + eexists; eexists. split; [|split; [exact Hm'|]].
      * erewrite try_ok; [reflexivity|].
        erewrite bind_ok; [|exact Hqueries]. exact Hcases.
      * simpl. auto.
  - eexists; eexists. split; [|reflexivity].
    erewrite try_raise; [reflexivity|].
    erewrite bind_raise; [reflexivity | exact Hqueries].
Qed.

Lemma bind_inv_ok {A B : Type} (c : comp A) (k : A -> comp B) s b s' :
  bind c k s = Ok b s' ->
  exists a s1, c s = Ok a s1 /\ k a s1 = Ok b s'.
Proof. unfold bind. destruct (c s); [eauto | discriminate]. Qed.

Lemma try_inv_ok {A : Type} (c : comp A) (h : exn -> comp A) s b s' :
  try_except c h s = Ok b s' ->
  c s = Ok b s' \/ exists e s1, c s = Raise e s1 /\ h e s1 = Ok b s'.
Proof. unfold try_except. destruct (c s); [intros [= -> ->]|]; eauto. Qed.

Lemma mesh_of_same_document obj (s s' : state) :
  ActiveDocument s' = ActiveDocument s -> mesh_of obj s' = mesh_of obj s.
Proof. unfold mesh_of, object_of. now intros ->. Qed.

(** A successful repair leaves the object holding a mesh. *)
Lemma repair_true_mesh mesh_obj s s' :
  attempt_comprehensive_manual_repair H mesh_obj s = Ok true s' ->
  exists m, mesh_of mesh_obj s' = Some m.
Proof.
  rewrite attempt_unfold.
  pose proof (@repair_body_run mesh_obj (set_locals empty_frame s) eq_refl)
    as Hbody. unfold spec in Hbody.
  destruct (repair_body H mesh_obj (set_locals empty_frame s))
    as [b s1|e s1]; [|discriminate].
  intros [= -> ->]. destruct Hbody as [_ [Hnil Hres]].
  destruct (repairs_applied (locals s')) eqn:Happlied.
  - now specialize (Hnil eq_refl).
  - destruct Hres as (m & _ & Hm & _); [discriminate|]. eauto.
Qed.

Lemma mesh_repair_true_mesh mesh_obj nm si s s' :
  attempt_mesh_repair H mesh_obj nm si s = Ok true s' ->
  exists m, mesh_of mesh_obj s' = Some m.
Proof.
  unfold attempt_mesh_repair. intros Hrun.
  apply try_inv_ok in Hrun as [Hrun|(e & s1 & _ & Hh)];
    [|discriminate Hh].
  apply bind_inv_ok in Hrun as ([] & s1 & _ & Hrun).
  apply bind_inv_ok in Hrun as (success & s2 & Hrep & Hrun).
  destruct success; [|discriminate Hrun].
  injection Hrun as <-. now apply repair_true_mesh in Hrep.
Qed.

(** An evaluation that says ['proceed'] leaves the object holding a
    mesh. *)
Lemma evaluate_proceed_mesh selected_mesh s s' :
  evaluate_mesh_automated H selected_mesh s = Ok "proceed"%string s' ->
  exists m, mesh_of selected_mesh s' = Some m.
Proof.
  unfold evaluate_mesh_automated. intros Hrun.
  apply try_inv_ok in Hrun as [Hrun|(e & s1 & _ & Hh)];
    [|discriminate Hh].
  apply bind_inv_ok in Hrun as ([[is_solid nm] si] & s1 & Hq & Hdec).
  pose proof (spec_ok _ _ _ _ Hq (evaluation_queries_ok selected_mesh s))
    as (Hdoc & m & Hm & _).
  pose proof (evaluation_decision_cases selected_mesh is_solid nm si s1)
    as Hcases.
  destruct is_solid; [destruct (nm || si)|].
  - destruct Hcases as (success & s2 & Hrep & text & Hdec').
    rewrite Hdec' in Hdec. destruct success; [|discriminate Hdec].
    injection Hdec as <-. now apply mesh_repair_true_mesh in Hrep.
  - rewrite Hcases in Hdec. injection Hdec as <-.
    exists m. rewrite <- Hm. now apply mesh_of_same_document.
  - rewrite Hcases in Hdec. discriminate Hdec.
Qed.

(** Lines 251-258, when the conversion goes on. *)
Lemma evaluation_gate_passed mesh_obj base_transaction s s1 :
  evaluation_gate H mesh_obj base_transaction s = Ok None s1 ->
  exists s0,
    evaluate_mesh_automated H mesh_obj s = Ok "proceed"%string s0
    /\ s1 = printed (Message (String.append "Starting conversion of "
                                mesh_obj)) s0.
Proof.
  unfold evaluation_gate. intros Hrun.
  apply try_inv_ok in Hrun as [Hrun|(e & s2 & _ & Hh)];
    [|discriminate Hh].
  apply bind_inv_ok in Hrun as (r & s0 & Heval & Hrun).
  destruct (String.eqb r "proceed") eqn:Hr; simpl in Hrun.
  - apply String.eqb_eq in Hr. subst r. injection Hrun as <-. eauto.
  - destruct base_transaction; discriminate Hrun.
Qed.

(** ** The document store *)

Lemma lookup_app_l name (l l' : list docobj) o :
  lookup name l = Some o -> lookup name (l ++ l') = Some o.
Proof.
  unfold lookup. induction l as [|x l IH]; simpl; [discriminate|].
  destruct (String.eqb (Name x) name); auto.
Qed.

Lemma lookup_update_other name other (f : docobj -> docobj)
  (l : list docobj) :
  (forall o, Name (f o) = Name o) -> other <> name ->
  lookup name (update other f l) = lookup name l.
Proof.
  intros Hf Hne. unfold lookup, update.
  induction l as [|x l IH]; simpl; [reflexivity|].
  destruct (String.eqb (Name x) other) eqn:Hx.
  - rewrite Hf. apply String.eqb_eq in Hx.
    destruct (String.eqb (Name x) name) eqn:Hn; [|exact IH].
    apply String.eqb_eq in Hn. congruence.
  - destruct (String.eqb (Name x) name); [reflexivity | exact IH].
Qed.

Lemma lookup_remove_other name other (l : list docobj) :
  other <> name ->
  lookup name (remove_named other l) = lookup name l.
Proof.
  intros Hne. unfold lookup, remove_named.
  induction l as [|x l IH]; simpl; [reflexivity|].
  destruct (String.eqb (Name x) other) eqn:Hx; simpl.
  - apply String.eqb_eq in Hx.
    destruct (String.eqb (Name x) name) eqn:Hn; [|exact IH].
    apply String.eqb_eq in Hn. congruence.
  - destruct (String.eqb (Name x) name); [reflexivity | exact IH].
Qed.

Lemma labels_update name (f : docobj -> docobj) (l : list docobj) :
  (forall o, label (f o) = label o) ->
  map label (update name f l) = map label l.
Proof.
  intros Hf. unfold update. rewrite map_map. apply map_ext.
  intros o. destruct (String.eqb (Name o) name); auto.
Qed.

(** Removing by name, on the labels. *)
Definition without (name : string) (L : list (string * string))
  : list (string * string) :=
  filter (fun p => negb (String.eqb (fst p) name)) L.

Lemma labels_remove name (l : list docobj) :
  map label (remove_named name l) = without name (map label l).
Proof.
  unfold remove_named, without.
  induction l as [|x l IH]; simpl; [reflexivity|].
  destruct (String.eqb (Name x) name); simpl; congruence.
Qed.

Lemma names_of_labels (l : list docobj) :
  map Name l = map fst (map label l).
Proof. rewrite map_map. reflexivity. Qed.

Lemma lookup_some_in name (l : list docobj) o :
  lookup name l = Some o -> In name (map fst (map label l)).
Proof.
  unfold lookup. intros Hf. apply find_some in Hf as [Hin Hn].
  apply String.eqb_eq in Hn. subst name.
  rewrite <- names_of_labels. now apply in_map.
Qed.

Lemma lookup_none_notin name (l : list docobj) :
  lookup name l = None <-> ~ In name (map fst (map label l)).
Proof.
  rewrite <- names_of_labels. unfold lookup. split.
  - intros Hnone Hin. apply in_map_iff in Hin as (o & Ho & Hin).
    apply (find_none _ _ Hnone) in Hin. rewrite Ho in Hin.
    now rewrite String.eqb_refl in Hin.
  - intros Hnot. destruct (find _ l) as [o|] eqn:Hf; [|reflexivity].
    apply find_some in Hf as [Hin Hn]. apply String.eqb_eq in Hn.
    destruct Hnot. subst name. now apply in_map.
Qed.

Lemma without_notin name (L : list (string * string)) :
  ~ In name (map fst L) -> without name L = L.
Proof.
  unfold without. induction L as [|[n ty] L IH]; simpl; [reflexivity|].
  intros Hnot. destruct (String.eqb n name) eqn:Hn.
  - apply String.eqb_eq in Hn. destruct Hnot. now left.
  - simpl. f_equal. apply IH. intros Hin. apply Hnot. now right.
Qed.

Lemma without_app name (L L' : list (string * string)) :
  without name (L ++ L') = without name L ++ without name L'.
Proof. apply filter_app. Qed.

(** The document as the conversion sees it: its labels, an object to
    keep an eye on, and calls known to have returned. *)
Definition doc_state (keep : option (string * docobj))
  (L : list (string * string)) (Ev : list (call * bool)) (s : state)
  : Prop :=
  (exists objs,
     ActiveDocument s = Some objs
     /\ map label objs = L
     /\ match keep with
        | Some (name, o) => lookup name objs = Some o
        | None => True
        end)
  /\ forall ev, In ev Ev -> In ev (trace s).

(** A name that is not the one of the object kept. *)
Definition apart (keep : option (string * docobj)) (name : string) : Prop :=
  match keep with
  | Some (kept_name, _) => name <> kept_name
  | None => True
  end.

Lemma doc_state_logged keep L Ev (c : call) b s :
  doc_state keep L Ev s -> doc_state keep L Ev (logged c b s).
Proof.
  intros [Hd He]. split; [exact Hd|].
  intros ev Hev. simpl. apply in_or_app. left. auto.
Qed.

Lemma doc_state_returned keep L Ev (c : call) b s :
  doc_state keep L Ev s ->
  doc_state keep L ((c, b) :: Ev) (logged c b s).
Proof.
  intros [Hd He]. split; [exact Hd|].
  intros ev [<-|Hev]; simpl; apply in_or_app; [right; now left | left; auto].
Qed.

Lemma doc_state_printed keep L Ev m s :
  doc_state keep L Ev s -> doc_state keep L Ev (printed m s).
Proof. auto. Qed.

Lemma doc_state_forget keep L Ev s :
  doc_state keep L Ev s -> doc_state None L Ev s.
Proof. intros [(objs & Hd & Hl & _) He]. split; [exists objs|]; auto. Qed.

(** A host call that reads. *)
Lemma step_read {A : Type} keep L Ev (c : call)
  (sem : state -> option (A * state)) s :
  (forall s a s1, sem s = Some (a, s1) -> s1 = s) ->
  doc_state keep L Ev s ->
  spec (host H c sem) s
    (fun a s' => doc_state keep L ((c, true) :: Ev) s'
                 /\ exists s0, sem s0 = Some (a, s0)
                               /\ ActiveDocument s0 = ActiveDocument s')
    (fun _ => doc_state keep L Ev).
Proof.
  intros Hsem Hs. apply spec_host; [now apply doc_state_logged|].
  intros a s1 _ Hs1. pose proof (Hsem _ _ _ Hs1) as ->.
  split; [now apply doc_state_returned|]. exists s. auto.
Qed.

(** Assigning a property of another object. *)
Lemma step_assign keep L Ev (c : call) obj (f : docobj -> docobj) s :
  (forall o, label (f o) = label o) ->
  apart keep obj ->
  doc_state keep L Ev s ->
  spec (host H c (assign obj f)) s
    (fun _ => doc_state keep L ((c, true) :: Ev))
    (fun _ => doc_state keep L Ev).
Proof.
  intros Hf Hobj Hs. apply spec_host; [now apply doc_state_logged|].
  intros [] s1 _ Hs1. apply assign_effect in Hs1 as (objs & Hd & _ & ->).
  apply (@doc_state_returned keep L Ev c true
           (set_document (Some (update obj f objs)) s)).
  destruct Hs as [(objs' & Hd' & Hl & Hk) He]. rewrite Hd in Hd'.
  injection Hd' as <-. split; [|exact He].
  exists (update obj f objs). simpl. split; [reflexivity|]. split.
  - now rewrite labels_update.
  - destruct keep as [[name o]|]; [|exact I].
    rewrite lookup_update_other; auto.
    intros o'. specialize (Hf o'). now injection Hf.
Qed.

Lemma step_addObject keep L Ev type name s :
  doc_state keep L Ev s ->
  spec (addObject H type name) s
    (fun n s' => n = uniqueName H (map fst L) name
                 /\ doc_state keep (L ++ [(n, type)])
                      ((AddObject type name, true) :: Ev) s')
    (fun _ => doc_state keep L Ev).
Proof.
  intros Hs. unfold addObject.
  apply spec_host; [now apply doc_state_logged|].
  destruct Hs as [(objs & Hd & Hl & Hk) He]. rewrite Hd.
  intros n s1 _ [= <- <-]. rewrite names_of_labels, Hl.
  split; [reflexivity|].
  match goal with
  | |- doc_state _ _ _ (logged _ _ ?st) =>
      apply (@doc_state_returned keep _ Ev (AddObject type name) true st)
  end.
  split; [|exact He].
  eexists. simpl. split; [reflexivity|]. split.
  - rewrite map_app, Hl. reflexivity.
  - destruct keep as [[kname o]|]; [|exact I]. now apply lookup_app_l.
Qed.

Lemma step_removeObject keep L Ev name s :
  apart keep name ->
  doc_state keep L Ev s ->
  spec (removeObject H name) s
    (fun _ => doc_state keep (without name L)
                ((RemoveObject name, true) :: Ev))
    (fun _ => doc_state keep L ((RemoveObject name, false) :: Ev)).
Proof.
  intros Hname Hs. unfold removeObject.
  apply spec_host; [now apply doc_state_returned|].
  destruct Hs as [(objs & Hd & Hl & Hk) He]. rewrite Hd.
  intros [] s1 _ Hs1. destruct (lookup name objs); [|discriminate].
  injection Hs1 as <-.
  match goal with
  | |- doc_state _ _ _ (logged _ _ ?st) =>
      apply (@doc_state_returned keep _ Ev (RemoveObject name) true st)
  end.
  split; [|exact He].
  eexists. simpl. split; [reflexivity|]. split.
  - now rewrite labels_remove, Hl.
  - destruct keep as [[kname o]|]; [|exact I].
    rewrite lookup_remove_other; auto.
Qed.

(** ** Under the laws of the host *)

Section Laws.

Hypothesis laws : HostLaws H.

(** The kept object holds a mesh. *)
Definition keeps_mesh (keep : option (string * docobj)) : Prop :=
  match keep with
  | Some (_, o) => has_Mesh o = true
  | None => True
  end.

Lemma step_recompute keep L Ev s :
  keeps_mesh keep ->
  doc_state keep L Ev s ->
  spec (doc_recompute H) s
    (fun _ => doc_state keep L ((Recompute, true) :: Ev))
    (fun _ => doc_state keep L Ev).
Proof.
  intros Hmesh Hs. unfold doc_recompute.
  apply spec_host; [now apply doc_state_logged|].
  destruct Hs as [(objs & Hd & Hl & Hk) He]. rewrite Hd.
  intros [] s1 _ [= <-].
  match goal with
  | |- doc_state _ _ _ (logged _ _ ?st) =>
      apply (@doc_state_returned keep _ Ev Recompute true st)
  end.
  split; [|exact He].
  eexists. simpl. split; [reflexivity|]. split.
  - now rewrite (recompute_labels laws).
  - destruct keep as [[kname o]|]; [|exact I].
    now apply (recompute_meshes laws).
Qed.

Lemma doc_state_events keep L Ev Ev' s :
  incl Ev' Ev -> doc_state keep L Ev s -> doc_state keep L Ev' s.
Proof. intros Hi [Hd He]. split; auto. Qed.

Lemma doc_state_kept_in keep L Ev s :
  doc_state keep L Ev s ->
  match keep with
  | Some (name, _) => In name (map fst L)
  | None => True
  end.
Proof.
  intros [(objs & _ & <- & Hk) _]. destruct keep as [[name o]|]; [|exact I].
  now apply lookup_some_in with o.
Qed.

(** A new object's name is not the one of the object kept. *)
Lemma apart_uniqueName keep L L' Ev s name :
  doc_state keep L Ev s ->
  apart keep (uniqueName H (map fst (L ++ L')) name).
Proof.
  intros Hs. apply doc_state_kept_in in Hs.
  destruct keep as [[kname o]|]; [|exact I]. simpl.
  intros Heq. apply (uniqueName_fresh laws (map fst (L ++ L')) name).
  rewrite Heq, map_app. apply in_or_app. now left.
Qed.

(** The three objects lines 263-275 add to a document with labels [L],
    under the names the host gives them. *)
Definition intermediates (L : list (string * string)) (base_name : string)
  : list (string * string) :=
  let n1 := uniqueName H (map fst L) (String.append base_name "_shape") in
  let L1 := L ++ [(n1, "Part::Feature"%string)] in
  let n2 := uniqueName H (map fst L1) (String.append base_name "_solid") in
  let L2 := L1 ++ [(n2, "Part::Feature"%string)] in
  let n3 := uniqueName H (map fst L2)
              (String.append base_name "_solid_refined") in
  [ (n1, "Part::Feature"); (n2, "Part::Feature"); (n3, "Part::Refine") ]
    %string.

Ltac read_step :=
  apply spec_bind; eapply spec_weaken;
    [ apply step_read; [ sem_cases; reflexivity | eassumption ] | | ].

Ltac assign_step :=
  apply spec_bind; eapply spec_weaken;
    [ apply step_assign; [ reflexivity | | eassumption ] | | ].

(** Lines 263-279. *)
Lemma build_intermediates_spec keep L Ev mesh_obj base_name s :
  keeps_mesh keep ->
  doc_state keep L Ev s ->
  spec (build_intermediates H mesh_obj base_name) s
    (fun objs s' =>
       map fst (intermediates L base_name)
       = [fst (fst objs); snd (fst objs); snd objs]
       /\ exists m,
            (forall o, keep = Some (mesh_obj, o) -> Mesh o = Some m)
            /\ doc_state keep (L ++ intermediates L base_name)
                 [(MakeShapeFromMesh m (1 # 10)%Q false, true)] s')
    (fun _ s' =>
       exists k,
         doc_state keep (L ++ firstn k (intermediates L base_name)) [] s').
Proof.
  intros Hmesh Hs. unfold build_intermediates.
  assert (Hraise : forall k Ev' s',
            doc_state keep (L ++ firstn k (intermediates L base_name)) Ev' s'
            -> exists k,
                 doc_state keep
                   (L ++ firstn k (intermediates L base_name)) [] s').
  { intros k Ev' s' Hs'. exists k.
    apply doc_state_events with Ev'; [intros ? []|exact Hs']. }
  unfold intermediates in *.
  set (n1 := uniqueName H (map fst L) (String.append base_name "_shape"))
    in *.
  set (L1 := L ++ [(n1, "Part::Feature"%string)]) in *.
  set (n2 := uniqueName H (map fst L1) (String.append base_name "_solid"))
    in *.
  set (L2 := L1 ++ [(n2, "Part::Feature"%string)]) in *.
  set (n3 := uniqueName H (map fst L2)
               (String.append base_name "_solid_refined")) in *.
  assert (Hn1 : apart keep n1).
  { unfold n1. rewrite <- (app_nil_r L).
    now apply apart_uniqueName with Ev s. }
  assert (Hn2 : apart keep n2) by (now apply apart_uniqueName with Ev s).
  assert (Hn3 : apart keep n3).
  { unfold n3, L2, L1. rewrite <- app_assoc.
    now apply apart_uniqueName with Ev s. }
  assert (E0 : forall Ev' s', doc_state keep L Ev' s' ->
                 exists k, doc_state keep (L ++ firstn k
                   [(n1, "Part::Feature"); (n2, "Part::Feature");
                    (n3, "Part::Refine")]%string) [] s').
  { intros Ev' s' Hs'. apply (Hraise 0%nat Ev'). simpl.
    now rewrite app_nil_r. }
  assert (E1 : forall Ev' s', doc_state keep L1 Ev' s' ->
                 exists k, doc_state keep (L ++ firstn k
                   [(n1, "Part::Feature"); (n2, "Part::Feature");
                    (n3, "Part::Refine")]%string) [] s').
  { intros Ev' s' Hs'. apply (Hraise 1%nat Ev'). exact Hs'. }
  assert (E2 : forall Ev' s', doc_state keep L2 Ev' s' ->
                 exists k, doc_state keep (L ++ firstn k
                   [(n1, "Part::Feature"); (n2, "Part::Feature");
                    (n3, "Part::Refine")]%string) [] s').
  { intros Ev' s' Hs'. apply (Hraise 2%nat Ev'). simpl.
    unfold L2, L1 in Hs'. now rewrite <- app_assoc in Hs'. }
  assert (E3 : forall Ev' s',
                 doc_state keep (L2 ++ [(n3, "Part::Refine"%string)]) Ev' s'
                 -> exists k, doc_state keep (L ++ firstn k
                   [(n1, "Part::Feature"); (n2, "Part::Feature");
                    (n3, "Part::Refine")]%string) [] s').
  { intros Ev' s' Hs'. apply (Hraise 3%nat Ev'). simpl.
    unfold L2, L1 in Hs'. now rewrite <- !app_assoc in Hs'. }
  clear Hraise.
  apply spec_bind. eapply spec_weaken; [apply step_addObject, Hs | | ];
    [ | intros ? ?; apply E0 ].
  clear Hs s. intros shape_obj s [-> Hs]. fold n1 L1 in Hs |- *.
  unfold new_Shape, get_Mesh, get_Topology, shape_makeShapeFromMesh,
    set_Shape, purgeTouched, get_Shape, shape_Faces, new_Shell, new_Solid,
    set_Source, set_Visibility.
  read_step; [ | intros ? ?; apply E1 ].
  clear Hs s. intros ? s [Hs _].
  read_step; [ | intros ? ?; apply E1 ].
  intros m s1 [Hs1 (s0 & Hsem & Hdoc)].
  assert (Hkept : forall o, keep = Some (mesh_obj, o) -> Mesh o = Some m).
  { intros o ->. apply get_Mesh_effect in Hsem as [Hm _].
    destruct Hs1 as [(objs & Hd & _ & Hk) _].
    unfold mesh_of, object_of in Hm. rewrite Hdoc, Hd, Hk in Hm.
    exact Hm. }
  clear Hs s s0 Hsem Hdoc. rename s1 into s, Hs1 into Hs.
  read_step; [ | intros ? ?; apply E1 ].
  intros topology s1 [Hs1 (s0 & [= <-] & _)].
  clear Hs s s0. rename s1 into s, Hs1 into Hs.
  read_step; [ | intros ? ?; apply E1 ].
  clear Hs s. intros sh s [Hs _].
  apply doc_state_events
    with (Ev' := [(MakeShapeFromMesh m (1 # 10)%Q false, true)])
    in Hs;
    [ | intros ? [<-|[]]; now left ].
  assign_step; [ exact Hn1 | | intros ? ?; apply E1 ].
  clear Hs s. intros ? s Hs. cbv beta in Hs.
  assign_step; [ exact Hn1 | | intros ? ?; apply E1 ].
  clear Hs s. intros ? s Hs. cbv beta in Hs.
  apply spec_bind. eapply spec_weaken; [apply step_addObject, Hs | | ];
    [ | intros ? ?; apply E1 ].
  clear Hs s. intros solid_obj s [-> Hs]. fold n2 L2 in Hs |- *.
  read_step; [ | intros ? ?; apply E2 ].
  clear Hs s. intros ? s [Hs _].
  read_step; [ | intros ? ?; apply E2 ].
  clear Hs s. intros ? s [Hs _].
  read_step; [ | intros ? ?; apply E2 ].
  clear Hs s. intros ? s [Hs _].
  read_step; [ | intros ? ?; apply E2 ].
  clear Hs s. intros ? s [Hs _].
  assign_step; [ exact Hn2 | | intros ? ?; apply E2 ].
  clear Hs s. intros ? s Hs. cbv beta in Hs.
  apply spec_bind. eapply spec_weaken; [apply step_addObject, Hs | | ];
    [ | intros ? ?; apply E2 ].
  clear Hs s. intros refined_obj s [-> Hs]. fold n3 in Hs |- *.
  assign_step; [ exact Hn3 | | intros ? ?; apply E3 ].
  clear Hs s. intros ? s Hs. cbv beta in Hs.
  assign_step; [ exact Hn2 | | intros ? ?; apply E3 ].
  clear Hs s. intros ? s Hs. cbv beta in Hs.
  apply spec_bind. eapply spec_weaken;
    [ apply step_recompute; [exact Hmesh | exact Hs] | | ];
    [ | intros ? ?; apply E3 ].
  clear Hs s. intros ? s Hs. cbv beta in Hs.
  split; [reflexivity|]. exists m. split; [exact Hkept|].
  unfold L2, L1 in Hs. rewrite <- !app_assoc in Hs. simpl in Hs.
  apply doc_state_events with (2 := Hs).
  intros c [<-|[]]. simpl. tauto.
Qed.

(** *** The evaluation keeps every object's name and type *)

Definition labels_are (L : option (list (string * string))) (s : state)
  : Prop :=
  labels s = L.

Lemma labels_assign obj (f : docobj -> docobj) (s : state) a s1 :
  (forall o, label (f o) = label o) ->
  assign obj f s = Some (a, s1) -> labels s1 = labels s.
Proof.
  intros Hf Hs1. apply assign_effect in Hs1 as (objs & Hd & _ & ->).
  unfold labels. simpl. rewrite Hd. simpl. now rewrite labels_update.
Qed.

Lemma labels_recompute (s : state) objs :
  ActiveDocument s = Some objs ->
  labels (set_document (Some (recompute H objs)) s) = labels s.
Proof.
  intros Hd. unfold labels. simpl. rewrite Hd. simpl.
  now rewrite (recompute_labels laws).
Qed.

Ltac labels_side :=
  first
    [ solve [ intros; assumption ]
    | solve [ unfold labels_are; intros;
              match goal with
              | Hs : assign ?obj ?f ?s = Some _ |- _ =>
                  rewrite (@labels_assign obj f s _ _ (fun o => eq_refl) Hs);
                  assumption
              end ]
    | solve [ unfold labels_are; sem_cases;
              first [ assumption
                    | rewrite labels_recompute; assumption ] ] ].

Lemma labels_repair L mesh_obj :
  preserves (labels_are L) (attempt_comprehensive_manual_repair H mesh_obj).
Proof.
  unfold attempt_comprehensive_manual_repair, repair_body, repair_passes,
    priority_pass, general_repair, fill_small_holes, write_back_and_check,
    diagnostic.
  unfold_host_calls.
  preserving fail labels_side.
Qed.

Lemma labels_evaluate L selected_mesh :
  preserves (labels_are L) (evaluate_mesh_automated H selected_mesh).
Proof.
  unfold evaluate_mesh_automated, evaluation_queries, evaluation_decision,
    attempt_mesh_repair.
  unfold_host_calls.
  preserving ltac:(apply labels_repair) labels_side.
Qed.

(** *** The conversion proper *)

Lemma refined_is_valid_spec keep L Ev refined_obj s :
  doc_state keep L Ev s ->
  spec (refined_is_valid H refined_obj) s
    (fun _ => doc_state keep L Ev) (fun _ => doc_state keep L Ev).
Proof.
  intros Hs. unfold refined_is_valid, get_Shape, shape_isValid.
  assert (Hw : forall ev Ev' s', doc_state keep L (ev :: Ev') s' ->
                                doc_state keep L Ev' s').
  { intros ev Ev' s'. apply doc_state_events. intros x Hx. now right. }
  read_step; [ | auto ].
  intros sh s1 [H1 _]. apply Hw in H1.
  destruct (truthy H sh); [|exact H1].
  read_step; [ | auto ].
  intros sh' s2 [H2 _]. apply Hw in H2.
  eapply spec_weaken;
    [ apply step_read; [ sem_cases; reflexivity | exact H2 ] | | auto ].
  intros valid s3 [H3 _]. now apply Hw in H3.
Qed.

Lemma without_cons name (p : string * string) T :
  without name (p :: T)
  = if String.eqb (fst p) name then without name T
    else p :: without name T.
Proof. unfold without. simpl. now destruct (String.eqb (fst p) name). Qed.

Lemma fresh_eqb used name other :
  In other used ->
  String.eqb other (uniqueName H used name) = false.
Proof.
  intros Hin. apply String.eqb_neq. intros ->.
  now apply (uniqueName_fresh laws used name).
Qed.

Lemma fresh_notin (L L' : list (string * string)) name :
  ~ In (uniqueName H (map fst (L ++ L')) name) (map fst L).
Proof.
  intros Hin. apply (uniqueName_fresh laws (map fst (L ++ L')) name).
  rewrite map_app in *. apply in_or_app. now left.
Qed.

(** Lines 282-304. *)
Lemma create_body_spec L Ev mesh_obj base_name objs base_transaction s :
  In mesh_obj (map fst L) ->
  map fst (intermediates L base_name)
  = [fst (fst objs); snd (fst objs); snd objs] ->
  doc_state None (L ++ intermediates L base_name) Ev s ->
  spec (create_body H mesh_obj base_name objs base_transaction) s
    (fun res s' =>
       exists simple body,
         res = (true, Some body)
         /\ ~ In simple (map fst L)
         /\ ~ In body (map fst L)
         /\ simple <> body
         /\ doc_state None
              (without mesh_obj L
               ++ [(simple, "Part::Feature"); (body, "PartDesign::Body")]
                    %string)
              ((SetBaseFeature body simple, true) :: Ev) s')
    (fun _ _ => True).
Proof.
  intros Hmesh Hobjs Hs. destruct objs as [[shape_obj solid_obj] refined_obj].
  unfold intermediates in *.
  set (n1 := uniqueName H (map fst L) (String.append base_name "_shape"))
    in *.
  set (L1 := L ++ [(n1, "Part::Feature"%string)]) in *.
  set (n2 := uniqueName H (map fst L1) (String.append base_name "_solid"))
    in *.
  set (L2 := L1 ++ [(n2, "Part::Feature"%string)]) in *.
  set (n3 := uniqueName H (map fst L2)
               (String.append base_name "_solid_refined")) in *.
  simpl in Hobjs. injection Hobjs as <- <- <-.
  set (L3 := L ++ [(n1, "Part::Feature"); (n2, "Part::Feature");
                   (n3, "Part::Refine")]%string) in *.
  unfold create_body.
  apply spec_bind. eapply spec_weaken; [apply step_addObject, Hs | | auto].
  clear Hs s. intros simple s [-> Hs].
  set (n4 := uniqueName H (map fst L3)
               (String.append base_name "_solid_simple")) in *.
  unfold get_Shape, set_Shape, set_BaseFeature, set_Visibility.
  read_step; [ | auto ].
  clear Hs s. intros sh s [Hs _].
  assign_step; [ exact I | | auto ].
  clear Hs s. intros ? s Hs. cbv beta in Hs.
  apply spec_bind. eapply spec_weaken; [apply step_addObject, Hs | | auto].
  clear Hs s. intros body s [-> Hs].
  set (n5 := uniqueName H (map fst (L3 ++ [(n4, "Part::Feature"%string)]))
               (String.append base_name "_Body")) in *.
  assign_step; [ exact I | | auto ].
  clear Hs s. intros ? s Hs. cbv beta in Hs.
  apply doc_state_events
    with (Ev' := (SetBaseFeature n5 n4, true) :: Ev) in Hs.
  2:{ intros c [<-|Hc]; [now left|]. right. right. right. right.
      now right. }
  assign_step; [ exact I | | auto ].
  clear Hs s. intros ? s Hs. cbv beta in Hs.
  apply spec_bind.
  eapply spec_weaken;
    [eapply step_removeObject; [ | exact Hs ]; exact I | | auto].
  clear Hs s. intros ? s Hs. cbv beta in Hs.
  apply spec_bind.
  eapply spec_weaken;
    [eapply step_removeObject; [ | exact Hs ]; exact I | | auto].
  clear Hs s. intros ? s Hs. cbv beta in Hs.
  apply spec_bind.
  eapply spec_weaken;
    [eapply step_removeObject; [ | exact Hs ]; exact I | | auto].
  clear Hs s. intros ? s Hs. cbv beta in Hs.
  apply spec_bind.
  eapply spec_weaken;
    [eapply step_removeObject; [ | exact Hs ]; exact I | | auto].
  clear Hs s. intros ? s Hs. cbv beta in Hs.
  apply spec_bind.
  eapply spec_weaken;
    [eapply step_recompute; [ | exact Hs ]; exact I | | auto].
  clear Hs s. intros ? s Hs. cbv beta in Hs.
  apply doc_state_events
    with (Ev' := (SetBaseFeature n5 n4, true) :: Ev) in Hs.
  2:{ intros c Hc. do 6 right. exact Hc. }
  assert (Hlabels :
            without mesh_obj
              (without n3 (without n2 (without n1
                 ((L3 ++ [(n4, "Part::Feature"%string)])
                  ++ [(n5, "PartDesign::Body"%string)]))))
            = without mesh_obj L
              ++ [(n4, "Part::Feature"); (n5, "PartDesign::Body")]%string).
  { unfold L3. rewrite <- !app_assoc. simpl app.
    assert (F1 : ~ In n1 (map fst L)) by apply (uniqueName_fresh laws).
    assert (F2 : ~ In n2 (map fst L)) by apply fresh_notin.
    assert (F3 : ~ In n3 (map fst L))
      by (unfold n3, L2, L1; rewrite <- app_assoc; apply fresh_notin).
    assert (F4 : ~ In n4 (map fst L)) by apply fresh_notin.
    assert (F5 : ~ In n5 (map fst L))
      by (unfold n5, L3; rewrite <- app_assoc; apply fresh_notin).
    assert (E12 : String.eqb n1 n2 = false).
    { apply fresh_eqb. unfold L1. rewrite map_app. apply in_or_app.
      right. now left. }
    assert (E13 : String.eqb n1 n3 = false).
    { apply fresh_eqb. unfold L2, L1. rewrite !map_app.
      apply in_or_app. left. apply in_or_app. right. now left. }
    assert (E23 : String.eqb n2 n3 = false).
    { apply fresh_eqb. unfold L2. rewrite map_app. apply in_or_app.
      right. now left. }
    assert (E14 : String.eqb n1 n4 = false).
    { apply fresh_eqb. unfold L3. rewrite map_app. apply in_or_app.
      right. simpl. tauto. }
    assert (E24 : String.eqb n2 n4 = false).
    { apply fresh_eqb. unfold L3. rewrite map_app. apply in_or_app.
      right. simpl. tauto. }
    assert (E34 : String.eqb n3 n4 = false).
    { apply fresh_eqb. unfold L3. rewrite map_app. apply in_or_app.
      right. simpl. tauto. }
    assert (E15 : String.eqb n1 n5 = false).
    { apply fresh_eqb. unfold L3. rewrite !map_app. apply in_or_app.
      left. apply in_or_app. right. simpl. tauto. }
    assert (E25 : String.eqb n2 n5 = false).
    { apply fresh_eqb. unfold L3. rewrite !map_app. apply in_or_app.
      left. apply in_or_app. right. simpl. tauto. }
    assert (E35 : String.eqb n3 n5 = false).
    { apply fresh_eqb. unfold L3. rewrite !map_app. apply in_or_app.
      left. apply in_or_app. right. simpl. tauto. }
    assert (E4 : String.eqb n4 mesh_obj = false).
    { rewrite String.eqb_sym. apply fresh_eqb. unfold L3.
      rewrite map_app. apply in_or_app. now left. }
    assert (E5 : String.eqb n5 mesh_obj = false).
    { rewrite String.eqb_sym. apply fresh_eqb. unfold L3.
      rewrite !map_app. apply in_or_app. left. apply in_or_app. now left. }
    rewrite (without_app n1), (without_notin _ _ F1).
    rewrite !without_cons. simpl fst.
    rewrite String.eqb_refl, (String.eqb_sym n2 n1), E12,
      (String.eqb_sym n3 n1), E13, (String.eqb_sym n4 n1), E14,
      (String.eqb_sym n5 n1), E15.
    rewrite (without_app n2), (without_notin _ _ F2).
    rewrite !without_cons. simpl fst.
    rewrite String.eqb_refl, (String.eqb_sym n3 n2), E23,
      (String.eqb_sym n4 n2), E24, (String.eqb_sym n5 n2), E25.
    rewrite (without_app n3), (without_notin _ _ F3).
    rewrite !without_cons. simpl fst.
    rewrite String.eqb_refl, (String.eqb_sym n4 n3), E34,
      (String.eqb_sym n5 n3), E35.
    rewrite (without_app mesh_obj). rewrite !without_cons. simpl fst.
    rewrite E4, E5. reflexivity. }
  rewrite Hlabels in Hs.
  assert (F4 : ~ In n4 (map fst L)) by apply fresh_notin.
  assert (F5 : ~ In n5 (map fst L))
    by (unfold n5, L3; rewrite <- app_assoc; apply fresh_notin).
  assert (N45 : n4 <> n5).
  { apply String.eqb_neq. apply fresh_eqb. rewrite map_app.
    apply in_or_app. right. now left. }
  apply spec_bind. eapply spec_intro_ok; [reflexivity|].
  apply spec_bind.
  destruct base_transaction; simpl.
  - eapply spec_intro_ok; [reflexivity|].
    eapply spec_intro_ok; [reflexivity|].
    exists n4, n5. repeat split; auto; apply Hs.
  - eapply spec_intro_ok; [reflexivity|].
    eapply spec_intro_ok; [reflexivity|].
    exists n4, n5. split; [reflexivity|].
    split; [exact F4 | split; [exact F5 | split; [exact N45|]]].
    apply doc_state_logged, doc_state_printed, Hs.
Qed.

(** *** The clean-up of the [except] clause *)

Lemma append_inj (base a b : string) :
  String.append base a = String.append base b -> a = b.
Proof.
  induction base as [|c base IH]; simpl; [auto|].
  intros [= Heq]. auto.
Qed.

(** When the four pattern names are free, the intermediate objects get
    the names asked for. *)
Lemma intermediates_free L base_name :
  (forall n, In n (temp_names base_name) -> ~ In n (map fst L)) ->
  intermediates L base_name
  = [ (String.append base_name "_shape", "Part::Feature");
      (String.append base_name "_solid", "Part::Feature");
      (String.append base_name "_solid_refined", "Part::Refine") ]%string.
Proof.
  intros Hfree. unfold intermediates.
  assert (H1 : uniqueName H (map fst L) (String.append base_name "_shape")
               = String.append base_name "_shape").
  { apply (uniqueName_free laws), Hfree. simpl. tauto. }
  rewrite H1.
  assert (H2 : uniqueName H
                 (map fst (L ++ [(String.append base_name "_shape",
                                  "Part::Feature"%string)]))
                 (String.append base_name "_solid")
               = String.append base_name "_solid").
  { apply (uniqueName_free laws). rewrite map_app. intros Hin.
    apply in_app_or in Hin as [Hin|[Hin|[]]].
    - apply (Hfree (String.append base_name "_solid")); simpl; tauto.
    - apply append_inj in Hin. discriminate Hin. }
  rewrite H2.
  assert (H3 : uniqueName H
                 (map fst ((L ++ [(String.append base_name "_shape",
                                   "Part::Feature"%string)])
                           ++ [(String.append base_name "_solid",
                                "Part::Feature"%string)]))
                 (String.append base_name "_solid_refined")
               = String.append base_name "_solid_refined").
  { apply (uniqueName_free laws). rewrite !map_app. intros Hin.
    apply in_app_or in Hin as [Hin|[Hin|[]]];
      [apply in_app_or in Hin as [Hin|[Hin|[]]]|].
    - apply (Hfree (String.append base_name "_solid_refined"));
        simpl; tauto.
    - apply append_inj in Hin. discriminate Hin.
    - apply append_inj in Hin. discriminate Hin. }
  rewrite H3. reflexivity.
Qed.

Section Cleanup.

(** A host whose [getObject] does not raise. *)
Hypothesis getObject_returns :
  forall s name, raises H s (GetObject name) = false.

(** Lines 311-316: the names among [names] that the document has. *)
Lemma existing_objects_spec keep L Ev names s :
  doc_state keep L Ev s ->
  spec (existing_objects H names) s
    (fun found s' =>
       (forall n, In n found <-> In n names /\ In n (map fst L))
       /\ doc_state keep L Ev s')
    (fun _ _ => False).
Proof.
  revert s. induction names as [|name rest IH]; intros s Hs.
  - simpl. split; [|exact Hs]. intros n. simpl. tauto.
  - simpl existing_objects. apply spec_bind.
    unfold spec at 1, getObject, host. rewrite getObject_returns.
    pose proof Hs as [(objs & Hd & Hl & _) _]. rewrite Hd.
    apply spec_bind.
    eapply spec_weaken;
      [ apply IH, doc_state_logged, Hs | | intros ? ? [] ].
    intros found s1 [Hfound H1]. split; [|exact H1].
    intros n. destruct (lookup name objs) as [o|] eqn:Hlook.
    + apply lookup_some_in in Hlook. rewrite Hl in Hlook.
      simpl. rewrite Hfound. split.
      * intros [<-|[Hn1 Hn2]]; auto.
      * intros [[<-|Hn1] Hn2]; auto.
    + apply lookup_none_notin in Hlook. rewrite Hl in Hlook.
      rewrite Hfound. simpl. split.
      * intros [Hn1 Hn2]; auto.
      * intros [[<-|Hn1] Hn2]; [contradiction | auto].
Qed.

End Cleanup.

(** Lines 318-322: every name is tried; an object stays only when its
    removal raised. *)
Lemma remove_all_spec keep L todo :
  (forall n, In n todo -> ~ In n (map fst L) /\ apart keep n) ->
  forall X Ev s,
    doc_state keep (L ++ X) Ev s ->
    spec (for_each todo (fun obj_name =>
            try (removeObject H obj_name) except (fun _ => ret tt))) s
      (fun _ s' =>
         exists X' Ev',
           doc_state keep (L ++ X') Ev' s'
           /\ incl Ev Ev'
           /\ forall p, In p X' ->
                In p X
                /\ (~ In (fst p) todo
                    \/ In (RemoveObject (fst p), false) Ev'))
      (fun _ _ => False).
Proof.
  induction todo as [|n todo IH]; intros Htodo X Ev s Hs.
  - simpl. exists X, Ev. split; [exact Hs|].
    split; [apply incl_refl|]. intros p Hp. tauto.
  - simpl for_each. destruct (Htodo n (or_introl eq_refl)) as [Hfree Hapart].
    assert (Htodo' : forall n', In n' todo ->
                       ~ In n' (map fst L) /\ apart keep n')
      by (intros n' Hn'; apply Htodo; now right).
    apply spec_bind, spec_try.
    eapply spec_weaken;
      [ apply step_removeObject; [exact Hapart | exact Hs] | | ].
    + intros [] s1 H1.
      rewrite without_app, (without_notin _ _ Hfree) in H1.
      eapply spec_weaken; [ apply (IH Htodo' _ _ _ H1) | | intros ? ? [] ].
      intros [] s2 (X' & Ev' & H2 & Hincl & HX'). exists X', Ev'.
      split; [exact H2|]. split.
      { intros ev Hev. apply Hincl. now right. }
      intros p Hp. destruct (HX' p Hp) as [Hin Hor].
      unfold without in Hin. apply filter_In in Hin as [Hin Hne].
      split; [exact Hin|]. destruct Hor as [Hnot|Hr]; [left|now right].
      intros [->|Hin']; [|contradiction].
      now rewrite String.eqb_refl in Hne.
    + intros e s1 H1. eapply spec_intro_ok; [reflexivity|].
      eapply spec_weaken; [ apply (IH Htodo' _ _ _ H1) | | intros ? ? [] ].
      intros [] s2 (X' & Ev' & H2 & Hincl & HX'). exists X', Ev'.
      split; [exact H2|]. split.
      { intros ev Hev. apply Hincl. now right. }
      intros p Hp. destruct (HX' p Hp) as [Hin Hor].
      split; [exact Hin|]. destruct Hor as [Hnot|Hr]; [|now right].
      destruct (String.eqb (fst p) n) eqn:Hpn.
      * apply String.eqb_eq in Hpn. right. apply Hincl. left.
        now rewrite Hpn.
      * left. intros [->|Hin']; [|contradiction].
        now rewrite String.eqb_refl in Hpn.
Qed.

Lemma in_firstn {A : Type} (x : A) k (l : list A) :
  In x (firstn k l) -> In x l.
Proof.
  revert l. induction k as [|k IH]; intros [|y l]; simpl; try tauto.
  intros [->|Hin]; auto.
Qed.

Section Recovery.

Hypothesis getObject_returns :
  forall s name, raises H s (GetObject name) = false.

(** Lines 309-328, entered with some of the intermediate objects made:
    each of them is removed unless its removal raises, nothing else is
    touched, and the function returns [(False, None)]. *)
Lemma cleanup_spec keep L k Ev mesh_obj base_name base_transaction s :
  (forall n, In n (temp_names base_name) ->
             ~ In n (map fst L) /\ apart keep n) ->
  doc_state keep (L ++ firstn k (intermediates L base_name)) Ev s ->
  spec (cleanup_on_error H mesh_obj base_name base_transaction) s
    (fun res s' =>
       res = (false, None)
       /\ exists leftover Ev',
            doc_state keep (L ++ leftover) Ev' s'
            /\ forall p, In p leftover ->
                 In (fst p) (temp_names base_name)
                 /\ In (RemoveObject (fst p), false) Ev')
    (fun _ _ => False).
Proof.
  intros Hfree Hs. unfold cleanup_on_error.
  assert (Hcreated : forall p,
            In p (firstn k (intermediates L base_name)) ->
            In (fst p) (temp_names base_name)).
  { intros p Hp. apply in_firstn in Hp.
    rewrite intermediates_free in Hp by (intros n Hn; apply Hfree, Hn).
    simpl in Hp. simpl.
    destruct Hp as [<-|[<-|[<-|[]]]]; simpl; tauto. }
  apply spec_bind.
  eapply spec_weaken;
    [ apply (existing_objects_spec getObject_returns), Hs
    | | intros ? ? [] ].
  intros found s1 [Hfound H1].
  apply spec_bind.
  eapply spec_weaken; [ apply remove_all_spec with (2 := H1) | | intros ? ? [] ].
  { intros n Hn. apply Hfree, Hfound, Hn. }
  intros [] s2 (X' & Ev' & H2 & _ & HX').
  assert (Hleft : forall p, In p X' ->
            In (fst p) (temp_names base_name)
            /\ In (RemoveObject (fst p), false) Ev').
  { intros p Hp. destruct (HX' p Hp) as [Hin Hor].
    split; [now apply Hcreated|].
    destruct Hor as [Hnot|Hr]; [|exact Hr]. destruct Hnot.
    apply Hfound. split; [now apply Hcreated|].
    rewrite map_app. apply in_or_app. right. now apply in_map. }
  apply spec_bind.
  destruct base_transaction; simpl.
  - eapply spec_intro_ok; [reflexivity|].
    apply spec_bind. eapply spec_intro_ok; [reflexivity|].
    eapply spec_intro_ok; [reflexivity|].
    split; [reflexivity|]. exists X', Ev'.
    split; [|exact Hleft]. apply doc_state_printed, H2.
  - eapply spec_intro_ok; [reflexivity|].
    apply spec_bind. eapply spec_intro_ok; [reflexivity|].
    eapply spec_intro_ok; [reflexivity|].
    split; [reflexivity|]. exists X', Ev'.
    split; [|exact Hleft]. apply doc_state_printed, doc_state_logged, H2.
Qed.

End Recovery.

End Laws.

(** ** The transaction calls of a conversion *)

Lemma spec_seq_preserved {A B : Type} (P : state -> Prop) (c : comp A)
  (k : A -> comp B) s (Q : B -> state -> Prop) (E : exn -> state -> Prop) :
  preserves P c -> P s ->
  (forall a s1, P s1 -> spec (k a) s1 Q E) ->
  (forall e s1, P s1 -> E e s1) ->
  spec (bind c k) s Q E.
Proof.
  intros Hc Hs Hk HE. apply spec_bind.
  apply spec_preserved with (P := P); auto.
Qed.

Lemma txn_is_logged T (c : call) b (s : state) :
  txn_is T s ->
  txn_is (T ++ (if is_transaction c then [c] else [])) (logged c b s).
Proof.
  unfold txn_is. intros <-. simpl. rewrite transactions_app.
  unfold transactions at 2. simpl. now destruct (is_transaction c).
Qed.

Lemma txn_build T mesh_obj base_name :
  preserves (txn_is T) (build_intermediates H mesh_obj base_name).
Proof.
  unfold build_intermediates. unfold_host_calls. preserving fail side.
Qed.

Lemma txn_refined_is_valid T refined_obj :
  preserves (txn_is T) (refined_is_valid H refined_obj).
Proof.
  unfold refined_is_valid. unfold_host_calls. preserving fail side.
Qed.

Ltac txn_chain T :=
  repeat (apply spec_seq_preserved with (P := txn_is T);
          [ solve [ unfold_host_calls; preserving fail side ]
          | assumption
          | intros
          | intros; assumption ]).

(** Lines 260-307: the only transaction call is the commit, the last
    call of a conversion that succeeds. *)
Lemma txn_conversion T mesh_obj base_name base_transaction s :
  txn_is T s ->
  spec (conversion H mesh_obj base_name base_transaction) s
    (fun _ => txn_is (T ++ if base_transaction then []
                           else [CommitTransaction]))
    (fun _ => txn_is T).
Proof.
  intros Hs. unfold conversion.
  apply spec_seq_preserved with (P := txn_is T);
    [ apply txn_build | exact Hs | | auto ].
  clear Hs s. intros [[shape_obj solid_obj] refined_obj] s Hs.
  apply spec_seq_preserved with (P := txn_is T);
    [ apply txn_refined_is_valid | exact Hs | | auto ].
  clear Hs s. intros valid s Hs.
  destruct valid; [|exact Hs].
  unfold create_body. txn_chain T.
  destruct base_transaction; simpl.
  - apply spec_bind. eapply spec_intro_ok; [reflexivity|].
    eapply spec_intro_ok; [reflexivity|]. now rewrite app_nil_r.
  - apply spec_bind. eapply spec_intro_ok; [reflexivity|].
    eapply spec_intro_ok; [reflexivity|].
    now apply (txn_is_logged CommitTransaction true).
Qed.

(** Lines 309-328: the only transaction call is the abort. *)
Lemma txn_cleanup T mesh_obj base_name base_transaction s :
  txn_is T s ->
  spec (cleanup_on_error H mesh_obj base_name base_transaction) s
    (fun _ => txn_is (T ++ if base_transaction then []
                           else [AbortTransaction]))
    (fun _ => txn_is T).
Proof.
  intros Hs. unfold cleanup_on_error.
  apply spec_seq_preserved with (P := txn_is T);
    [ apply txn_existing_objects | exact Hs | | auto ].
  clear Hs s. intros temp_objects s Hs.
  apply spec_seq_preserved with (P := txn_is T);
    [ unfold_host_calls; preserving fail side | exact Hs | | auto ].
  clear Hs s. intros ? s Hs.
  destruct base_transaction; simpl.
  - apply spec_bind. eapply spec_intro_ok; [reflexivity|].
    apply spec_bind. eapply spec_intro_ok; [reflexivity|].
    eapply spec_intro_ok; [reflexivity|]. now rewrite app_nil_r.
  - apply spec_bind. eapply spec_intro_ok; [reflexivity|].
    apply spec_bind. eapply spec_intro_ok; [reflexivity|].
    eapply spec_intro_ok; [reflexivity|].
    now apply (txn_is_logged AbortTransaction true).
Qed.

(** ** Converting one mesh *)

Lemma cleanup_returns_failure mesh_obj base_name base_transaction s r s' :
  cleanup_on_error H mesh_obj base_name base_transaction s = Ok r s' ->
  r = (false, None).
Proof.
  unfold cleanup_on_error. intros Hrun.
  apply bind_inv_ok in Hrun as (? & ? & _ & Hrun).
  apply bind_inv_ok in Hrun as (? & ? & _ & Hrun).
  apply bind_inv_ok in Hrun as (? & ? & _ & Hrun).
  apply bind_inv_ok in Hrun as (? & ? & _ & Hrun).
  now injection Hrun as <-.
Qed.

Lemma evaluation_gate_stopped mesh_obj base_transaction s r s1 :
  evaluation_gate H mesh_obj base_transaction s = Ok (Some r) s1 ->
  r = (false, None).
Proof.
  unfold evaluation_gate. intros Hrun.
  apply try_inv_ok in Hrun as [Hrun|(e & s2 & _ & Hh)];
    [|discriminate Hh].
  apply bind_inv_ok in Hrun as (res & s0 & _ & Hrun).
  destruct (negb (String.eqb res "proceed")).
  - apply bind_inv_ok in Hrun as (? & ? & _ & Hrun). now injection Hrun.
  - apply bind_inv_ok in Hrun as (? & ? & _ & Hrun). discriminate Hrun.
Qed.

(** Lines 246-258: the opening of the transaction and the evaluation. *)
Definition opening (mesh_obj : string) (base_transaction : bool)
  : comp (option (bool * option string)) :=
  bind (when (negb base_transaction)
          (openTransaction (String.append "Convert Mesh: " mesh_obj)))
       (fun _ => evaluation_gate H mesh_obj base_transaction).

(** The state in which the conversion proper starts: the transaction is
    open unless the caller owns it, and the evaluation said
    ['proceed']. *)
Definition conversion_starts (mesh_obj : string) (base_transaction : bool)
  (s s1 : state) : Prop :=
  opening mesh_obj base_transaction s = Ok None s1.

Lemma convert_after_gate mesh_obj base_transaction s s1 :
  conversion_starts mesh_obj base_transaction s s1 ->
  convert_single_mesh H mesh_obj base_transaction s
  = try_except (conversion H mesh_obj mesh_obj base_transaction)
      (fun _ => cleanup_on_error H mesh_obj mesh_obj base_transaction) s1.
Proof.
  unfold conversion_starts, opening, convert_single_mesh. intros Hstart.
  apply bind_inv_ok in Hstart as ([] & s0 & Hopen & Hgate).
  erewrite bind_ok; [|exact Hopen].
  erewrite bind_ok; [|exact Hgate]. reflexivity.
Qed.

Lemma convert_inv_success mesh_obj base_transaction s body s' :
  convert_single_mesh H mesh_obj base_transaction s = Ok (true, body) s' ->
  exists s1,
    conversion_starts mesh_obj base_transaction s s1
    /\ conversion H mesh_obj mesh_obj base_transaction s1
       = Ok (true, body) s'.
Proof.
  unfold convert_single_mesh. intros Hrun.
  apply bind_inv_ok in Hrun as ([] & s0 & Hopen & Hrun).
  apply bind_inv_ok in Hrun as (early & s1 & Hgate & Hrun).
  destruct early as [r|].
  - apply evaluation_gate_stopped in Hgate. subst r. discriminate Hrun.
  - exists s1. split.
    + unfold conversion_starts, opening. erewrite bind_ok; [|exact Hopen].
      exact Hgate.
    + apply try_inv_ok in Hrun as [Hrun|(e & s2 & _ & Hh)]; [exact Hrun|].
      apply cleanup_returns_failure in Hh. discriminate Hh.
Qed.

(** What the start of the conversion proper knows. *)
Lemma conversion_starts_facts (laws : HostLaws H) mesh_obj base_transaction
  s s1 :
  conversion_starts mesh_obj base_transaction s s1 ->
  labels s1 = labels s
  /\ (exists o m, object_of mesh_obj s1 = Some o /\ Mesh o = Some m)
  /\ transactions (trace s1)
     = transactions (trace s)
       ++ (if base_transaction then []
           else [OpenTransaction (String.append "Convert Mesh: " mesh_obj)]).
Proof.
  unfold conversion_starts, opening. intros Hstart.
  apply bind_inv_ok in Hstart as ([] & s0 & Hopen & Hgate).
  apply evaluation_gate_passed in Hgate as (s2 & Heval & ->).
  assert (H0 : labels s0 = labels s
               /\ transactions (trace s0)
                  = transactions (trace s)
                    ++ (if base_transaction then []
                        else [OpenTransaction
                                (String.append "Convert Mesh: " mesh_obj)])).
  { destruct base_transaction; simpl in Hopen; injection Hopen as <-.
    - now rewrite app_nil_r.
    - split; [reflexivity|].
      apply (txn_is_logged (OpenTransaction _) true (s := s)). reflexivity. }
  destruct H0 as [Hl0 Ht0]. split; [|split].
  - rewrite <- Hl0.
    apply (spec_ok _ _ _ _ Heval (labels_evaluate laws mesh_obj eq_refl)).
  - apply evaluate_proceed_mesh in Heval as (m & Hm).
    unfold mesh_of in Hm.
    change (object_of mesh_obj (printed _ s2)) with (object_of mesh_obj s2).
    destruct (object_of mesh_obj s2) as [o|]; [eauto | discriminate].
  - rewrite <- Ht0.
    apply (spec_ok _ _ _ _ Heval (txn_evaluate mesh_obj eq_refl)).
Qed.

Lemma doc_state_of_labels mesh_obj (s : state) L o :
  labels s = Some L -> object_of mesh_obj s = Some o ->
  doc_state (Some (mesh_obj, o)) L [] s.
Proof.
  unfold labels, object_of.
  destruct (ActiveDocument s) as [objs|] eqn:Hd; [|discriminate].
  simpl. intros [= <-] Ho. split; [|intros ? []]. exists objs.
  split; [exact Hd | split; [reflexivity | exact Ho]].
Qed.

Lemma labels_of_doc_state keep L Ev (s : state) :
  doc_state keep L Ev s -> labels s = Some L.
Proof.
  intros [(objs & Hd & <- & _) _]. unfold labels. now rewrite Hd.
Qed.

Lemma object_of_doc_state mesh_obj o L Ev (s : state) :
  doc_state (Some (mesh_obj, o)) L Ev s -> object_of mesh_obj s = Some o.
Proof.
  intros [(objs & Hd & _ & Ho) _]. unfold object_of. now rewrite Hd.
Qed.


(** The conversion proper fails at or before the check of the refined
    shape (lines 263-281 and 307): building the intermediate objects
    raises, or the check raises, or it finds the shape invalid. *)
Definition fails_before_the_body (mesh_obj : string) (s1 : state) : Prop :=
  match build_intermediates H mesh_obj mesh_obj s1 with
  | Raise _ _ => True
  | Ok objs s2 =>
      match refined_is_valid H (snd objs) s2 with
      | Raise _ _ => True
      | Ok valid _ => valid = false
      end
  end.

Lemma conversion_fails (laws : HostLaws H) mesh_obj base_transaction
  o L T s1 :
  fails_before_the_body mesh_obj s1 ->
  keeps_mesh (Some (mesh_obj, o)) ->
  doc_state (Some (mesh_obj, o)) L [] s1 ->
  txn_is T s1 ->
  exists e s2 k,
    conversion H mesh_obj mesh_obj base_transaction s1 = Raise e s2
    /\ doc_state (Some (mesh_obj, o))
         (L ++ firstn k (intermediates L mesh_obj)) [] s2
    /\ txn_is T s2.
Proof.
  intros Hfails Hkeep Hs1 Ht1. unfold fails_before_the_body in Hfails.
  unfold conversion.
  pose proof (@build_intermediates_spec laws (Some (mesh_obj, o)) L []
                mesh_obj mesh_obj s1 Hkeep Hs1) as Hb.
  pose proof (@txn_build T mesh_obj mesh_obj s1 Ht1) as Htb.
  unfold spec in Hb, Htb.
  destruct (build_intermediates H mesh_obj mesh_obj s1)
    as [objs s2|e s2] eqn:Hbuild.
  - destruct Hb as (_ & m & _ & H2).
    apply doc_state_events with (Ev' := []) in H2; [|intros ? []].
    pose proof (refined_is_valid_spec (snd objs) H2) as Hv.
    pose proof (@txn_refined_is_valid T (snd objs) s2 Htb) as Htv.
    unfold spec in Hv, Htv.
    erewrite bind_ok; [|exact Hbuild].
    destruct (refined_is_valid H (snd objs) s2)
      as [valid s3|e s3] eqn:Hvalid.
    + subst valid. erewrite bind_ok; [|exact Hvalid].
      eexists; exists s3, 3%nat. split; [reflexivity|]. split; auto.
    + erewrite bind_raise; [|exact Hvalid].
      exists e, s3, 3%nat. split; [reflexivity|]. split; auto.
  - destruct Hb as (k & H2). exists e, s2, k.
    split; [now apply bind_raise|]. split; auto.
Qed.


(** ** The batch *)

Lemma getObject_inv name s o s' :
  getObject H name s = Ok o s' ->
  o = object_of name s /\ s' = logged (GetObject name) true s.
Proof.
  unfold getObject, host, object_of.
  destruct (raises H s (GetObject name)); [discriminate|].
  destruct (ActiveDocument s); [|discriminate].
  now intros [= <- <-].
Qed.

Lemma getObject_returns_object name s objs :
  raises H s (GetObject name) = false ->
  ActiveDocument s = Some objs ->
  getObject H name s = Ok (lookup name objs) (logged (GetObject name) true s).
Proof. unfold getObject, host. now intros -> ->. Qed.

(** Line 393 reads the document and nothing else. *)
Lemma original_is_still_a_mesh_inv original_name s b s' :
  original_is_still_a_mesh H original_name s = Ok b s' ->
  b = still_a_mesh original_name s
  /\ ActiveDocument s' = ActiveDocument s
  /\ console s' = console s
  /\ transactions (trace s') = transactions (trace s).
Proof.
  unfold original_is_still_a_mesh, still_a_mesh. intros Hrun.
  apply bind_inv_ok in Hrun as (o & s1 & Hget & Hrun).
  apply getObject_inv in Hget as [-> ->].
  destruct (object_of original_name s) as [obj|] eqn:Ho.
  - apply bind_inv_ok in Hrun as (o' & s2 & Hget & Hrun).
    apply getObject_inv in Hget as [-> ->].
    change (object_of original_name
              (logged (GetObject original_name) true s))
      with (object_of original_name s) in Hrun.
    rewrite Ho in Hrun. injection Hrun as <- <-.
    repeat split. simpl. rewrite !transactions_app. simpl.
    now rewrite !app_nil_r.
  - injection Hrun as <- <-. repeat split. simpl.
    rewrite transactions_app. simpl. now rewrite app_nil_r.
Qed.

(** The reads of line 393 returned, from [s1] to [s2]. *)
Definition cross_checked (original_name : string) (s1 s2 : state) : Prop :=
  exists b, original_is_still_a_mesh H original_name s1 = Ok b s2.

(** The loop of lines 379-398 as the items go: each mesh in the order of
    the list, converted with the caller owning the transaction, and
    counted by what the conversion said when it succeeded, by what the
    document holds under the original name when it did not. *)
Inductive processed
  : list string -> results -> state -> results -> state -> Prop :=
| processed_none r s : processed [] r s r s
| processed_converted mesh_obj rest r s body_name s1 r' s' :
    convert_single_mesh H mesh_obj true
      (printed (Message (String.append "Processing: " mesh_obj)) s)
    = Ok (true, body_name) s1 ->
    processed rest (add_converted mesh_obj body_name r) s1 r' s' ->
    processed (mesh_obj :: rest) r s r' s'
| processed_skipped mesh_obj rest r s body_name s1 s2 r' s' :
    convert_single_mesh H mesh_obj true
      (printed (Message (String.append "Processing: " mesh_obj)) s)
    = Ok (false, body_name) s1 ->
    cross_checked mesh_obj s1 s2 ->
    still_a_mesh mesh_obj s1 = true ->
    processed rest (add_skipped mesh_obj r) s2 r' s' ->
    processed (mesh_obj :: rest) r s r' s'
| processed_failed mesh_obj rest r s body_name s1 s2 r' s' :
    convert_single_mesh H mesh_obj true
      (printed (Message (String.append "Processing: " mesh_obj)) s)
    = Ok (false, body_name) s1 ->
    cross_checked mesh_obj s1 s2 ->
    still_a_mesh mesh_obj s1 = false ->
    processed rest (add_failed mesh_obj r) s2 r' s' ->
    processed (mesh_obj :: rest) r s r' s'.

Lemma process_all_processed mesh_objects :
  forall r s r' s',
    process_all H mesh_objects r s = Ok r' s'
    <-> processed mesh_objects r s r' s'.
Proof.
  induction mesh_objects as [|mesh_obj rest IH]; intros r s r' s'.
  - split.
    + intros [= <- <-]. constructor.
    + intros Hp. inversion Hp. reflexivity.
  - split.
    + simpl. intros Hrun.
      apply bind_inv_ok in Hrun as (r1 & s2 & Hitem & Hrest).
      apply IH in Hrest. unfold process_mesh in Hitem.
      apply bind_inv_ok in Hitem as ([] & s0 & [= <-] & Hitem).
      apply bind_inv_ok in Hitem as ([success body_name] & s1 & Hc & Hitem).
      destruct success.
      * injection Hitem as <- <-.
        eapply processed_converted; eassumption.
      * apply bind_inv_ok in Hitem as (still & s3 & Hstill & Hitem).
        pose proof (original_is_still_a_mesh_inv _ _ Hstill) as (Hb & _).
        destruct still; injection Hitem as <- <-.
        -- eapply processed_skipped; try eassumption; [now exists true|auto].
        -- eapply processed_failed; try eassumption; [now exists false|auto].
    + intros Hp. simpl.
      inversion Hp as [ | ? ? ? ? body_name s1 ? ? Hc Hrest
                        | ? ? ? ? body_name s1 s2 ? ? Hc [b Hx] Hb Hrest
                        | ? ? ? ? body_name s1 s2 ? ? Hc [b Hx] Hb Hrest ];
        subst; apply IH in Hrest.
      * erewrite bind_ok; [exact Hrest|]. unfold process_mesh.
        erewrite bind_ok; [|reflexivity]. erewrite bind_ok; [|exact Hc].
        reflexivity.
      * erewrite bind_ok; [exact Hrest|]. unfold process_mesh.
        erewrite bind_ok; [|reflexivity]. erewrite bind_ok; [|exact Hc].
        pose proof (original_is_still_a_mesh_inv _ _ Hx) as (-> & _).
        erewrite bind_ok; [|exact Hx]. now rewrite Hb.
      * erewrite bind_ok; [exact Hrest|]. unfold process_mesh.
        erewrite bind_ok; [|reflexivity]. erewrite bind_ok; [|exact Hc].
        pose proof (original_is_still_a_mesh_inv _ _ Hx) as (-> & _).
        erewrite bind_ok; [|exact Hx]. now rewrite Hb.
Qed.

(** Every item is counted once, in one of the three lists, in the order
    of the items. *)
Lemma processed_counts mesh_objects r s r' s' :
  processed mesh_objects r s r' s' ->
  total_meshes r' = total_meshes r
  /\ converted r' + skipped r' + failed r'
     = converted r + skipped r + failed r + length mesh_objects
  /\ length (converted_objects r') + length (skipped_objects r')
     + length (failed_objects r')
     = length (converted_objects r) + length (skipped_objects r)
       + length (failed_objects r) + length mesh_objects.
Proof.
  induction 1 as [ | ? ? ? ? ? ? ? ? _ _ IH | ? ? ? ? ? ? ? ? ? _ _ _ _ IH
                   | ? ? ? ? ? ? ? ? ? _ _ _ _ IH ]; simpl in *;
    rewrite ?length_app in *; simpl in *; lia.
Qed.

(** The state in which the loop starts (lines 352-365). *)
Definition master_opened (s : state) : state :=
  logged (OpenTransaction "Convert All Document Meshes") true
    (printed (Message "DOCUMENT-WIDE MESH CONVERSION") s).

(** Lines 408-445, after the loop and the commit. *)
Definition final_report (outcome : option results)
  : comp (option statistics) :=
  match outcome with
  | None => ret None
  | Some r =>
      doc_recompute H ;;
      PrintMessage "CONVERSION COMPLETE" ;;
      ret (Some (Results r))
  end.

Lemma convert_all_with_meshes show_summary s objs mesh_obj rest :
  ActiveDocument s = Some objs ->
  map Name (filter has_Mesh objs) = mesh_obj :: rest ->
  convert_all_document_meshes H show_summary s
  = bind (batch H (mesh_obj :: rest)) final_report (master_opened s).
Proof.
  intros Hd Hn. unfold convert_all_document_meshes.
  erewrite bind_ok; [|reflexivity]. rewrite Hd.
  erewrite bind_ok; [|reflexivity]. cbn [fst]. rewrite Hn.
  reflexivity.
Qed.

Lemma batch_cases mesh_objects s :
  batch H mesh_objects s
  = match process_all H mesh_objects
            (initial_results (length mesh_objects)) s with
    | Ok r s1 => Ok (Some r) (logged CommitTransaction true s1)
    | Raise e s1 =>
        Ok None (printed (Error "Master conversion process failed")
                   (logged AbortTransaction true s1))
    end.
Proof.
  unfold batch, try_except, bind.
  now destruct (process_all H mesh_objects
                  (initial_results (length mesh_objects)) s).
Qed.

Lemma convert_all_cases show_summary s objs mesh_obj rest :
  ActiveDocument s = Some objs ->
  map Name (filter has_Mesh objs) = mesh_obj :: rest ->
  convert_all_document_meshes H show_summary s
  = match process_all H (mesh_obj :: rest)
            (initial_results (length (mesh_obj :: rest)))
            (master_opened s) with
    | Ok r s1 => final_report (Some r) (logged CommitTransaction true s1)
    | Raise e s1 =>
        Ok None (printed (Error "Master conversion process failed")
                   (logged AbortTransaction true s1))
    end.
Proof.
  intros Hd Hn.
  rewrite (@convert_all_with_meshes show_summary s objs mesh_obj rest Hd Hn).
  unfold bind at 1. rewrite batch_cases.
  now destruct (process_all H (mesh_obj :: rest)
                  (initial_results (length (mesh_obj :: rest)))
                  (master_opened s)).
Qed.

Lemma txn_final_report T r s :
  txn_is T s ->
  spec (final_report (Some r)) s
    (fun st s' => st = Some (Results r) /\ txn_is T s')
    (fun e s' => e = HostError Recompute /\ txn_is T s').
Proof.
  intros Hs. unfold final_report, doc_recompute, host, spec, bind.
  destruct (raises H s Recompute); [split; [reflexivity|side]|].
  destruct (ActiveDocument s); simpl; (split; [reflexivity|side]).
Qed.

Lemma txn_master_opened s :
  transactions (trace (master_opened s))
  = transactions (trace s)
    ++ [OpenTransaction "Convert All Document Meshes"].
Proof. unfold master_opened. simpl. now rewrite transactions_app. Qed.


Lemma batch_transaction_cases show_summary s objs
  mesh_objects :
  ActiveDocument s = Some objs ->
  mesh_objects = map Name (filter has_Mesh objs) ->
  mesh_objects <> [] ->
  match process_all H mesh_objects (initial_results (length mesh_objects))
          (master_opened s),
        convert_all_document_meshes H show_summary s with
  | Raise _ _, Ok st s' =>
      st = None
      /\ transactions (trace s')
         = transactions (trace s)
           ++ [OpenTransaction "Convert All Document Meshes";
               AbortTransaction]
  | Raise _ _, Raise _ _ => False
  | Ok r _, Ok st s' =>
      st = Some (Results r)
      /\ transactions (trace s')
         = transactions (trace s)
           ++ [OpenTransaction "Convert All Document Meshes";
               CommitTransaction]
  | Ok _ _, Raise e s' =>
      e = HostError Recompute
      /\ transactions (trace s')
         = transactions (trace s)
           ++ [OpenTransaction "Convert All Document Meshes";
               CommitTransaction]
  end.
Proof.
  intros Hd -> Hne.
  destruct (map Name (filter has_Mesh objs)) as [|mesh_obj rest] eqn:Hn;
    [contradiction|].
  rewrite (@convert_all_cases show_summary s objs mesh_obj rest Hd Hn).
  pose proof (@txn_process_all _ (mesh_obj :: rest)
                (initial_results (length (mesh_obj :: rest)))
                (master_opened s) eq_refl) as Hloop.
  unfold spec in Hloop.
  destruct (process_all H (mesh_obj :: rest)
              (initial_results (length (mesh_obj :: rest)))
              (master_opened s)) as [r s1|e s1].
  - assert (Hc : txn_is (transactions (trace s)
                         ++ [OpenTransaction "Convert All Document Meshes";
                             CommitTransaction])
                   (logged CommitTransaction true s1)).
    { unfold txn_is in *. simpl. rewrite transactions_app, Hloop.
      rewrite txn_master_opened, <- app_assoc. reflexivity. }
    pose proof (txn_final_report r Hc) as Hfin. unfold spec in Hfin.
    destruct (final_report (Some r) (logged CommitTransaction true s1));
      exact Hfin.
  - split; [reflexivity|]. unfold txn_is in Hloop. simpl.
    rewrite transactions_app, Hloop, txn_master_opened, <- app_assoc.
    reflexivity.
Qed.

(** C8.  In a document with meshes: when an exception leaves the loop,
    the orchestrator aborts the master transaction, which it had opened,
    and returns [None], and no commit was made; when the loop completes,
    the master transaction is committed, once, and not aborted, whether
    the final recompute then raises or not, and the result is not
    [None]. *)
Theorem batch_transaction_is_all_or_nothing show_summary s objs
  mesh_objects :
  ActiveDocument s = Some objs ->
  mesh_objects = map Name (filter has_Mesh objs) ->
  mesh_objects <> [] ->
  (forall e s1,
      process_all H mesh_objects (initial_results (length mesh_objects))
        (master_opened s) = Raise e s1 ->
      exists s',
        convert_all_document_meshes H show_summary s = Ok None s'
        /\ transactions (trace s')
           = transactions (trace s)
             ++ [OpenTransaction "Convert All Document Meshes";
                 AbortTransaction])
  /\ (forall r s1,
        process_all H mesh_objects (initial_results (length mesh_objects))
          (master_opened s) = Ok r s1 ->
        transactions
          (trace (reached (convert_all_document_meshes H show_summary s)))
        = transactions (trace s)
          ++ [OpenTransaction "Convert All Document Meshes";
              CommitTransaction]
        /\ forall s',
             convert_all_document_meshes H show_summary s <> Ok None s').
Proof.
  intros Hd Hn Hne.
  pose proof (@batch_transaction_cases show_summary s objs mesh_objects
                Hd Hn Hne) as Hcases.
  split.
  - intros e s1 Hloop. rewrite Hloop in Hcases.
    destruct (convert_all_document_meshes H show_summary s) as [st s'|];
      [|contradiction].
    destruct Hcases as [-> Ht]. now exists s'.
  - intros r s1 Hloop. rewrite Hloop in Hcases.
    destruct (convert_all_document_meshes H show_summary s) as [st s'|e s'];
      destruct Hcases as [-> Ht]; (split; [exact Ht | discriminate]).
Qed.

(** C10.  Without an active document the orchestrator returns [None];
    with a document that holds no mesh it returns the four counts, all
    zero, and makes no host call; with meshes it returns [None] exactly
    when an exception left the loop, and what it returns otherwise is the
    dictionary of results, whose total is the number of meshes and so is
    not zero. *)
Theorem none_means_no_document_or_aborted_batch show_summary s :
  match ActiveDocument s with
  | None =>
      convert_all_document_meshes H show_summary s
      = Ok None (printed (Error "No active document found.") s)
  | Some objs =>
      match map Name (filter has_Mesh objs) with
      | [] =>
          convert_all_document_meshes H show_summary s
          = Ok (Some (Counts 0 0 0 0))
              (printed (Message "No mesh objects found in document.") s)
      | mesh_objects =>
          (forall s',
              convert_all_document_meshes H show_summary s = Ok None s'
              <-> exists e s1,
                    process_all H mesh_objects
                      (initial_results (length mesh_objects))
                      (master_opened s) = Raise e s1
                    /\ s' = printed
                              (Error "Master conversion process failed")
                              (logged AbortTransaction true s1))
          /\ (forall st s',
                 convert_all_document_meshes H show_summary s
                 = Ok (Some st) s' ->
                 exists r, st = Results r
                           /\ total_meshes r = length mesh_objects
                           /\ total_meshes r <> 0)
      end
  end.
Proof.
  destruct (ActiveDocument s) as [objs|] eqn:Hd.
  - destruct (map Name (filter has_Mesh objs)) as [|mesh_obj rest] eqn:Hn.
    + unfold convert_all_document_meshes.
      erewrite bind_ok; [|reflexivity]. rewrite Hd.
      erewrite bind_ok; [|reflexivity]. cbn [fst]. rewrite Hn.
      reflexivity.
    + rewrite (@convert_all_cases show_summary s objs mesh_obj rest Hd Hn).
      destruct (process_all H (mesh_obj :: rest)
                  (initial_results (length (mesh_obj :: rest)))
                  (master_opened s)) as [r s1|e s1] eqn:Hrun.
      * pose proof (@txn_final_report _ r
                      (logged CommitTransaction true s1) eq_refl) as Hfin.
        unfold spec in Hfin.
        pose proof (proj1 (process_all_processed _ _ _ _ _) Hrun) as Hp.
        apply processed_counts in Hp as (Ht & _).
        destruct (final_report (Some r) (logged CommitTransaction true s1))
          as [st s2|e s2]; split.
        -- intros s'. split.
           ++ destruct Hfin as [-> _]. discriminate.
           ++ intros (e & s3 & Heq & _).
              pose proof (eq_trans (eq_sym Hrun) Heq) as Hx.
              discriminate Hx.
        -- intros st' s' [= -> <-]. destruct Hfin as [[= ->] _].
           exists r. split; [reflexivity|]. rewrite Ht. simpl. auto.
        -- intros s'. split; [discriminate|].
           intros (e' & s3 & Heq & _).
           pose proof (eq_trans (eq_sym Hrun) Heq) as Hx.
           discriminate Hx.
        -- intros st' s'. discriminate.
      * split.
        -- intros s'. split.
           ++ intros [= <-]. exists e, s1. split; [exact Hrun|reflexivity].
           ++ intros (e' & s3 & Heq & ->).
              pose proof (eq_trans (eq_sym Hrun) Heq) as [= <- <-].
              reflexivity.
        -- intros st s'. discriminate.
  - unfold convert_all_document_meshes.
    erewrite bind_ok; [|reflexivity]. rewrite Hd. reflexivity.
Qed.

(** * Further properties of the script *)

(** ** The evaluation and the repair it starts *)

(** The corrective methods called so far. *)
Definition methods_are (Ev : list (string * bool)) (s : state) : Prop :=
  method_events (trace s) = Ev.

Ltac reads_side :=
  sem_cases;
  unfold methods_are, doc_is, writes_are in *;
  simpl in *;
  rewrite ?method_events_app, ?writes_app; simpl;
  rewrite ?app_nil_r;
  solve [ assumption | congruence | discriminate ].

(** Lines 161-177 call no corrective method and write nothing. *)
Lemma evaluation_queries_read_only D W Ev selected_mesh :
  preserves (fun s => doc_is D s /\ writes_are W s /\ methods_are Ev s)
    (evaluation_queries H selected_mesh).
Proof.
  assert (Hd : preserves (doc_is D) (evaluation_queries H selected_mesh)).
  { unfold evaluation_queries. unfold_host_calls.
    preserving fail reads_side. }
  assert (Hw : preserves (writes_are W) (evaluation_queries H selected_mesh)).
  { unfold evaluation_queries. unfold_host_calls.
    preserving fail reads_side. }
  assert (He : preserves (methods_are Ev)
                 (evaluation_queries H selected_mesh)).
  { unfold evaluation_queries. unfold_host_calls.
    preserving fail reads_side. }
  intros s (H1 & H2 & H3).
  specialize (Hd s H1). specialize (Hw s H2). specialize (He s H3).
  unfold spec in *.
  destruct (evaluation_queries H selected_mesh s); auto.
Qed.

Lemma evaluation_decision_returns selected_mesh is_solid nm si s1 :
  exists r s',
    evaluation_decision H selected_mesh is_solid nm si s1 = Ok r s'
    /\ (r = "proceed" \/ r = "repair")%string.
Proof.
  pose proof (evaluation_decision_cases selected_mesh is_solid nm si s1)
    as Hcases.
  destruct is_solid; [destruct (nm || si)|].
  - destruct Hcases as (success & s2 & _ & text & ->).
    destruct success; eauto.
  - rewrite Hcases. eauto.
  - rewrite Hcases. eauto.
Qed.

(** X1.  The evaluation never raises: it returns ['proceed'], ['repair']
    or ['cancel'].  It makes no transaction call.  When it returns
    ['cancel'] a read of the mesh raised: the document is as before, no
    corrective method was called and nothing was written. *)
Theorem evaluation_never_raises selected_mesh s :
  exists r s',
    evaluate_mesh_automated H selected_mesh s = Ok r s'
    /\ (r = "proceed" \/ r = "repair" \/ r = "cancel")%string
    /\ transactions (trace s') = transactions (trace s)
    /\ (r = "cancel"%string ->
        ActiveDocument s' = ActiveDocument s
        /\ writes (trace s') = writes (trace s)
        /\ method_events (trace s') = method_events (trace s)).
Proof.
  pose proof (@txn_evaluate (transactions (trace s)) selected_mesh s eq_refl)
    as Htxn.
  pose proof (@evaluation_queries_read_only (ActiveDocument s)
                (writes (trace s)) (method_events (trace s)) selected_mesh s
                (conj eq_refl (conj eq_refl eq_refl))) as Hread.
  unfold spec in Htxn, Hread. revert Htxn.
  unfold evaluate_mesh_automated, try_except, bind.
  destruct (evaluation_queries H selected_mesh s)
    as [[[is_solid nm] si] s1|e s1].
  - destruct (evaluation_decision_returns selected_mesh is_solid nm si s1)
      as (r & s' & -> & Hr).
    intros Htxn. exists r, s'. split; [reflexivity|].
    split; [tauto|]. split; [exact Htxn|].
    intros ->. destruct Hr as [Hr|Hr]; discriminate Hr.
  - intros Htxn. eexists. eexists. split; [reflexivity|].
    split; [tauto|]. split; [exact Htxn|].
    intros _. exact Hread.
Qed.

(** What a repair that returns [True] has checked. *)
Lemma repair_true_verdicts mesh_obj s s' :
  attempt_comprehensive_manual_repair H mesh_obj s = Ok true s' ->
  exists m initial,
    mesh_of mesh_obj s' = Some m
    /\ initial_has_self_intersections (locals s') = Some initial
    /\ isSolid H m = true
    /\ hasNonManifolds H m = false
    /\ (if initial
        then self_intersections_fixed_on_mutable (locals s') = true
        else hasSelfIntersections H m = false).
Proof.
  rewrite attempt_unfold.
  pose proof (@repair_body_run mesh_obj (set_locals empty_frame s) eq_refl)
    as Hbody. unfold spec in Hbody.
  destruct (repair_body H mesh_obj (set_locals empty_frame s))
    as [b s1|e s1]; [|discriminate].
  intros [= -> ->]. destruct Hbody as [_ [Hnil Hres]].
  destruct (repairs_applied (locals s')) eqn:Happlied.
  - now specialize (Hnil eq_refl).
  - destruct Hres as (m & initial & Hm & Hi & Hb); [discriminate|].
    exists m, initial. split; [exact Hm|]. split; [exact Hi|].
    symmetry in Hb. rewrite !andb_true_iff, !negb_true_iff in Hb.
    destruct Hb as [[Hsolid Hnm] Hsi].
    split; [exact Hsolid|]. split; [exact Hnm|].
    destruct initial; [|exact Hsi].
    now apply negb_false_iff in Hsi.
Qed.

(** X2.  ['proceed'] is sound for what the conversion needs: the object
    then holds a mesh that the kernel calls solid and free of
    non-manifolds; and the kernel finds no self-intersections in it,
    unless the repair ran its priority pass, in which case the verdict is
    that of the internal re-check of the copy. *)
Theorem proceed_means_solid_and_manifold selected_mesh s s' :
  evaluate_mesh_automated H selected_mesh s = Ok "proceed"%string s' ->
  exists m,
    mesh_of selected_mesh s' = Some m
    /\ isSolid H m = true
    /\ hasNonManifolds H m = false
    /\ (hasSelfIntersections H m = false
        \/ (initial_has_self_intersections (locals s') = Some true
            /\ self_intersections_fixed_on_mutable (locals s') = true)).
Proof.
  unfold evaluate_mesh_automated. intros Hrun.
  apply try_inv_ok in Hrun as [Hrun|(e & s1 & _ & Hh)];
    [|discriminate Hh].
  apply bind_inv_ok in Hrun as ([[is_solid nm] si] & s1 & Hq & Hdec).
  pose proof (spec_ok _ _ _ _ Hq (evaluation_queries_ok selected_mesh s))
    as (Hdoc & m & Hm & [= -> -> ->]).
  pose proof (evaluation_decision_cases selected_mesh (isSolid H m)
                (hasNonManifolds H m) (hasSelfIntersections H m) s1)
    as Hcases.
  destruct (isSolid H m) eqn:Hsolid;
    [destruct (hasNonManifolds H m || hasSelfIntersections H m) eqn:Hflaw|].
  - destruct Hcases as (success & s2 & Hrep & text & Hdec').
    rewrite Hdec' in Hdec. destruct success; [|discriminate Hdec].
    injection Hdec as <-.
    unfold attempt_mesh_repair in Hrep.
    apply try_inv_ok in Hrep as [Hrep|(e & s3 & _ & Hh)];
      [|discriminate Hh].
    apply bind_inv_ok in Hrep as ([] & s3 & _ & Hrep).
    apply bind_inv_ok in Hrep as (success & s4 & Hrep & Hret).
    destruct success; [|discriminate Hret]. injection Hret as <-.
    apply repair_true_verdicts in Hrep
      as (m' & initial & Hm' & Hi & Hs' & Hnm' & Hsi').
    exists m'. split; [exact Hm'|]. split; [exact Hs'|].
    split; [exact Hnm'|].
    destruct initial; [right; split; [exact Hi | exact Hsi'] | now left].
  - rewrite Hcases in Hdec. injection Hdec as <-.
    apply orb_false_iff in Hflaw as [Hnm Hsi].
    exists m. split; [|auto].
    rewrite <- Hm. now apply mesh_of_same_document.
  - rewrite Hcases in Hdec. discriminate Hdec.
Qed.

(** ** Converting one mesh: what can leave the function *)

Lemma evaluate_total selected_mesh s :
  spec (evaluate_mesh_automated H selected_mesh) s
    (fun _ _ => True) (fun _ _ => False).
Proof.
  unfold spec, evaluate_mesh_automated, try_except, bind.
  destruct (evaluation_queries H selected_mesh s)
    as [[[is_solid nm] si] s1|e s1]; [|exact I].
  destruct (evaluation_decision_returns selected_mesh is_solid nm si s1)
    as (r & s' & -> & _). exact I.
Qed.

(** A sequence whose exceptions do not matter. *)
Lemma spec_bind_any {A B : Type} (c : comp A) (k : A -> comp B) s
  (Q : B -> state -> Prop) :
  (forall a s1, spec (k a) s1 Q (fun _ _ => True)) ->
  spec (bind c k) s Q (fun _ _ => True).
Proof. intros Hk. unfold spec, bind. destruct (c s); [apply Hk | exact I]. Qed.

(** Lines 282-304 return [(True, name of the body)] or raise. *)
Lemma conversion_result mesh_obj base_name base_transaction s :
  spec (conversion H mesh_obj base_name base_transaction) s
    (fun r _ => exists body_name, r = (true, Some body_name))
    (fun _ _ => True).
Proof.
  unfold conversion. apply spec_bind_any. intros [[shape_obj solid_obj] r] s1.
  apply spec_bind_any. intros valid s2. destruct valid; [|exact I].
  unfold create_body. repeat (apply spec_bind_any; intros).
  unfold spec, ret. eauto.
Qed.

(** Lines 311-316 raise only in [doc.getObject]. *)
Lemma existing_objects_raises names :
  forall s,
    spec (existing_objects H names) s
      (fun _ _ => True)
      (fun e _ => exists n, In n names /\ e = HostError (GetObject n)).
Proof.
  induction names as [|name rest IH]; intros s; [exact I|].
  simpl existing_objects. apply spec_bind. unfold getObject.
  apply spec_host; [exists name; split; [now left | reflexivity]|].
  intros o s1 _ _. apply spec_bind.
  eapply spec_weaken; [apply IH | | ].
  - intros found s2 _. exact I.
  - intros e s2 (n & Hn & ->). exists n. split; [now right | reflexivity].
Qed.

(** Lines 318-322 swallow every exception. *)
Lemma removals_return (todo : list string) :
  forall s,
    spec (for_each todo (fun obj_name =>
            try (removeObject H obj_name) except (fun _ => ret tt))) s
      (fun _ _ => True) (fun _ _ => False).
Proof.
  induction todo as [|n todo IH]; intros s; [exact I|].
  simpl for_each. apply spec_bind.
  unfold spec at 1, try_except.
  destruct (removeObject H n s); simpl; apply IH.
Qed.

Lemma cleanup_raises mesh_obj base_name base_transaction s :
  spec (cleanup_on_error H mesh_obj base_name base_transaction) s
    (fun r _ => r = (false, None))
    (fun e _ => exists n, In n (temp_names base_name)
                          /\ e = HostError (GetObject n)).
Proof.
  unfold cleanup_on_error. apply spec_bind.
  eapply spec_weaken; [apply existing_objects_raises | | auto].
  intros temp_objects s1 _. apply spec_bind.
  eapply spec_weaken; [apply removals_return | | intros ? ? []].
  intros [] s2 _.
  apply spec_bind. destruct base_transaction; simpl;
    (eapply spec_intro_ok; [reflexivity|]);
    (apply spec_bind; eapply spec_intro_ok; [reflexivity|]);
    reflexivity.
Qed.

(** The opening never raises; it stops with [(False, None)] and the
    transaction aborted, or goes on with the transaction open. *)
Lemma opening_spec T mesh_obj base_transaction s :
  txn_is T s ->
  spec (opening mesh_obj base_transaction) s
    (fun early s1 =>
       match early with
       | Some r =>
           r = (false, None)
           /\ txn_is (T ++ if base_transaction then []
                           else [OpenTransaction
                                   (String.append "Convert Mesh: " mesh_obj);
                                 AbortTransaction]) s1
       | None =>
           txn_is (T ++ if base_transaction then []
                        else [OpenTransaction
                                (String.append "Convert Mesh: " mesh_obj)])
             s1
       end)
    (fun _ _ => False).
Proof.
  intros Hs. unfold opening. apply spec_bind.
  set (T1 := T ++ if base_transaction then []
                  else [OpenTransaction
                          (String.append "Convert Mesh: " mesh_obj)]).
  assert (Hopen : spec (when (negb base_transaction)
                          (openTransaction
                             (String.append "Convert Mesh: " mesh_obj))) s
                    (fun _ => txn_is T1) (fun _ _ => False)).
  { unfold T1. destruct base_transaction; simpl.
    - unfold spec, ret. now rewrite app_nil_r.
    - unfold spec, openTransaction, transaction.
      now apply (txn_is_logged (OpenTransaction _) true). }
  eapply spec_weaken; [exact Hopen | | auto].
  clear Hopen Hs s. intros [] s Hs. cbv beta in Hs.
  unfold evaluation_gate. apply spec_try. apply spec_bind.
  pose proof (@spec_conj _ _ _ _ _ _ _ (evaluate_total mesh_obj s)
                (@txn_evaluate T1 mesh_obj s Hs)) as Heval.
  eapply spec_weaken; [exact Heval | | intros ? ? [[] _]].
  clear Heval Hs s. intros r s [_ Hs].
  destruct (negb (String.eqb r "proceed")).
  - apply spec_bind. unfold T1 in Hs.
    destruct base_transaction; simpl.
    + eapply spec_intro_ok; [reflexivity|].
      eapply spec_intro_ok; [reflexivity|]. split; [reflexivity|exact Hs].
    + eapply spec_intro_ok; [reflexivity|].
      eapply spec_intro_ok; [reflexivity|]. split; [reflexivity|].
      unfold txn_is in *. simpl. rewrite transactions_app, Hs.
      now rewrite <- app_assoc.
  - apply spec_bind. eapply spec_intro_ok; [reflexivity|].
    eapply spec_intro_ok; [reflexivity|]. exact Hs.
Qed.

Lemma convert_unfold mesh_obj base_transaction s :
  convert_single_mesh H mesh_obj base_transaction s
  = match opening mesh_obj base_transaction s with
    | Ok (Some r) s1 => Ok r s1
    | Ok None s1 =>
        try_except (conversion H mesh_obj mesh_obj base_transaction)
          (fun _ => cleanup_on_error H mesh_obj mesh_obj base_transaction)
          s1
    | Raise e s1 => Raise e s1
    end.
Proof.
  unfold convert_single_mesh, opening, bind.
  destruct (when (negb base_transaction)
              (openTransaction (String.append "Convert Mesh: " mesh_obj)) s)
    as [[] s0|e s0]; [|reflexivity].
  destruct (evaluation_gate H mesh_obj base_transaction s0)
    as [[r|] s1|e s1]; reflexivity.
Qed.


(** ** Converting one mesh: when it returns *)

(** There is an active document. *)
Definition has_document (s : state) : Prop := ActiveDocument s <> None.

Ltac document_side :=
  sem_cases; unfold has_document in *; simpl in *;
  solve [ assumption | congruence | discriminate ].

Lemma document_stays_repair mesh_obj :
  preserves has_document (attempt_comprehensive_manual_repair H mesh_obj).
Proof.
  unfold attempt_comprehensive_manual_repair, repair_body, repair_passes,
    priority_pass, general_repair, fill_small_holes, write_back_and_check,
    diagnostic.
  unfold_host_calls.
  preserving fail document_side.
Qed.

Lemma document_stays_evaluate selected_mesh :
  preserves has_document (evaluate_mesh_automated H selected_mesh).
Proof.
  unfold evaluate_mesh_automated, evaluation_queries, evaluation_decision,
    attempt_mesh_repair.
  unfold_host_calls.
  preserving ltac:(apply document_stays_repair) document_side.
Qed.

Lemma document_stays_opening mesh_obj base_transaction :
  preserves has_document (opening mesh_obj base_transaction).
Proof.
  unfold opening, evaluation_gate, when. unfold_host_calls.
  preserving ltac:(apply document_stays_evaluate) document_side.
Qed.

Lemma document_stays_conversion mesh_obj base_name base_transaction :
  preserves has_document
    (conversion H mesh_obj base_name base_transaction).
Proof.
  unfold conversion, build_intermediates, refined_is_valid, create_body,
    when.
  unfold_host_calls.
  preserving fail document_side.
Qed.

Lemma document_stays_removals (todo : list string) :
  preserves has_document
    (for_each todo (fun obj_name =>
       try (removeObject H obj_name) except (fun _ => ret tt))).
Proof. unfold_host_calls. preserving fail document_side. Qed.

Section Reads.

(** [doc.getObject] does not raise. *)
Hypothesis getObject_returns :
  forall s name, raises H s (GetObject name) = false.

Lemma existing_objects_returns names :
  forall s,
    has_document s ->
    spec (existing_objects H names) s
      (fun _ => has_document) (fun _ _ => False).
Proof.
  induction names as [|name rest IH]; intros s Hs; [exact Hs|].
  simpl existing_objects. apply spec_bind.
  unfold spec at 1, getObject, host. rewrite getObject_returns.
  unfold has_document in Hs.
  destruct (ActiveDocument s) as [objs|] eqn:Hd; [|now contradiction Hs].
  apply spec_bind.
  eapply spec_weaken; [apply IH | | intros ? ? []].
  - unfold has_document. simpl. rewrite Hd. discriminate.
  - intros found s1 H1. exact H1.
Qed.

Lemma cleanup_returns mesh_obj base_name base_transaction s :
  has_document s ->
  spec (cleanup_on_error H mesh_obj base_name base_transaction) s
    (fun r s' => r = (false, None) /\ has_document s')
    (fun _ _ => False).
Proof.
  intros Hs. unfold cleanup_on_error. apply spec_bind.
  eapply spec_weaken; [apply existing_objects_returns, Hs | | auto].
  clear Hs s. intros temp_objects s Hs. cbv beta in Hs. apply spec_bind.
  pose proof (@spec_conj _ _ _ _ _ _ _ (removals_return temp_objects s)
                (document_stays_removals temp_objects Hs)) as Hrem.
  eapply spec_weaken; [exact Hrem | | intros ? ? [[] _]].
  clear Hrem Hs s. intros [] s [_ Hs].
  apply spec_bind. destruct base_transaction; simpl;
    (eapply spec_intro_ok; [reflexivity|]);
    (apply spec_bind; eapply spec_intro_ok; [reflexivity|]);
    (split; [reflexivity | exact Hs]).
Qed.


(** Line 393 returns what the document holds. *)
Lemma original_is_still_a_mesh_returns original_name s :
  has_document s ->
  exists s',
    original_is_still_a_mesh H original_name s
    = Ok (still_a_mesh original_name s) s'
    /\ ActiveDocument s' = ActiveDocument s
    /\ transactions (trace s') = transactions (trace s).
Proof.
  intros Hs. unfold has_document in Hs.
  destruct (ActiveDocument s) as [objs|] eqn:Hd; [|now contradiction Hs].
  unfold original_is_still_a_mesh, still_a_mesh, object_of.
  erewrite bind_ok;
    [|apply (getObject_returns_object _ _ (getObject_returns _ _) Hd)].
  rewrite Hd. destruct (lookup original_name objs) as [obj|] eqn:Ho.
  - erewrite bind_ok;
      [|apply (@getObject_returns_object original_name
                 (logged (GetObject original_name) true s) objs
                 (getObject_returns _ _) Hd)].
    rewrite Ho. eexists. split; [reflexivity|]. split; [exact Hd|].
    simpl. rewrite !transactions_app. simpl. now rewrite !app_nil_r.
  - eexists. split; [reflexivity|]. split; [exact Hd|].
    simpl. rewrite transactions_app. simpl. now rewrite app_nil_r.
Qed.

End Reads.

(** ** The batch: how an item is counted *)

Lemma lookup_label name (l l' : list docobj) :
  map label l = map label l' ->
  option_map label (lookup name l) = option_map label (lookup name l').
Proof.
  unfold lookup. revert l'.
  induction l as [|o l IH]; intros [|o' l']; try discriminate;
    [reflexivity|].
  simpl. intros [= Hn Ht Hl].
  rewrite Hn. destruct (String.eqb (Name o') name).
  - simpl. unfold label. now rewrite Hn, Ht.
  - now apply IH.
Qed.

(** Line 393 sees names and types only. *)
Lemma still_a_mesh_labels original_name (s s1 : state) :
  labels s1 = labels s ->
  still_a_mesh original_name s1 = still_a_mesh original_name s.
Proof.
  unfold labels, still_a_mesh, object_of.
  destruct (ActiveDocument s1) as [objs1|], (ActiveDocument s) as [objs|];
    try discriminate; [|reflexivity].
  simpl. intros [= Hl].
  pose proof (lookup_label original_name _ _ Hl) as Hlook.
  destruct (lookup original_name objs1) as [o1|],
           (lookup original_name objs) as [o|];
    try discriminate Hlook; [|reflexivity].
  simpl in Hlook. injection Hlook as _ Ht. now rewrite Ht.
Qed.

(** X5.  In the batch, a mesh that the evaluation does not let through
    is not converted and no object is added, removed, renamed or
    retyped; it is counted by the type its object had before: as skipped
    when that is [Mesh::Feature], as failed otherwise, although nothing
    failed. *)
Theorem rejected_mesh_is_counted_by_its_type (laws : HostLaws H)
  (getObject_returns : forall s name, raises H s (GetObject name) = false)
  r mesh_obj s verdict s1 :
  ActiveDocument s <> None ->
  evaluate_mesh_automated H mesh_obj
    (printed (Message (String.append "Processing: " mesh_obj)) s)
  = Ok verdict s1 ->
  verdict <> "proceed"%string ->
  exists s',
    process_mesh H r mesh_obj s
    = Ok (if still_a_mesh mesh_obj s then add_skipped mesh_obj r
          else add_failed mesh_obj r) s'
    /\ labels s' = labels s
    /\ transactions (trace s') = transactions (trace s).
Proof.
  intros Hs Heval Hverdict.
  set (s0 := printed (Message (String.append "Processing: " mesh_obj)) s)
    in *.
  assert (Hconv : convert_single_mesh H mesh_obj true s0
                  = Ok (false, None) s1).
  { rewrite convert_unfold. unfold opening. simpl negb. unfold when.
    erewrite bind_ok; [|reflexivity].
    unfold evaluation_gate, try_except.
    erewrite bind_ok; [|exact Heval].
    apply String.eqb_neq in Hverdict. rewrite Hverdict. reflexivity. }
  pose proof (spec_ok _ _ _ _ Heval
                (@labels_evaluate laws (labels s0) mesh_obj s0 eq_refl))
    as Hlabels.
  pose proof (spec_ok _ _ _ _ Heval
                (@txn_evaluate (transactions (trace s0)) mesh_obj s0
                   eq_refl)) as Htxn.
  pose proof (spec_ok _ _ _ _ Heval
                (document_stays_evaluate mesh_obj (s := s0) Hs)) as Hdoc.
  unfold labels_are in Hlabels. unfold txn_is in Htxn.
  destruct (original_is_still_a_mesh_returns getObject_returns mesh_obj
              Hdoc) as (s' & Hcheck & Hd' & Ht').
  rewrite (@still_a_mesh_labels mesh_obj s0 s1 Hlabels) in Hcheck.
  change (still_a_mesh mesh_obj s0) with (still_a_mesh mesh_obj s)
    in Hcheck.
  exists s'. split.
  - unfold process_mesh. erewrite bind_ok; [|reflexivity].
    erewrite bind_ok; [|exact Hconv]. cbv iota beta.
    erewrite bind_ok; [|exact Hcheck].
    now destruct (still_a_mesh mesh_obj s).
  - split.
    + unfold labels in *. rewrite Hd'. exact Hlabels.
    + rewrite Ht'. exact Htxn.
Qed.

(** A successful conversion names the body. *)
Lemma convert_success_names_body mesh_obj base_transaction s body_name s' :
  convert_single_mesh H mesh_obj base_transaction s
  = Ok (true, body_name) s' ->
  body_name <> None.
Proof.
  intros Hrun.
  apply convert_inv_success in Hrun as (s1 & _ & Hconv).
  pose proof (spec_ok _ _ _ _ Hconv
                (conversion_result mesh_obj mesh_obj base_transaction s1))
    as (b & [= ->]).
  discriminate.
Qed.

(** The names in the three lists of the results. *)
Definition listed (r : results) : list string :=
  map fst (converted_objects r) ++ skipped_objects r ++ failed_objects r.

(** The counts are the lengths of the lists, and every conversion
    recorded has the name of its body. *)
Definition consistent (r : results) : Prop :=
  converted r = length (converted_objects r)
  /\ skipped r = length (skipped_objects r)
  /\ failed r = length (failed_objects r)
  /\ forall p, In p (converted_objects r) -> snd p <> None.

Lemma listed_converted original_name body_name r :
  Permutation (listed (add_converted original_name body_name r))
    (original_name :: listed r).
Proof.
  unfold listed. simpl. rewrite map_app. simpl. rewrite <- app_assoc.
  simpl. symmetry. apply Permutation_middle.
Qed.

Lemma listed_skipped original_name r :
  Permutation (listed (add_skipped original_name r))
    (original_name :: listed r).
Proof.
  unfold listed. simpl. rewrite <- app_assoc. simpl.
  rewrite app_assoc. symmetry.
  rewrite app_assoc. apply Permutation_middle.
Qed.

Lemma listed_failed original_name r :
  Permutation (listed (add_failed original_name r))
    (original_name :: listed r).
Proof.
  unfold listed. simpl. rewrite !app_assoc.
  symmetry. apply Permutation_cons_append.
Qed.

Lemma processed_listed mesh_objects r s r' s' :
  processed mesh_objects r s r' s' ->
  Permutation (listed r') (mesh_objects ++ listed r)
  /\ (consistent r -> consistent r').
Proof.
  induction 1 as [ r s
                 | x rest r s body_name s1 r' s' Hc _ [IHp IHc]
                 | x rest r s body_name s1 s2 r' s' _ _ _ _ [IHp IHc]
                 | x rest r s body_name s1 s2 r' s' _ _ _ _ [IHp IHc] ].
  - split; [reflexivity | auto].
  - split.
    + rewrite IHp, listed_converted. simpl. symmetry.
      apply Permutation_middle.
    + intros (H1 & H2 & H3 & H4). apply IHc.
      unfold consistent. simpl. rewrite length_app. simpl.
      repeat split; try lia.
      intros p Hp. apply in_app_or in Hp as [Hp|[<-|[]]]; [auto|].
      simpl. now apply convert_success_names_body in Hc.
  - split.
    + rewrite IHp, listed_skipped. simpl. symmetry.
      apply Permutation_middle.
    + intros (H1 & H2 & H3 & H4). apply IHc.
      unfold consistent. simpl. rewrite length_app. simpl.
      repeat split; try lia. exact H4.
  - split.
    + rewrite IHp, listed_failed. simpl. symmetry.
      apply Permutation_middle.
    + intros (H1 & H2 & H3 & H4). apply IHc.
      unfold consistent. simpl. rewrite length_app. simpl.
      repeat split; try lia. exact H4.
Qed.

(** X6.  When the loop of the batch completes, every mesh is in exactly
    one of the three lists of the results: the names of the converted,
    the skipped and the failed together are the names the loop was
    given, each as often as it was given; every count is the length of
    its list; the total is the number of meshes; and every conversion
    recorded has the name of its body. *)
Theorem every_mesh_is_listed_once mesh_objects s r s' :
  process_all H mesh_objects (initial_results (length mesh_objects)) s
  = Ok r s' ->
  Permutation
    (map fst (converted_objects r) ++ skipped_objects r ++ failed_objects r)
    mesh_objects
  /\ converted r = length (converted_objects r)
  /\ skipped r = length (skipped_objects r)
  /\ failed r = length (failed_objects r)
  /\ total_meshes r = length mesh_objects
  /\ forall p, In p (converted_objects r) -> snd p <> None.
Proof.
  intros Hrun. apply process_all_processed in Hrun.
  pose proof (processed_counts Hrun) as (Ht & _).
  apply processed_listed in Hrun as [Hp Hc].
  unfold listed in Hp. simpl in Hp. rewrite app_nil_r in Hp.
  destruct Hc as (H1 & H2 & H3 & H4).
  { unfold consistent. simpl. repeat split; auto. }
  simpl in Ht.
  split; [exact Hp|]. split; [exact H1|]. split; [exact H2|].
  split; [exact H3|]. split; [exact Ht | exact H4].
Qed.


(** ** The repair: what it writes *)

Lemma writes_repair_passes W :
  preserves (writes_are W) (repair_passes H).
Proof.
  unfold repair_passes, priority_pass, general_repair, fill_small_holes,
    diagnostic.
  unfold_host_calls.
  preserving fail side.
Qed.

(** The document-changing calls of lines 96-101. *)
Definition write_back (mesh_obj : string) (m : mesh) : list call :=
  [SetMesh mesh_obj m; Recompute; Recompute; Recompute].

(** The calls made since the writes [W]: none, or the first of the
    write-back. *)
Definition writing (W : list call) (mesh_obj : string) (s' : state)
  : Prop :=
  writes (trace s') = W
  \/ exists m k, writes (trace s') = W ++ firstn k (write_back mesh_obj m).

Lemma writes_logged (c : call) b (s : state) :
  writes (trace (logged c b s))
  = writes (trace s) ++ (if is_write c then [c] else []).
Proof.
  simpl. rewrite writes_app. unfold writes at 2. simpl.
  now destruct (is_write c).
Qed.

Lemma writes_write_back W mesh_obj initial s :
  writes (trace s) = W ->
  spec (write_back_and_check H mesh_obj initial) s
    (fun _ s' =>
       exists m,
         mutable_mesh (locals s') = Some m
         /\ writes (trace s') = W ++ write_back mesh_obj m)
    (fun _ => writing W mesh_obj).
Proof.
  intros Hs. unfold write_back_and_check.
  apply spec_bind. unfold spec at 1, the_mutable_mesh.
  destruct (mutable_mesh (locals s)) as [m|] eqn:Hm; [|now left].
  assert (Hk : forall k s',
            writes (trace s') = W ++ firstn k (write_back mesh_obj m) ->
            writing W mesh_obj s').
  { intros k s' Hw. right. now exists m, k. }
  apply spec_bind. unfold set_Mesh. apply spec_host.
  { apply (Hk 1). now rewrite writes_logged, Hs. }
  intros [] s1 _ Hs1. apply assign_effect in Hs1 as (objs & _ & _ & ->).
  apply spec_bind. unfold doc_recompute. apply spec_host.
  { apply (Hk 2). rewrite !writes_logged. simpl. rewrite Hs.
    now rewrite <- app_assoc. }
  intros [] s2 _ Hs2.
  assert (E2 : writes (trace s2) = W ++ [SetMesh mesh_obj m]
               /\ locals s2 = locals s).
  { revert Hs2. simpl. intros [= <-]. simpl.
    rewrite writes_app. unfold writes at 2. simpl. now rewrite Hs. }
  clear Hs2. destruct E2 as [E2 L2].
  apply spec_bind. apply spec_host.
  { apply (Hk 3). rewrite !writes_logged. simpl. rewrite E2.
    now rewrite <- !app_assoc. }
  intros [] s3 _ Hs3.
  assert (E3 : writes (trace s3) = W ++ [SetMesh mesh_obj m; Recompute]
               /\ locals s3 = locals s).
  { revert Hs3. simpl.
    destruct (ActiveDocument s2); [|discriminate]. intros [= <-]. simpl.
    rewrite writes_app. unfold writes at 2. simpl. rewrite E2.
    now rewrite <- app_assoc. }
  clear Hs3. destruct E3 as [E3 L3].
  apply spec_bind. apply spec_host.
  { apply (Hk 4). rewrite !writes_logged. simpl. rewrite E3.
    now rewrite <- !app_assoc. }
  intros [] s4 _ Hs4.
  assert (E4 : writes (trace s4)
               = W ++ [SetMesh mesh_obj m; Recompute; Recompute]
               /\ locals s4 = locals s).
  { revert Hs4. simpl.
    destruct (ActiveDocument s3); [|discriminate]. intros [= <-]. simpl.
    rewrite writes_app. unfold writes at 2. simpl. rewrite E3.
    now rewrite <- app_assoc. }
  clear Hs4. destruct E4 as [E4 L4].
  set (P := fun s' : state =>
              writes_are (W ++ write_back mesh_obj m) s'
              /\ on_frame (fun f => mutable_mesh f = Some m) s').
  assert (HP : P (logged Recompute true s4)).
  { split.
    - unfold writes_are. rewrite writes_logged. simpl. rewrite E4.
      now rewrite <- app_assoc.
    - unfold on_frame. simpl. now rewrite L4. }
  assert (Hrest : forall A (c : comp A),
            preserves (writes_are (W ++ write_back mesh_obj m)) c ->
            preserves (on_frame (fun f => mutable_mesh f = Some m)) c ->
            preserves P c).
  { intros A c H1 H2 s' [Hs1 Hs2]. specialize (H1 s' Hs1).
    specialize (H2 s' Hs2). unfold spec in *.
    destruct (c s'); split; assumption. }
  apply spec_preserved with (P := P); [ | exact HP | | ].
  - apply Hrest; unfold_host_calls; preserving fail side.
  - intros b s' [Hw Hf]. exists m. split; [exact Hf | exact Hw].
  - intros e s' [Hw Hf]. apply (Hk 4). exact Hw.
Qed.

Lemma writes_repair_body mesh_obj s :
  spec (repair_body H mesh_obj) s
    (fun b s' =>
       match repairs_applied (locals s') with
       | [] => writes (trace s') = writes (trace s)
       | _ :: _ =>
           exists m,
             mutable_mesh (locals s') = Some m
             /\ writes (trace s')
                = writes (trace s) ++ write_back mesh_obj m
       end)
    (fun _ => writing (writes (trace s)) mesh_obj).
Proof.
  set (W := writes (trace s)).
  assert (Hearly : forall (e : exn) s', writes_are W s' ->
                     writing W mesh_obj s') by (intros e s' Hw; now left).
  unfold repair_body.
  apply spec_seq_preserved with (P := writes_are W);
    [ unfold_host_calls; preserving fail side | reflexivity | | exact Hearly ].
  intros m0 s1 H1.
  apply spec_seq_preserved with (P := writes_are W);
    [ unfold_host_calls; preserving fail side | exact H1 | | exact Hearly ].
  clear H1 s1. intros topology s1 H1.
  apply spec_seq_preserved with (P := writes_are W);
    [ unfold_host_calls; preserving fail side | exact H1 | | exact Hearly ].
  clear H1 s1. intros copy s1 H1.
  apply spec_seq_preserved with (P := writes_are W);
    [ preserving fail side | exact H1 | | exact Hearly ].
  clear H1 s1. intros ? s1 H1.
  apply spec_seq_preserved with (P := writes_are W);
    [ preserving fail side | exact H1 | | exact Hearly ].
  clear H1 s1. intros ? s1 H1.
  apply spec_seq_preserved with (P := writes_are W);
    [ apply writes_repair_passes | exact H1 | | exact Hearly ].
  clear H1 s1. intros initial s1 H1.
  apply spec_bind. eapply spec_intro_ok; [reflexivity|].
  destruct (repairs_applied (locals s1)) as [|d applied] eqn:Happlied.
  - apply spec_bind. eapply spec_intro_ok; [reflexivity|].
    eapply spec_intro_ok; [reflexivity|]. simpl. rewrite Happlied.
    exact H1.
  - pose proof (@spec_conj _ _ _ _ _ _ _
                  (@writes_write_back W mesh_obj initial s1 H1)
                  (kept_write_back mesh_obj initial (kept_refl s1)))
      as Hwb.
    eapply spec_weaken; [exact Hwb | | ].
    + intros b s' [Hw (Hl & _ & _)].
      destruct (repairs_applied (locals s')) eqn:Ha; [|exact Hw].
      rewrite Hl, Happlied in Ha. discriminate Ha.
    + intros e s' [Hw _]. exact Hw.
Qed.

(** X8.  The repair never adds or removes an object and writes at most
    once: the document-changing calls it makes are none, or the first of
    the assignment of the mutated copy to the object's [Mesh] followed by
    three recomputations, in that order.  A repair that returns [True]
    has made all four. *)
Theorem repair_writes_back_at_most_once mesh_obj s :
  exists b s',
    attempt_comprehensive_manual_repair H mesh_obj s = Ok b s'
    /\ (writes (trace s') = writes (trace s)
        \/ exists m k,
             writes (trace s')
             = writes (trace s)
               ++ firstn k [SetMesh mesh_obj m; Recompute; Recompute;
                            Recompute])
    /\ (b = true ->
        exists m,
          mutable_mesh (locals s') = Some m
          /\ writes (trace s')
             = writes (trace s)
               ++ [SetMesh mesh_obj m; Recompute; Recompute; Recompute]).
Proof.
  rewrite attempt_unfold.
  pose proof (writes_repair_body mesh_obj (set_locals empty_frame s))
    as Hw.
  pose proof (@repair_body_run mesh_obj (set_locals empty_frame s) eq_refl)
    as Hrun.
  unfold spec in Hw, Hrun.
  destruct (repair_body H mesh_obj (set_locals empty_frame s))
    as [b s'|e s'].
  - exists b, s'. split; [reflexivity|].
    destruct Hrun as [_ [Hnil _]].
    destruct (repairs_applied (locals s')) as [|d applied].
    + split; [now left|]. intros ->. now specialize (Hnil eq_refl).
    + destruct Hw as (m & Hm & Hw). split.
      * right. now exists m, 4.
      * intros _. now exists m.
  - eexists. eexists. split; [reflexivity|]. split; [exact Hw|].
    discriminate.
Qed.

(** ** The discovery *)

Lemma in_mesh_names (objs : list docobj) name :
  In name (map Name (filter has_Mesh objs))
  <-> exists o, In o objs /\ Name o = name /\ Mesh o <> None.
Proof.
  rewrite in_map_iff. split.
  - intros (o & Hn & Ho). apply filter_In in Ho as [Ho Hm].
    exists o. split; [exact Ho|]. split; [exact Hn|].
    unfold has_Mesh in Hm. destruct (Mesh o); [discriminate | discriminate].
  - intros (o & Ho & Hn & Hm). exists o. split; [exact Hn|].
    apply filter_In. split; [exact Ho|].
    unfold has_Mesh. destruct (Mesh o); [reflexivity | now contradiction Hm].
Qed.


(** ** The analysis *)

Lemma txn_analyze_mesh T a mesh_obj :
  preserves (txn_is T) (analyze_mesh H a mesh_obj).
Proof.
  unfold analyze_mesh. preserving ltac:(apply txn_evaluate) side.
Qed.

Lemma txn_analyze_all T mesh_objects :
  forall a, preserves (txn_is T) (analyze_all H mesh_objects a).
Proof.
  induction mesh_objects as [|x rest IH]; intros a; simpl.
  - apply preserves_ret.
  - apply preserves_bind; [apply txn_analyze_mesh | intros; apply IH].
Qed.

(** The meshes counted so far. *)
Definition counted (a : analysis) : nat :=
  clean a + repairable a + problematic a.

Lemma analyze_mesh_counts a mesh_obj s :
  spec (analyze_mesh H a mesh_obj) s
    (fun a' _ => counted a' = counted a + 1
                 /\ clean a <= clean a'
                 /\ repairable a <= repairable a'
                 /\ problematic a <= problematic a')
    (fun _ _ => False).
Proof.
  unfold analyze_mesh. apply spec_bind.
  eapply spec_weaken; [apply evaluate_total | | auto].
  intros evaluation s1 _.
  destruct (String.eqb evaluation "proceed");
    [|destruct (String.eqb evaluation "repair")];
    unfold spec, ret, counted; simpl; lia.
Qed.

Lemma analyze_all_counts mesh_objects :
  forall a s,
    spec (analyze_all H mesh_objects a) s
      (fun a' _ => counted a' = counted a + length mesh_objects
                   /\ clean a <= clean a'
                   /\ repairable a <= repairable a'
                   /\ problematic a <= problematic a')
      (fun _ _ => False).
Proof.
  induction mesh_objects as [|x rest IH]; intros a s.
  - unfold spec. simpl. lia.
  - simpl analyze_all. apply spec_bind.
    eapply spec_weaken; [apply analyze_mesh_counts | | auto].
    intros a1 s1 (Hc & H1 & H2 & H3).
    eapply spec_weaken; [apply IH | | auto].
    intros a2 s2 (Hc' & H1' & H2' & H3'). simpl. lia.
Qed.


(** ** The clean-up: what it leaves alone *)

(** The labels of the objects whose name is none of the four patterns. *)
Definition others (base_name : string) (L : list (string * string))
  : list (string * string) :=
  filter (fun p => negb (existsb (String.eqb (fst p))
                           (temp_names base_name))) L.

Definition others_are (base_name : string)
  (O : option (list (string * string))) (s : state) : Prop :=
  option_map (others base_name) (labels s) = O.

Lemma filter_absorb {A : Type} (f g : A -> bool) (l : list A) :
  (forall x, f x = true -> g x = true) ->
  filter f (filter g l) = filter f l.
Proof.
  intros Hfg. induction l as [|x l IH]; [reflexivity|].
  cbn [filter]. destruct (g x) eqn:Hg.
  - cbn [filter]. now rewrite IH.
  - rewrite IH. destruct (f x) eqn:Hf; [|reflexivity].
    rewrite (Hfg x Hf) in Hg. discriminate Hg.
Qed.

Lemma others_without base_name name L :
  In name (temp_names base_name) ->
  others base_name (without name L) = others base_name L.
Proof.
  intros Hn. unfold others, without. apply filter_absorb.
  intros p Hp. apply negb_true_iff in Hp. apply negb_true_iff.
  destruct (String.eqb (fst p) name) eqn:E; [|reflexivity].
  rewrite <- Hp. symmetry. apply existsb_exists.
  exists name. split; [exact Hn | exact E].
Qed.

Lemma others_removeObject base_name O name :
  In name (temp_names base_name) ->
  preserves (others_are base_name O) (removeObject H name).
Proof.
  intros Hn. unfold removeObject. apply preserves_host.
  - intros b s Hs. exact Hs.
  - intros s [] s1 Hsem Hs. unfold others_are, labels in *.
    destruct (ActiveDocument s) as [objs|]; [|discriminate].
    destruct (lookup name objs); [|discriminate].
    injection Hsem as <-. simpl in *.
    rewrite labels_remove, others_without; assumption.
Qed.

Lemma others_removals base_name O (todo : list string) :
  (forall n, In n todo -> In n (temp_names base_name)) ->
  preserves (others_are base_name O)
    (for_each todo (fun obj_name =>
       try (removeObject H obj_name) except (fun _ => ret tt))).
Proof.
  induction todo as [|n todo IH]; intros Htodo; simpl.
  - apply preserves_ret.
  - apply preserves_bind.
    + apply preserves_try;
        [apply others_removeObject, Htodo; now left|].
      intros e. apply preserves_ret.
    + intros _. apply IH. intros n' Hn'. apply Htodo. now right.
Qed.

(** Lines 311-316 find names among those they are given. *)
Lemma existing_objects_found P names :
  forall s,
    P s ->
    (forall c b s', P s' -> P (logged c b s')) ->
    spec (existing_objects H names) s
      (fun found s' => P s' /\ forall n, In n found -> In n names)
      (fun _ => P).
Proof.
  induction names as [|name rest IH]; intros s Hs Hlog.
  - split; [exact Hs | auto].
  - simpl existing_objects. apply spec_bind. unfold getObject.
    apply spec_host; [now apply Hlog|].
    intros o s1 _ Hsem.
    assert (s1 = s) as ->
        by (destruct (ActiveDocument s); [now injection Hsem|discriminate]).
    apply spec_bind.
    eapply spec_weaken; [apply IH; [apply Hlog, Hs | exact Hlog] | | auto].
    intros found s2 [H2 Hfound]. split; [exact H2|].
    intros n. destruct o; simpl; intuition.
Qed.


(** ** The repair: the priority pass *)

(** The labels in [X] are among the steps applied, and the flag is set
    only when both steps of the priority pass are. *)
Definition priority_rule (X : list string) (f : @frame mesh) : Prop :=
  (forall d, In d X -> In d (repairs_applied f))
  /\ (self_intersections_fixed_on_mutable f = true ->
      In "Fix self-intersections (priority)"%string (repairs_applied f)
      /\ In "Harmonize Normals (after self-intersection fix)"%string
           (repairs_applied f)).

Ltac rule_side :=
  sem_cases; unfold on_frame, priority_rule in *; simpl in *;
  first
    [ assumption
    | match goal with
      | Hs : _ /\ _ |- _ =>
          let Hx := fresh "Hx" in
          let Hf := fresh "Hf" in
          destruct Hs as [Hx Hf]; split;
          [ intros d Hd;
            first [ now apply Hx | apply in_or_app; left; now apply Hx ]
          | let Hfix := fresh "Hfix" in
            intros Hfix;
            first [ discriminate Hfix
                  | destruct (Hf Hfix); split;
                    first [ assumption
                          | apply in_or_app; left; assumption ] ] ]
      end ].

Lemma rule_weaken X (f : @frame mesh) :
  priority_rule X f -> priority_rule [] f.
Proof. intros [_ Hf]. split; [intros d []|exact Hf]. Qed.

Lemma rule_call_method X name args :
  preserves (on_frame (priority_rule X)) (call_method H name args).
Proof. preserving fail rule_side. Qed.

Lemma rule_diagnostic X :
  preserves (on_frame (priority_rule X)) (diagnostic H).
Proof. unfold diagnostic. unfold_host_calls. preserving fail rule_side. Qed.

Lemma rule_append X d s :
  on_frame (priority_rule X) s ->
  spec (repairs_applied_append d) s
    (fun _ => on_frame (priority_rule (d :: X)))
    (fun _ _ => False).
Proof.
  intros [Hx Hf]. unfold spec, repairs_applied_append, on_frame. simpl.
  split.
  - intros d' [<-|Hd]; apply in_or_app; [right; now left | left; auto].
  - intros Hfix. destruct (Hf Hfix). split; apply in_or_app; now left.
Qed.

Ltac rule_step known handler :=
  match goal with
  | Hs : on_frame (priority_rule ?X) ?s |- spec _ ?s _ _ =>
      apply spec_seq_preserved with (P := on_frame (priority_rule X));
      [ known | exact Hs | | apply handler ]
  end.

Lemma rule_priority_pass :
  preserves (on_frame (priority_rule [])) (priority_pass H).
Proof.
  intros s Hs. unfold priority_pass.
  apply spec_bind. eapply spec_intro_ok; [reflexivity|].
  assert (Hs0 : on_frame (priority_rule [])
                  (printed
                     (Message "Fix self-intersections (priority pass)...)")
                     s)) by exact Hs.
  revert Hs0. generalize (printed
                     (Message "Fix self-intersections (priority pass)...)")
                     s).
  clear Hs s. intros s Hs.
  apply spec_try.
  assert (HE : forall (X : list string) (e : exn) s1,
            on_frame (priority_rule X) s1 ->
            spec (PrintMessage
                    "Fix self-intersections (priority pass) failed") s1
              (fun _ => on_frame (priority_rule []))
              (fun _ => on_frame (priority_rule []))).
  { intros X e s1 H1. eapply spec_intro_ok; [reflexivity|].
    exact (rule_weaken H1). }
  rule_step ltac:(apply rule_call_method) HE.
  clear Hs s. intros [] s Hs.
  apply spec_bind.
  eapply spec_weaken; [apply rule_append, Hs | | intros ? ? []].
  clear Hs s. intros [] s Hs. cbv beta in Hs.
  rule_step ltac:(apply rule_diagnostic) HE.
  clear Hs s. intros [] s Hs.
  rule_step ltac:(preserving fail rule_side) HE.
  clear Hs s. intros [] s Hs.
  rule_step ltac:(apply rule_call_method) HE.
  clear Hs s. intros [] s Hs.
  apply spec_bind.
  eapply spec_weaken; [apply rule_append, Hs | | intros ? ? []].
  clear Hs s. intros [] s Hs. cbv beta in Hs.
  rule_step ltac:(apply rule_diagnostic) HE.
  clear Hs s. intros [] s Hs.
  rule_step ltac:(preserving fail rule_side) HE.
  clear Hs s. intros m s Hs.
  rule_step ltac:(unfold_host_calls; preserving fail rule_side) HE.
  clear Hs s. intros still s Hs.
  destruct (negb still).
  - apply spec_bind. eapply spec_intro_ok; [reflexivity|].
    eapply spec_intro_ok; [reflexivity|].
    destruct Hs as [Hx _]. unfold on_frame. simpl. split; [intros d []|].
    intros _. split; apply Hx; simpl; auto.
  - eapply spec_intro_ok; [reflexivity|]. exact (rule_weaken Hs).
Qed.

Lemma rule_repair_passes s :
  spec (repair_passes H) s
    (fun _ => on_frame (priority_rule []))
    (fun _ => on_frame (priority_rule [])).
Proof.
  unfold repair_passes.
  apply spec_bind. eapply spec_intro_ok; [reflexivity|].
  apply spec_bind. eapply spec_intro_ok; [reflexivity|].
  apply spec_preserved with (P := on_frame (priority_rule []));
    [ | | auto | auto ].
  - unfold general_repair, fill_small_holes.
    preserving
      ltac:(first [ apply rule_priority_pass | apply rule_diagnostic
                  | apply rule_call_method ])
      rule_side.
  - unfold on_frame. simpl. split; [intros d [] | discriminate].
Qed.

Lemma rule_repair mesh_obj s :
  spec (attempt_comprehensive_manual_repair H mesh_obj) s
    (fun _ => on_frame (priority_rule [])) (fun _ _ => False).
Proof.
  assert (H0 : on_frame (priority_rule []) (set_locals empty_frame s)).
  { unfold on_frame. simpl. split; [intros d [] | discriminate]. }
  unfold attempt_comprehensive_manual_repair.
  apply spec_bind. eapply spec_intro_ok; [reflexivity|].
  apply spec_try.
  assert (HE : forall (e : exn) s1,
            on_frame (priority_rule []) s1 ->
            spec (PrintError (String.append "Manual repair error for "
                                mesh_obj) ;; ret false) s1
              (fun _ => on_frame (priority_rule [])) (fun _ _ => False)).
  { intros e s1 H1. apply spec_bind.
    eapply spec_intro_ok; [reflexivity|].
    eapply spec_intro_ok; [reflexivity|]. exact H1. }
  unfold repair_body.
  apply spec_seq_preserved with (P := on_frame (priority_rule []));
    [ unfold_host_calls; preserving fail rule_side | exact H0 | | exact HE ].
  clear H0. intros m0 s1 H1.
  apply spec_seq_preserved with (P := on_frame (priority_rule []));
    [ unfold_host_calls; preserving fail rule_side | exact H1 | | exact HE ].
  clear H1 s1. intros topology s1 H1.
  apply spec_seq_preserved with (P := on_frame (priority_rule []));
    [ unfold_host_calls; preserving fail rule_side | exact H1 | | exact HE ].
  clear H1 s1. intros copy s1 H1.
  apply spec_seq_preserved with (P := on_frame (priority_rule []));
    [ preserving fail rule_side | exact H1 | | exact HE ].
  clear H1 s1. intros ? s1 H1.
  apply spec_seq_preserved with (P := on_frame (priority_rule []));
    [ preserving fail rule_side | exact H1 | | exact HE ].
  clear H1 s1. intros ? s1 H1.
  apply spec_bind.
  eapply spec_weaken; [apply rule_repair_passes | | exact HE].
  clear H1 s1. intros initial s1 H1.
  apply spec_bind. eapply spec_intro_ok; [reflexivity|].
  destruct (repairs_applied (locals s1)).
  - apply spec_bind. eapply spec_intro_ok; [reflexivity|].
    eapply spec_intro_ok; [reflexivity|]. exact H1.
  - apply spec_preserved with (P := on_frame (priority_rule []));
      [ | exact H1 | auto | exact HE ].
    unfold write_back_and_check. unfold_host_calls.
    preserving fail rule_side.
Qed.

(** X12.  When the first check found self-intersections, the repair
    returns [True] only if the whole priority pass went through:
    [fixSelfIntersections] and [harmonizeNormals] both returned, so that
    both count as applied, and the re-check of the copy found no
    self-intersection.  If [harmonizeNormals] raises, the repair returns
    [False] whatever the later steps do to the mesh. *)
Theorem priority_pass_must_complete mesh_obj s s' :
  attempt_comprehensive_manual_repair H mesh_obj s = Ok true s' ->
  initial_has_self_intersections (locals s') = Some true ->
  self_intersections_fixed_on_mutable (locals s') = true
  /\ In "Fix self-intersections (priority)"%string
       (repairs_applied (locals s'))
  /\ In "Harmonize Normals (after self-intersection fix)"%string
       (repairs_applied (locals s')).
Proof.
  intros Hrun Hinitial.
  pose proof (spec_ok _ _ _ _ Hrun (rule_repair mesh_obj s)) as [_ Hrule].
  apply repair_true_verdicts in Hrun
    as (m & initial & _ & Hi & _ & _ & Hfixed).
  rewrite Hinitial in Hi. injection Hi as <-.
  split; [exact Hfixed|]. exact (Hrule Hfixed).
Qed.

(** ** The analysis and the objects of the document *)

Section Objects.

Hypothesis laws : HostLaws H.

Ltac same_labels := solve [ intros; assumption ].

Lemma labels_analyze_mesh L a mesh_obj :
  preserves (labels_are L) (analyze_mesh H a mesh_obj).
Proof.
  unfold analyze_mesh.
  preserving ltac:(apply (labels_evaluate laws)) same_labels.
Qed.

Lemma labels_analyze_all L mesh_objects :
  forall a, preserves (labels_are L) (analyze_all H mesh_objects a).
Proof.
  induction mesh_objects as [|x rest IH]; intros a; simpl.
  - apply preserves_ret.
  - apply preserves_bind; [apply labels_analyze_mesh | intros; apply IH].
Qed.

Lemma labels_analyze L :
  preserves (labels_are L) (analyze_document_meshes H).
Proof.
  unfold analyze_document_meshes, find_all_mesh_objects.
  preserving ltac:(apply labels_analyze_all) same_labels.
Qed.

(** X13.  The evaluation and the analysis are not read-only, since a
    repair writes the mended mesh back; but however they end they add,
    remove, rename and retype no object of the document. *)
Theorem analysis_keeps_the_objects selected_mesh s :
  labels (reached (evaluate_mesh_automated H selected_mesh s)) = labels s
  /\ labels (reached (analyze_document_meshes H s)) = labels s.
Proof.
  split.
  - pose proof (@labels_evaluate laws (labels s) selected_mesh s eq_refl)
      as He. unfold spec in He.
    destruct (evaluate_mesh_automated H selected_mesh s); exact He.
  - pose proof (@labels_analyze (labels s) s eq_refl) as Ha.
    unfold spec in Ha.
    destruct (analyze_document_meshes H s); exact Ha.
Qed.

End Objects.

(** ** Converting one mesh: when it succeeds *)

Section Quiet.

Hypothesis laws : HostLaws H.

(** No host call raises. *)
Hypothesis quiet : forall s c, raises H s c = false.

Lemma spec_quiet {A : Type} (c : call) (sem : state -> option (A * state))
  s (Q : A -> state -> Prop) (E : exn -> state -> Prop) :
  spec (host H c sem) s Q E -> sem s <> None ->
  spec (host H c sem) s Q (fun _ _ => False).
Proof.
  unfold spec, host. rewrite quiet.
  destruct (sem s) as [[a s1]|]; [auto | intros _ Hn; now apply Hn].
Qed.

Lemma doc_state_lookup keep L Ev s name :
  doc_state keep L Ev s -> In name (map fst L) ->
  exists objs o, ActiveDocument s = Some objs /\ lookup name objs = Some o.
Proof.
  intros [(objs & Hd & <- & _) _] Hin. exists objs.
  destruct (lookup name objs) as [o|] eqn:Hl; [eauto|].
  apply lookup_none_notin in Hl. contradiction.
Qed.

Lemma quiet_assign keep L Ev (c : call) obj (f : docobj -> docobj) s :
  (forall o, label (f o) = label o) ->
  apart keep obj ->
  In obj (map fst L) ->
  doc_state keep L Ev s ->
  spec (host H c (assign obj f)) s
    (fun _ => doc_state keep L ((c, true) :: Ev))
    (fun _ _ => False).
Proof.
  intros Hf Hobj Hin Hs.
  apply spec_quiet with (E := fun _ => doc_state keep L Ev);
    [now apply step_assign|].
  destruct (@doc_state_lookup keep L Ev s obj Hs Hin)
    as (objs & o & Hd & Hl).
  unfold assign. rewrite Hd, Hl. discriminate.
Qed.

Lemma quiet_addObject keep L Ev type name s :
  doc_state keep L Ev s ->
  spec (addObject H type name) s
    (fun n s' => n = uniqueName H (map fst L) name
                 /\ doc_state keep (L ++ [(n, type)])
                      ((AddObject type name, true) :: Ev) s')
    (fun _ _ => False).
Proof.
  intros Hs. unfold addObject.
  apply spec_quiet with (E := fun _ => doc_state keep L Ev);
    [exact (@step_addObject keep L Ev type name s Hs)|].
  destruct Hs as [(objs & Hd & _) _]. rewrite Hd. discriminate.
Qed.

Lemma quiet_removeObject keep L Ev name s :
  apart keep name ->
  In name (map fst L) ->
  doc_state keep L Ev s ->
  spec (removeObject H name) s
    (fun _ => doc_state keep (without name L)
                ((RemoveObject name, true) :: Ev))
    (fun _ _ => False).
Proof.
  intros Hname Hin Hs. unfold removeObject.
  apply spec_quiet
    with (E := fun _ => doc_state keep L ((RemoveObject name, false) :: Ev));
    [exact (@step_removeObject keep L Ev name s Hname Hs)|].
  destruct (@doc_state_lookup keep L Ev s name Hs Hin)
    as (objs & o & Hd & Hl).
  rewrite Hd, Hl. discriminate.
Qed.

Lemma quiet_recompute keep L Ev s :
  keeps_mesh keep ->
  doc_state keep L Ev s ->
  spec (doc_recompute H) s
    (fun _ => doc_state keep L ((Recompute, true) :: Ev))
    (fun _ _ => False).
Proof.
  intros Hk Hs. unfold doc_recompute.
  apply spec_quiet with (E := fun _ => doc_state keep L Ev);
    [exact (@step_recompute laws keep L Ev s Hk Hs)|].
  destruct Hs as [(objs & Hd & _) _]. rewrite Hd. discriminate.
Qed.

Lemma quiet_get_Shape keep L Ev obj s :
  In obj (map fst L) ->
  doc_state keep L Ev s ->
  spec (get_Shape H obj) s
    (fun _ => doc_state keep L Ev) (fun _ _ => False).
Proof.
  intros Hin Hs. unfold get_Shape.
  apply spec_quiet with (E := fun _ => doc_state keep L Ev).
  - eapply spec_weaken;
      [ apply step_read; [ sem_cases; reflexivity | exact Hs ] | | auto ].
    intros sh s1 [H1 _].
    apply doc_state_events with (2 := H1). intros x Hx. now right.
  - destruct (@doc_state_lookup keep L Ev s obj Hs Hin)
      as (objs & o & Hd & Hl).
    unfold object_of. rewrite Hd, Hl. discriminate.
Qed.

Lemma in_without name other (L : list (string * string)) :
  In name (map fst L) -> name <> other ->
  In name (map fst (without other L)).
Proof.
  intros Hin Hne. apply in_map_iff in Hin as (p & Hp & Hin).
  apply in_map_iff. exists p. split; [exact Hp|].
  unfold without. apply filter_In. split; [exact Hin|].
  apply negb_true_iff, String.eqb_neq. now rewrite Hp.
Qed.

(** Lines 282-304 on a quiet host. *)
Lemma create_body_returns L Ev mesh_obj base_name objs base_transaction s :
  In mesh_obj (map fst L) ->
  map fst (intermediates L base_name)
  = [fst (fst objs); snd (fst objs); snd objs] ->
  doc_state None (L ++ intermediates L base_name) Ev s ->
  spec (create_body H mesh_obj base_name objs base_transaction) s
    (fun r _ => exists body_name, r = (true, Some body_name))
    (fun _ _ => False).
Proof.
  intros Hmesh Hobjs Hs. destruct objs as [[shape_obj solid_obj] refined_obj].
  unfold intermediates in *.
  set (n1 := uniqueName H (map fst L) (String.append base_name "_shape"))
    in *.
  set (L1 := L ++ [(n1, "Part::Feature"%string)]) in *.
  set (n2 := uniqueName H (map fst L1) (String.append base_name "_solid"))
    in *.
  set (L2 := L1 ++ [(n2, "Part::Feature"%string)]) in *.
  set (n3 := uniqueName H (map fst L2)
               (String.append base_name "_solid_refined")) in *.
  simpl in Hobjs. injection Hobjs as <- <- <-.
  set (L3 := L ++ [(n1, "Part::Feature"); (n2, "Part::Feature");
                   (n3, "Part::Refine")]%string) in *.
  assert (N12 : n2 <> n1).
  { intros Heq. apply (uniqueName_fresh laws (map fst L1)
                         (String.append base_name "_solid")).
    fold n2. rewrite Heq. unfold L1. rewrite map_app.
    apply in_or_app. right. now left. }
  assert (N13 : n3 <> n1).
  { intros Heq. apply (uniqueName_fresh laws (map fst L2)
                         (String.append base_name "_solid_refined")).
    fold n3. rewrite Heq. unfold L2, L1. rewrite !map_app.
    apply in_or_app. left. apply in_or_app. right. now left. }
  assert (N23 : n3 <> n2).
  { intros Heq. apply (uniqueName_fresh laws (map fst L2)
                         (String.append base_name "_solid_refined")).
    fold n3. rewrite Heq. unfold L2. rewrite map_app.
    apply in_or_app. right. now left. }
  assert (M1 : mesh_obj <> n1).
  { intros Heq. apply (uniqueName_fresh laws (map fst L)
                         (String.append base_name "_shape")).
    fold n1. now rewrite <- Heq. }
  assert (M2 : mesh_obj <> n2).
  { intros Heq. apply (uniqueName_fresh laws (map fst L1)
                         (String.append base_name "_solid")).
    fold n2. rewrite <- Heq. unfold L1. rewrite map_app.
    apply in_or_app. now left. }
  assert (M3 : mesh_obj <> n3).
  { intros Heq. apply (uniqueName_fresh laws (map fst L2)
                         (String.append base_name "_solid_refined")).
    fold n3. rewrite <- Heq. unfold L2, L1. rewrite !map_app.
    apply in_or_app. left. apply in_or_app. now left. }
  assert (I1 : In n1 (map fst L3))
    by (unfold L3; rewrite map_app; apply in_or_app; right; simpl; tauto).
  assert (I2 : In n2 (map fst L3))
    by (unfold L3; rewrite map_app; apply in_or_app; right; simpl; tauto).
  assert (I3 : In n3 (map fst L3))
    by (unfold L3; rewrite map_app; apply in_or_app; right; simpl; tauto).
  assert (IM : In mesh_obj (map fst L3))
    by (unfold L3; rewrite map_app; apply in_or_app; now left).
  assert (Hgrow : forall x (A B : list (string * string)),
            In x (map fst A) -> In x (map fst (A ++ B))).
  { intros x A B Hx. rewrite map_app. apply in_or_app. now left. }
  assert (Hlast : forall (A : list (string * string)) p,
            In (fst p) (map fst (A ++ [p]))).
  { intros A p. rewrite map_app. apply in_or_app. right. now left. }
  unfold create_body.
  apply spec_bind. eapply spec_weaken; [apply quiet_addObject, Hs | | auto].
  clear Hs s. intros simple s [-> Hs].
  set (n4 := uniqueName H (map fst L3)
               (String.append base_name "_solid_simple")) in *.
  set (L4 := L3 ++ [(n4, "Part::Feature"%string)]) in *.
  assert (I4 : In n4 (map fst L4))
    by apply (Hlast L3 (n4, "Part::Feature"%string)).
  apply spec_bind.
  eapply spec_weaken;
    [apply quiet_get_Shape with (keep := None) (L := L4);
       [apply Hgrow, I3 | exact Hs] | | auto].
  clear Hs s. intros sh s Hs. cbv beta in Hs.
  unfold set_Shape, set_BaseFeature, set_Visibility.
  apply spec_bind.
  eapply spec_weaken;
    [apply quiet_assign with (keep := None) (L := L4);
       [reflexivity | exact I | exact I4 | exact Hs]
    | | auto].
  clear Hs s. intros ? s Hs. cbv beta in Hs.
  apply spec_bind. eapply spec_weaken; [apply quiet_addObject, Hs | | auto].
  clear Hs s. intros body s [-> Hs].
  set (n5 := uniqueName H (map fst L4) (String.append base_name "_Body"))
    in *.
  set (L5 := L4 ++ [(n5, "PartDesign::Body"%string)]) in *.
  assert (I5 : In n5 (map fst L5))
    by apply (Hlast L4 (n5, "PartDesign::Body"%string)).
  apply spec_bind.
  eapply spec_weaken;
    [apply quiet_assign with (keep := None) (L := L5);
       [reflexivity | exact I | exact I5 | exact Hs]
    | | auto].
  clear Hs s. intros ? s Hs. cbv beta in Hs.
  apply spec_bind.
  eapply spec_weaken;
    [apply quiet_assign with (keep := None) (L := L5);
       [reflexivity | exact I | apply Hgrow, I4 | exact Hs]
    | | auto].
  clear Hs s. intros ? s Hs. cbv beta in Hs.
  apply spec_bind.
  eapply spec_weaken;
    [apply quiet_removeObject with (keep := None) (L := L5);
       [exact I | apply Hgrow, Hgrow, I1 | exact Hs]
    | | auto].
  clear Hs s. intros ? s Hs. cbv beta in Hs.
  apply spec_bind.
  eapply spec_weaken;
    [apply quiet_removeObject with (keep := None) (L := without n1 L5);
       [exact I | apply in_without; [apply Hgrow, Hgrow, I2 | exact N12]
       | exact Hs]
    | | auto].
  clear Hs s. intros ? s Hs. cbv beta in Hs.
  apply spec_bind.
  eapply spec_weaken;
    [apply quiet_removeObject
       with (keep := None) (L := without n2 (without n1 L5));
       [exact I
       | apply in_without;
           [apply in_without; [apply Hgrow, Hgrow, I3 | exact N13]
           | exact N23]
       | exact Hs]
    | | auto].
  clear Hs s. intros ? s Hs. cbv beta in Hs.
  apply spec_bind.
  eapply spec_weaken;
    [apply quiet_removeObject
       with (keep := None)
            (L := without n3 (without n2 (without n1 L5)));
       [exact I
       | apply in_without;
           [apply in_without;
              [apply in_without; [apply Hgrow, Hgrow, IM | exact M1]
              | exact M2]
           | exact M3]
       | exact Hs]
    | | auto].
  clear Hs s. intros ? s Hs. cbv beta in Hs.
  apply spec_bind.
  eapply spec_weaken;
    [apply quiet_recompute with (keep := None); [exact I | exact Hs]
    | | auto].
  clear Hs s. intros ? s Hs.
  apply spec_bind. eapply spec_intro_ok; [reflexivity|].
  apply spec_bind.
  destruct base_transaction; simpl;
    (eapply spec_intro_ok; [reflexivity|]);
    (eapply spec_intro_ok; [reflexivity|]); eauto.
Qed.

(** X14.  On a host none of whose calls raises, and which keeps its
    laws, a mesh that the evaluation lets through and whose refined
    solid is found valid is converted: the function returns [True] with
    the name of the body. *)
Theorem conversion_succeeds_when_the_solid_is_valid mesh_obj
  base_transaction s s1 objs s2 s3 :
  conversion_starts mesh_obj base_transaction s s1 ->
  build_intermediates H mesh_obj mesh_obj s1 = Ok objs s2 ->
  refined_is_valid H (snd objs) s2 = Ok true s3 ->
  exists body_name s',
    convert_single_mesh H mesh_obj base_transaction s
    = Ok (true, Some body_name) s'.
Proof.
  intros Hstart Hbuild Hvalid.
  destruct (conversion_starts_facts laws Hstart)
    as (_ & (o & m & Ho & Hm) & _).
  destruct (labels s1) as [L|] eqn:HL.
  2:{ unfold labels, object_of in *.
      destruct (ActiveDocument s1); discriminate. }
  pose proof (@doc_state_of_labels mesh_obj s1 L o HL Ho) as Hs1.
  assert (Hin : In mesh_obj (map fst L))
    by apply (doc_state_kept_in Hs1).
  assert (Hkeep : keeps_mesh (Some (mesh_obj, o)))
    by (unfold keeps_mesh, has_Mesh; now rewrite Hm).
  pose proof (spec_ok _ _ _ _ Hbuild
                (@build_intermediates_spec laws (Some (mesh_obj, o)) L []
                   mesh_obj mesh_obj s1 Hkeep Hs1))
    as (Hobjs & m' & _ & H2).
  pose proof (spec_ok _ _ _ _ Hvalid
                (refined_is_valid_spec (snd objs) H2)) as H3.
  apply doc_state_forget in H3.
  pose proof (@create_body_returns L _ mesh_obj mesh_obj objs
                base_transaction s3 Hin Hobjs H3) as Hbody.
  unfold spec in Hbody.
  destruct (create_body H mesh_obj mesh_obj objs base_transaction s3)
    as [r s'|e s'] eqn:Hcreate; [|contradiction].
  destruct Hbody as (body_name & ->). exists body_name, s'.
  rewrite (convert_after_gate Hstart). apply try_ok.
  unfold conversion. erewrite bind_ok; [|exact Hbuild].
  erewrite bind_ok; [|exact Hvalid]. exact Hcreate.
Qed.

End Quiet.

End Properties.

(** * Runs on the small host *)

Module Runs.

Import Workbench.

(** ** The small host keeps the laws *)

Lemma length_append (a b : string) :
  String.length (String.append a b) = String.length a + String.length b.
Proof. induction a as [|c a IH]; simpl; [reflexivity | now rewrite IH]. Qed.

Lemma length_concat_bound (used : list string) (n : string) :
  In n used -> String.length n <= String.length (String.concat "" used).
Proof.
  induction used as [|x rest IH]; [intros []|].
  intros [<-|Hn].
  - destruct rest as [|y rest']; simpl; [lia|].
    rewrite length_append. lia.
  - specialize (IH Hn). destruct rest as [|y rest']; [destruct Hn|].
    change (String.concat "" (x :: y :: rest'))
      with (String.append x
              (String.append "" (String.concat "" (y :: rest')))).
    rewrite length_append.
    change (String.append "" (String.concat "" (y :: rest')))
      with (String.concat "" (y :: rest')).
    lia.
Qed.

Lemma wb_uniqueName_fresh used name : ~ In (wb_uniqueName used name) used.
Proof.
  unfold wb_uniqueName.
  destruct (existsb (String.eqb name) used) eqn:E.
  - intros Hin. apply length_concat_bound in Hin.
    rewrite !length_append in Hin. simpl in Hin. lia.
  - intros Hin.
    assert (Hx : existsb (String.eqb name) used = true).
    { apply existsb_exists. exists name. split; [exact Hin|].
      apply String.eqb_refl. }
    rewrite E in Hx. discriminate Hx.
Qed.

Lemma wb_uniqueName_free used name :
  ~ In name used -> wb_uniqueName used name = name.
Proof.
  intros Hn. unfold wb_uniqueName.
  destruct (existsb (String.eqb name) used) eqn:E; [|reflexivity].
  apply existsb_exists in E as (x & Hx & Heq).
  apply String.eqb_eq in Heq. subst x. contradiction.
Qed.

Lemma refresh_label (objs : list wb_obj) (o : wb_obj) :
  label (refresh objs o) = label o.
Proof.
  unfold refresh. destruct (Mesh o); [reflexivity|].
  destruct (Source o); [|reflexivity].
  destruct (String.eqb (TypeId o) "Part::Refine"); [|reflexivity].
  now destruct (lookup s objs).
Qed.

Lemma refresh_mesh (objs : list wb_obj) (o : wb_obj) :
  has_Mesh o = true -> refresh objs o = o.
Proof.
  unfold has_Mesh, refresh. now destruct (Mesh o).
Qed.

Lemma refresh_Name (objs : list wb_obj) (o : wb_obj) :
  Name (refresh objs o) = Name o.
Proof.
  exact (f_equal fst (refresh_label objs o)).
Qed.

Lemma lookup_refreshed (all objs : list wb_obj) name o :
  lookup name objs = Some o -> has_Mesh o = true ->
  lookup name (map (refresh all) objs) = Some o.
Proof.
  unfold lookup. induction objs as [|x rest IH]; simpl; [discriminate|].
  rewrite refresh_Name.
  destruct (String.eqb (Name x) name).
  - intros [= ->] Hm. now rewrite refresh_mesh.
  - apply IH.
Qed.

Lemma workbench_laws mends oracle : HostLaws (workbench mends oracle).
Proof.
  split; simpl.
  - intros objs. unfold wb_recompute. rewrite map_map.
    apply map_ext. intros o. apply refresh_label.
  - intros objs. apply lookup_refreshed.
  - apply wb_uniqueName_fresh.
  - apply wb_uniqueName_free.
Qed.

Local Open Scope string_scope.

(** ** Runs of the repair *)

Local Abbreviation mends := (workbench true never).
Local Abbreviation idle := (workbench false never).

Local Abbreviation crossed_doc := (document [mesh_feature "Mesh" crossed]).
Local Abbreviation cube_doc := (document [mesh_feature "Mesh" cube]).
Local Abbreviation empty_doc := (document [mesh_feature "Mesh" no_facets]).

Local Abbreviation crossed_run :=
  (attempt_comprehensive_manual_repair mends "Mesh" crossed_doc).

(** C9 at work: on a mesh with crossing facets that the host mends, the
    run ends with the flag set, and the first check had found the
    self-intersections. *)
Lemma crossed_mesh_sets_the_flag :
  crossed_run = Ok true (reached crossed_run)
  /\ self_intersections_fixed_on_mutable (locals (reached crossed_run)) = true
  /\ (initial_has_self_intersections (locals (reached crossed_run)) = Some true
      /\ exists m, mesh_of "Mesh" crossed_doc = Some m
                   /\ hasSelfIntersections mends m = true).
Proof.
  assert (Hrun : crossed_run = Ok true (reached crossed_run))
    by (vm_compute; reflexivity).
  assert (Hflag : self_intersections_fixed_on_mutable
                    (locals (reached crossed_run)) = true)
    by (vm_compute; reflexivity).
  exact (conj Hrun (conj Hflag
           (@fixed_flag_only_after_initial_self_intersections _ _ _ _ _ _ _
              Hrun Hflag))).
Defined.

Local Abbreviation crossed_body :=
  (repair_body mends "Mesh" (set_locals empty_frame crossed_doc)).


Local Abbreviation cube_body :=
  (repair_body idle "Mesh" (set_locals empty_frame cube_doc)).



(** C3 as worded fails: a mesh with no facet that the kernel calls
    solid (it has no edge on a border) is not classified as not solid;
    the evaluator returns ['proceed']. *)
Lemma mesh_without_facets_proceeds :
  mesh_of "Mesh" empty_doc = Some no_facets
  /\ CountFacets idle no_facets = 0
  /\ isSolid idle no_facets = true
  /\ evaluate_mesh_automated idle "Mesh" empty_doc
     = Ok "proceed" (reached (evaluate_mesh_automated idle "Mesh" empty_doc)).
Proof.
  repeat (split; [vm_compute; reflexivity|]). vm_compute. reflexivity.
Qed.

(** ** Runs of the conversion *)

Local Abbreviation cube_conversion :=
  (convert_single_mesh mends "Mesh" false cube_doc).


Local Abbreviation late := (workbench false body_breaks_recompute).
Local Abbreviation late_conversion :=
  (convert_single_mesh late "Mesh" true cube_doc).


Local Abbreviation empty_start :=
  (reached (opening idle "Mesh" false empty_doc)).
Local Abbreviation empty_conversion :=
  (convert_single_mesh idle "Mesh" false empty_doc).


(** ** Runs of the batch *)

Local Abbreviation three :=
  [mesh_feature "Mesh" cube; mesh_feature "Box" open_box;
   mesh_feature "X" crossed].
Local Abbreviation three_names := ["Mesh"; "Box"; "X"].
Local Abbreviation three_loop :=
  (process_all mends three_names (initial_results (length three_names))
     (master_opened (document three))).
Local Abbreviation three_results :=
  {| total_meshes := 3; converted := 2; failed := 0; skipped := 1;
     converted_objects := [("Mesh", Some "Mesh_Body"); ("X", Some "X_Body")];
     failed_objects := [];
     skipped_objects := ["Box"] |}.


Local Abbreviation blind := (workbench false reads_fail).
Local Abbreviation box := [mesh_feature "Box" open_box].
Local Abbreviation box_loop :=
  (process_all blind ["Box"] (initial_results (length ["Box"]))
     (master_opened (document box))).

(** C8 at work: the open box is not converted, the read of line 393
    raises, and the master transaction is aborted. *)
Lemma failed_read_aborts_the_batch :
  ActiveDocument (document box) = Some box
  /\ ["Box"] = map Name (filter has_Mesh box)
  /\ ["Box"] <> []
  /\ box_loop = Raise (HostError (GetObject "Box")) (reached box_loop)
  /\ exists s',
       convert_all_document_meshes blind true (document box) = Ok None s'
       /\ transactions (trace s')
          = (transactions (trace (document box))
             ++ [OpenTransaction "Convert All Document Meshes";
                 AbortTransaction])%list.
Proof.
  assert (Hd : ActiveDocument (document box) = Some box) by reflexivity.
  assert (Hn : ["Box"] = map Name (filter has_Mesh box)) by reflexivity.
  assert (Hne : ["Box"] <> []) by discriminate.
  assert (Hloop : box_loop
                  = Raise (HostError (GetObject "Box")) (reached box_loop))
    by (vm_compute; reflexivity).
  exact (conj Hd (conj Hn (conj Hne (conj Hloop
           (proj1 (@batch_transaction_is_all_or_nothing _ _ blind true
                     _ _ _ Hd Hn Hne) _ _ Hloop))))).
Defined.

End Runs.

(** * Further runs on the small host *)

Module FurtherRuns.

Import Workbench.

Local Open Scope string_scope.

Local Abbreviation mends := (workbench true never).
Local Abbreviation idle := (workbench false never).
Local Abbreviation crossed_doc := (document [mesh_feature "Mesh" crossed]).
Local Abbreviation empty_doc := (document [mesh_feature "Mesh" no_facets]).
Local Abbreviation box_doc := (document [mesh_feature "Box" open_box]).

Local Abbreviation crossed_evaluation :=
  (evaluate_mesh_automated mends "Mesh" crossed_doc).

(** X2 at work: the mesh with crossing facets is mended, and the
    evaluation lets it through. *)
Lemma mended_mesh_proceeds :
  crossed_evaluation = Ok "proceed" (reached crossed_evaluation)
  /\ exists m,
       mesh_of "Mesh" (reached crossed_evaluation) = Some m
       /\ isSolid mends m = true
       /\ hasNonManifolds mends m = false
       /\ (hasSelfIntersections mends m = false
           \/ (initial_has_self_intersections
                 (locals (reached crossed_evaluation)) = Some true
               /\ self_intersections_fixed_on_mutable
                    (locals (reached crossed_evaluation)) = true)).
Proof.
  assert (Hrun : crossed_evaluation
                 = Ok "proceed" (reached crossed_evaluation))
    by (vm_compute; reflexivity).
  exact (conj Hrun
           (@proceed_means_solid_and_manifold _ _ mends "Mesh" crossed_doc
              (reached crossed_evaluation) Hrun)).
Defined.


Local Abbreviation box_evaluation :=
  (evaluate_mesh_automated idle "Box"
     (printed (Message (String.append "Processing: " "Box")) box_doc)).

(** X5 at work: the open box is not solid; it is counted as skipped. *)
Lemma open_box_is_skipped :
  (forall (s : wb_state) name, raises idle s (GetObject name) = false)
  /\ ActiveDocument box_doc <> None
  /\ box_evaluation = Ok "repair" (reached box_evaluation)
  /\ "repair" <> "proceed"
  /\ still_a_mesh "Box" box_doc = true
  /\ exists s',
       process_mesh idle (initial_results 1) "Box" box_doc
       = Ok (if still_a_mesh "Box" box_doc
             then add_skipped "Box" (initial_results 1)
             else add_failed "Box" (initial_results 1)) s'
       /\ labels s' = labels box_doc
       /\ transactions (trace s') = transactions (trace box_doc).
Proof.
  assert (Hg : forall (s : wb_state) name,
                 raises idle s (GetObject name) = false)
    by (intros; reflexivity).
  assert (Hd : ActiveDocument box_doc <> None) by discriminate.
  assert (He : box_evaluation = Ok "repair" (reached box_evaluation))
    by (vm_compute; reflexivity).
  assert (Hv : "repair" <> "proceed") by discriminate.
  assert (Hm : still_a_mesh "Box" box_doc = true) by reflexivity.
  exact (conj Hg (conj Hd (conj He (conj Hv (conj Hm
           (@rejected_mesh_is_counted_by_its_type _ _ idle
              (Runs.workbench_laws false never) Hg (initial_results 1)
              "Box" box_doc "repair" (reached box_evaluation)
              Hd He Hv)))))).
Defined.

Local Abbreviation three :=
  (document [mesh_feature "Mesh" cube; mesh_feature "Box" open_box;
             mesh_feature "X" crossed]).
Local Abbreviation three_names := ["Mesh"; "Box"; "X"].
Local Abbreviation three_loop :=
  (process_all mends three_names (initial_results (length three_names))
     three).
Local Abbreviation three_results :=
  {| total_meshes := 3; converted := 2; failed := 0; skipped := 1;
     converted_objects := [("Mesh", Some "Mesh_Body"); ("X", Some "X_Body")];
     failed_objects := [];
     skipped_objects := ["Box"] |}.

(** X6 at work: two meshes converted, one skipped, each listed once. *)
Lemma three_meshes_are_listed_once :
  three_loop = Ok three_results (reached three_loop)
  /\ Permutation
       (map fst (converted_objects three_results)
        ++ skipped_objects three_results
        ++ failed_objects three_results)%list
       three_names.
Proof.
  assert (Hloop : three_loop = Ok three_results (reached three_loop))
    by (vm_compute; reflexivity).
  exact (conj Hloop
           (proj1 (@every_mesh_is_listed_once _ _ mends three_names three
                     three_results (reached three_loop) Hloop))).
Defined.

Local Abbreviation crossed_run :=
  (attempt_comprehensive_manual_repair mends "Mesh" crossed_doc).

(** X12 at work: the priority pass goes through on the mesh with
    crossing facets. *)
Lemma priority_pass_goes_through :
  crossed_run = Ok true (reached crossed_run)
  /\ initial_has_self_intersections (locals (reached crossed_run))
     = Some true
  /\ self_intersections_fixed_on_mutable (locals (reached crossed_run))
     = true
  /\ In "Fix self-intersections (priority)"
       (repairs_applied (locals (reached crossed_run)))
  /\ In "Harmonize Normals (after self-intersection fix)"
       (repairs_applied (locals (reached crossed_run))).
Proof.
  assert (Hrun : crossed_run = Ok true (reached crossed_run))
    by (vm_compute; reflexivity).
  assert (Hi : initial_has_self_intersections
                 (locals (reached crossed_run)) = Some true)
    by (vm_compute; reflexivity).
  exact (conj Hrun (conj Hi
           (@priority_pass_must_complete _ _ mends "Mesh" crossed_doc
              (reached crossed_run) Hrun Hi))).
Defined.

(** X13 at work: the analysis mends the mesh with crossing facets, and
    the document still has the one object, under its name and type. *)
Lemma analysis_mends_and_keeps_the_object :
  mesh_of "Mesh" (reached (analyze_document_meshes mends crossed_doc))
  <> mesh_of "Mesh" crossed_doc
  /\ labels (reached (evaluate_mesh_automated mends "Mesh" crossed_doc))
     = labels crossed_doc
  /\ labels (reached (analyze_document_meshes mends crossed_doc))
     = labels crossed_doc.
Proof.
  split; [vm_compute; discriminate|].
  exact (@analysis_keeps_the_objects _ _ mends
           (Runs.workbench_laws true never) "Mesh" crossed_doc).
Defined.

Local Abbreviation cube_doc := (document [mesh_feature "Mesh" cube]).
Local Abbreviation cube_start :=
  (reached (opening mends "Mesh" false cube_doc)).
Local Abbreviation cube_built :=
  (build_intermediates mends "Mesh" "Mesh" cube_start).
Local Abbreviation cube_objs :=
  ("Mesh_shape", "Mesh_solid", "Mesh_solid_refined").
Local Abbreviation cube_checked :=
  (refined_is_valid mends (snd cube_objs) (reached cube_built)).

(** X14 at work: the cube passes, its refined solid is valid, and it is
    converted. *)
Lemma valid_cube_is_converted :
  (forall (s : wb_state) c, raises mends s c = false)
  /\ conversion_starts mends "Mesh" false cube_doc cube_start
  /\ cube_built = Ok cube_objs (reached cube_built)
  /\ cube_checked = Ok true (reached cube_checked)
  /\ exists body_name s',
       convert_single_mesh mends "Mesh" false cube_doc
       = Ok (true, Some body_name) s'.
Proof.
  assert (Hq : forall (s : wb_state) c, raises mends s c = false)
    by (intros; reflexivity).
  assert (Hstart : conversion_starts mends "Mesh" false cube_doc cube_start)
    by (vm_compute; reflexivity).
  assert (Hbuild : cube_built = Ok cube_objs (reached cube_built))
    by (vm_compute; reflexivity).
  assert (Hvalid : cube_checked = Ok true (reached cube_checked))
    by (vm_compute; reflexivity).
  exact (conj Hq (conj Hstart (conj Hbuild (conj Hvalid
           (@conversion_succeeds_when_the_solid_is_valid _ _ mends
              (Runs.workbench_laws true never) Hq "Mesh" false cube_doc
              cube_start cube_objs (reached cube_built)
              (reached cube_checked) Hstart Hbuild Hvalid))))).
Defined.

End FurtherRuns.
